(** * Program-derived addresses of anchor-ts ([dist/cjs/utils/pubkey.js])

    A shallow embedding of the address-derivation utilities
    [createWithSeedSync], [createProgramAddressSync],
    [findProgramAddressSync], [toBuffer] and [associated], together with the
    pieces of their JavaScript environment they touch: [Buffer], the
    [bn.js] big numbers, the hexadecimal output of [js-sha256] and the
    [PublicKey] class of [@solana/web3.js].

    The hash function and the curve-membership test belong to other
    packages: the embedding takes them as parameters ([Section Pubkey]).
    [Module SHA256] and [Module Ed25519] give executable reference
    instances (FIPS 180-4 and the point-decompression test of
    [PublicKey.isOnCurve]) at which the parametric results are
    instantiated. *)

From Stdlib Require Import Strings.String Strings.Ascii Strings.Byte.
From Stdlib Require Import ZArith NArith PeanoNat List Bool Lia.
From Bignums Require Import BigN.
Import ListNotations.

(** ** Bytes and buffers *)

(** A [Buffer] (and a [Uint8Array]) is the list of its bytes. *)
Definition Buffer := list byte.

(** Storing a number into a byte array keeps its low eight bits. *)
Definition byte_of_N (n : N) : byte :=
  match Byte.of_N (n mod 256) with
  | Some b => b
  | None => x00
  end.

(** [Buffer.from(array)] for an array of integers: each entry is
    truncated to a byte ([& 255]). *)
Definition Buffer_from_array (a : list Z) : Buffer :=
  map (fun z => byte_of_N (Z.to_N (z mod 256))) a.

(** [Buffer.from(string)]: a JavaScript string is represented by the
    string of its UTF-8 encoding, so the buffer holds its bytes. *)
Definition Buffer_from_string (s : string) : Buffer :=
  list_byte_of_string s.

(** [Buffer.alloc(n)]: [n] zero bytes. *)
Definition Buffer_alloc (n : nat) : Buffer := repeat x00 n.

(** [Buffer.concat(list)]. *)
Definition Buffer_concat (l : list Buffer) : Buffer := concat l.

(** *** JavaScript strings *)

(** A JavaScript string is a sequence of UTF-16 code units, each below
    65536; a unit from D800 to DBFF is a high surrogate, one from DC00
    to DFFF a low surrogate. *)
Definition JsString : Type := list N.

Definition is_high_surrogate (u : N) : bool :=
  ((55296 <=? u) && (u <=? 56319))%N.

Definition is_low_surrogate (u : N) : bool :=
  ((56320 <=? u) && (u <=? 57343))%N.

(** UTF-8 of a code point below 65536: one, two or three bytes. *)
Definition utf8_bmp (u : N) : list byte :=
  if (u <? 128)%N then [byte_of_N u]
  else if (u <? 2048)%N
       then [byte_of_N (192 + u / 64); byte_of_N (128 + u mod 64)]
       else [byte_of_N (224 + u / 4096);
             byte_of_N (128 + (u / 64) mod 64);
             byte_of_N (128 + u mod 64)].

(** UTF-8 of the code point of a surrogate pair: four bytes. *)
Definition utf8_pair (high low : N) : list byte :=
  let c := (65536 + (high - 55296) * 1024 + (low - 56320))%N in
  [byte_of_N (240 + c / 262144);
   byte_of_N (128 + (c / 4096) mod 64);
   byte_of_N (128 + (c / 64) mod 64);
   byte_of_N (128 + c mod 64)].

(** U+FFFD, which stands in for a surrogate without its partner. *)
Definition utf8_replacement : list byte := [xef; xbf; xbd].

(** The bytes [Buffer.from(string)] holds: the UTF-8 encoding of the
    string, a surrogate pair as one code point, a lone surrogate as
    U+FFFD. *)
Fixpoint utf8 (s : JsString) : list byte :=
  match s with
  | [] => []
  | u :: rest =>
      if is_high_surrogate u
      then match rest with
           | v :: rest' =>
               if is_low_surrogate v
               then utf8_pair u v ++ utf8 rest'
               else utf8_replacement ++ utf8 rest
           | [] => utf8_replacement
           end
      else if is_low_surrogate u
           then utf8_replacement ++ utf8 rest
           else utf8_bmp u ++ utf8 rest
  end.

(** A JavaScript string as this development represents it: the string
    of its UTF-8 encoding. *)
Definition utf8_string (s : JsString) : string :=
  string_of_list_byte (utf8 s).

(** ** Big numbers ([bn.js]) *)

Module BN.

(** Only non-negative numbers occur. *)
Definition t := N.

(** [new BN(bytes)]: the bytes read as a big-endian number. *)
Definition of_bytes (bs : list byte) : t :=
  fold_left (fun acc b => (acc * 256 + Byte.to_N b)%N) bs 0%N.

(** Value of a hexadecimal digit, [parseHex4Bits]. *)
Definition hex_digit (c : ascii) : option N :=
  let n := N_of_ascii c in
  if ((48 <=? n) && (n <=? 57))%N then Some (n - 48)%N
  else if ((65 <=? n) && (n <=? 70))%N then Some (n - 55)%N
  else if ((97 <=? n) && (n <=? 102))%N then Some (n - 87)%N
  else None.

(** [new BN(string, 16)] on a string of digits; [None] is the
    assertion failure on a character that is no digit. *)
Fixpoint parse_hex_from (acc : N) (s : string) : option t :=
  match s with
  | EmptyString => Some acc
  | String c s' =>
      match hex_digit c with
      | Some d => parse_hex_from (acc * 16 + d)%N s'
      | None => None
      end
  end.

Definition of_hex (s : string) : option t := parse_hex_from 0%N s.

(** [byteLength()]: [ceil(bitLength / 8)]. *)
Definition byteLength (n : t) : nat := N.to_nat ((N.size n + 7) / 8).

(** The [len] low-order bytes of [n], least significant first. *)
Fixpoint le_bytes (len : nat) (n : N) : list byte :=
  match len with
  | O => []
  | S len' => byte_of_N n :: le_bytes len' (n / 256)
  end.

(** [toArray('be', len)] for [len > 0]: the number in exactly [len]
    bytes, most significant first, zero-padded; the assertion
    ["byte array longer than desired length"] fails when the number
    does not fit. *)
Definition toArray (n : t) (len : nat) : option (list byte) :=
  if (byteLength n <=? len)%nat then Some (rev (le_bytes len n)) else None.

End BN.

(** ** Hexadecimal output of [js-sha256] *)

Definition HEX_CHARS : list ascii :=
  list_ascii_of_string "0123456789abcdef".

Definition hex_char (n : N) : ascii := nth (N.to_nat n) HEX_CHARS "0"%char.

Fixpoint hex (bs : list byte) : string :=
  match bs with
  | [] => EmptyString
  | b :: bs' =>
      String (hex_char (Byte.to_N b / 16))
        (String (hex_char (Byte.to_N b mod 16)) (hex bs'))
  end.

(** ** Exceptions and the effect monad *)

(** The two classes of exception the module throws and tells apart with
    [instanceof]. *)
Inductive JsError : Type :=
| TypeError (message : string)
| Error (message : string).

(** How a call completes. *)
Inductive Completion (A : Type) : Type :=
| Return (a : A)
| Throw (e : JsError).

Arguments Return {A} a.
Arguments Throw {A} e.

(** The observable effect of the module is the sequence of messages
    handed to the hash function, oldest first. *)
Definition Trace := list (list byte).

(** A computation runs from a trace to a completion and the extended
    trace. *)
Definition Js (A : Type) : Type := Trace -> Completion A * Trace.

Definition ret {A} (a : A) : Js A := fun tr => (Return a, tr).

Definition throw {A} (e : JsError) : Js A := fun tr => (Throw e, tr).

Definition bind {A B} (m : Js A) (k : A -> Js B) : Js B :=
  fun tr =>
    match m tr with
    | (Return a, tr') => k a tr'
    | (Throw e, tr') => (Throw e, tr')
    end.

(** [try { m } catch (err) { handler(err) }]. *)
Definition try_catch {A} (m : Js A) (handler : JsError -> Js A) : Js A :=
  fun tr =>
    match m tr with
    | (Return a, tr') => (Return a, tr')
    | (Throw e, tr') => handler e tr'
    end.

(** A call that has no effect on the trace. *)
Definition lift {A} (c : Completion A) : Js A := fun tr => (c, tr).

(** An [assert] of a library: [None] throws a plain [Error]. *)
Definition assert_some {A} (o : option A) (message : string) : Js A :=
  match o with
  | Some a => ret a
  | None => throw (Error message)
  end.

Declare Scope js_scope.
Delimit Scope js_scope with js.
Notation "x <- m ;; k" := (bind m (fun x => k))
  (at level 61, m at next level, right associativity) : js_scope.

(** [Array.prototype.forEach] with a callback that updates a variable
    it closes over: the callback maps the variable's value and an
    element to the new value, and an exception leaves the loop. *)
Fixpoint forEach {A V} (l : list A) (callback : V -> A -> Js V) (v : V) : Js V :=
  match l with
  | [] => ret v
  | x :: l' => bind (callback v x) (forEach l' callback)
  end.

Definition result {A} (r : Completion A * Trace) : Completion A := fst r.
Definition hashed {A} (r : Completion A * Trace) : Trace := snd r.

(** ** [PublicKey] of [@solana/web3.js] *)

Definition PUBLIC_KEY_LENGTH : nat := 32.

(** A public key holds a big number [_bn]; the constructor refuses a
    value of more than 32 bytes, so every key carries that bound. *)
Record PublicKey : Type := mkPublicKey {
  _bn : BN.t;
  _bn_fits : (BN.byteLength _bn <=? PUBLIC_KEY_LENGTH)%nat = true
}.

(** [new PublicKey(bytes)]: the constructor throws when
    [_bn.byteLength() > 32]. *)
Definition PublicKey_new (value : list byte) : Completion PublicKey :=
  let bn := BN.of_bytes value in
  match bool_dec (BN.byteLength bn <=? PUBLIC_KEY_LENGTH)%nat true with
  | left Hfits => Return (mkPublicKey bn Hfits)
  | right _ => Throw (Error "Invalid public key input")
  end.

(** [publicKey.toBuffer()]: the number in 32 bytes, big-endian and
    zero-padded. *)
Definition PublicKey_toBuffer (k : PublicKey) : Buffer :=
  rev (BN.le_bytes PUBLIC_KEY_LENGTH (_bn k)).

(** The key of 32 zero bytes. *)
Definition zero_key : PublicKey := mkPublicKey 0%N eq_refl.

(** The key of 31 zero bytes and a byte 1. *)
Definition one_key : PublicKey := mkPublicKey 1%N eq_refl.

(** The key whose bytes are 10 zero bytes, a byte 1 and
    "ProgramDerivedAddress". *)
Definition marker_key : PublicKey :=
  mkPublicKey
    (BN.of_bytes (x01 :: list_byte_of_string "ProgramDerivedAddress")) eq_refl.

(** ** Reference hash: SHA-256 (FIPS 180-4) *)

Module SHA256.

Local Open Scope N_scope.

Definition word (x : N) : N := x mod 4294967296.
Definition add (x y : N) : N := word (x + y).
Definition rotr (n x : N) : N :=
  N.lor (N.shiftr x n) (word (N.shiftl x (32 - n))).
Definition shr (n x : N) : N := N.shiftr x n.
Definition xor3 (x y z : N) : N := N.lxor (N.lxor x y) z.

Definition Ch (x y z : N) : N :=
  N.lxor (N.land x y) (N.land (N.lxor x 4294967295) z).
Definition Maj (x y z : N) : N :=
  xor3 (N.land x y) (N.land x z) (N.land y z).
Definition Sigma0 (x : N) : N := xor3 (rotr 2 x) (rotr 13 x) (rotr 22 x).
Definition Sigma1 (x : N) : N := xor3 (rotr 6 x) (rotr 11 x) (rotr 25 x).
Definition sigma0 (x : N) : N := xor3 (rotr 7 x) (rotr 18 x) (shr 3 x).
Definition sigma1 (x : N) : N := xor3 (rotr 17 x) (rotr 19 x) (shr 10 x).

(** The 64 round constants, most significant word first. *)
Definition K_table : N :=
  0x428a2f9871374491b5c0fbcfe9b5dba53956c25b59f111f1923f82a4ab1c5ed5d807aa9812835b01243185be550c7dc372be5d7480deb1fe9bdc06a7c19bf174e49b69c1efbe47860fc19dc6240ca1cc2de92c6f4a7484aa5cb0a9dc76f988da983e5152a831c66db00327c8bf597fc7c6e00bf3d5a7914706ca63511429296727b70a852e1b21384d2c6dfc53380d13650a7354766a0abb81c2c92e92722c85a2bfe8a1a81a664bc24b8b70c76c51a3d192e819d6990624f40e3585106aa07019a4c1161e376c082748774c34b0bcb5391c0cb34ed8aa4a5b9cca4f682e6ff3748f82ee78a5636f84c878148cc7020890befffaa4506cebbef9a3f7c67178f2.

Definition K (t : N) : N := word (N.shiftr K_table (32 * (63 - t))).

(** The initial hash value, most significant word first. *)
Definition H0_table : N :=
  0x6a09e667bb67ae853c6ef372a54ff53a510e527f9b05688c1f83d9ab5be0cd19.

Definition H0 (i : N) : N := word (N.shiftr H0_table (32 * (7 - i))).

Record state : Type := mkState {
  va : N; vb : N; vc : N; vd : N; ve : N; vf : N; vg : N; vh : N
}.

Definition init : state :=
  mkState (H0 0) (H0 1) (H0 2) (H0 3) (H0 4) (H0 5) (H0 6) (H0 7).

Definition round (s : state) (k w : N) : state :=
  let T1 := add (add (add (add (vh s) (Sigma1 (ve s)))
                        (Ch (ve s) (vf s) (vg s))) k) w in
  let T2 := add (Sigma0 (va s)) (Maj (va s) (vb s) (vc s)) in
  mkState (add T1 T2) (va s) (vb s) (vc s)
          (add (vd s) T1) (ve s) (vf s) (vg s).

(** [n] rounds from round [t]; [win] holds the message-schedule words
    [W t], ..., [W (t+15)]. *)
Fixpoint rounds (n : nat) (t : N) (win : list N) (s : state) : state :=
  match n with
  | O => s
  | S n' =>
      let w := nth 0 win 0 in
      let next := add (add (add (sigma1 (nth 14 win 0)) (nth 9 win 0))
                           (sigma0 (nth 1 win 0))) w in
      rounds n' (t + 1) (tl win ++ [next]) (round s (K t) w)
  end.

(** The first [n] big-endian 32-bit words of a block. *)
Fixpoint words (n : nat) (bs : list byte) : list N :=
  match n with
  | O => []
  | S n' => BN.of_bytes (firstn 4 bs) :: words n' (skipn 4 bs)
  end.

Definition compress (s : state) (block : list byte) : state :=
  let r := rounds 64 0 (words 16 block) s in
  mkState (add (va s) (va r)) (add (vb s) (vb r)) (add (vc s) (vc r))
          (add (vd s) (vd r)) (add (ve s) (ve r)) (add (vf s) (vf r))
          (add (vg s) (vg r)) (add (vh s) (vh r)).

(** Padding: a [1] bit, zero bits up to 56 modulo 64 bytes, and the
    length in bits as a 64-bit big-endian number. *)
Definition pad (msg : list byte) : list byte :=
  let len := length msg in
  msg ++ [x80] ++ repeat x00 ((119 - len mod 64) mod 64)%nat
      ++ rev (BN.le_bytes 8 (8 * N.of_nat len)).

Fixpoint blocks (n : nat) (bs : list byte) (s : state) : state :=
  match n with
  | O => s
  | S n' => blocks n' (skipn 64 bs) (compress s (firstn 64 bs))
  end.

Definition word_bytes (x : N) : list byte := rev (BN.le_bytes 4 x).

Definition digest (msg : list byte) : list byte :=
  let padded := pad msg in
  let s := blocks (length padded / 64) padded init in
  word_bytes (va s) ++ word_bytes (vb s) ++ word_bytes (vc s)
    ++ word_bytes (vd s) ++ word_bytes (ve s) ++ word_bytes (vf s)
    ++ word_bytes (vg s) ++ word_bytes (vh s).

End SHA256.

(** ** Reference curve test: decompression of an Ed25519 point *)

Module Ed25519.

Local Open Scope Z_scope.

(** The field prime [2^255 - 19]. *)
Definition p : Z := 2 ^ 255 - 19.

(** The curve constant [d = -121665/121666] and [I = sqrt(-1)]. *)
Definition D : Z :=
  37095705934669439343138083508754565189542113879843219016388785533085940283555.
Definition I : Z :=
  19681161376707505956807079304988542015446066515923890162744021073123829784752.

(** Multiplication in the field. *)
Definition M (x y : Z) : Z := (x * y) mod p.

Fixpoint pow_pos (x : Z) (e : positive) : Z :=
  match e with
  | xH => x mod p
  | xO e' => let y := pow_pos x e' in M y y
  | xI e' => let y := pow_pos x e' in M (M y y) x
  end.

(** The exponent [(p - 5) / 8 = 2^252 - 3]. *)
Definition e2523 : positive :=
  7237005577332262213973186563042994240829374041602535252466099000494570602493.

(** The [y] coordinate of an encoded point: little-endian, the sign
    bit dropped. *)
Definition unpack25519 (bs : list byte) : Z :=
  Z.of_N (BN.of_bytes (rev bs)) mod 2 ^ 255.

(** A point is on the curve when [x^2 = (y^2 - 1) / (d y^2 + 1)] has
    a root: the candidate [num den^3 (num den^7)^((p-5)/8)] or its
    product with [I] is one, or there is none. *)
Definition isOnCurve_spec (bs : list byte) : bool :=
  let y := unpack25519 bs in
  let num := (M y y - 1) mod p in
  let den := (M (M y y) D + 1) mod p in
  let den2 := M den den in
  let den4 := M den2 den2 in
  let den6 := M den4 den2 in
  let t := pow_pos (M (M den6 num) den) e2523 in
  let t := M (M (M (M t num) den) den) den in
  let chk := M (M t t) den in
  if chk =? num then true
  else
    let t' := M t I in
    M (M t' t') den =? num.

(** The same test on machine-word big numbers, which evaluate fast
    (see [Ed25519_isOnCurve_correct]). *)
Definition big (z : Z) : bigN := BigN.of_N (Z.to_N z).

Definition bM (x y : bigN) : bigN := BigN.modulo (BigN.mul x y) (big p).

Fixpoint bpow_pos (x : bigN) (e : positive) : bigN :=
  match e with
  | xH => BigN.modulo x (big p)
  | xO e' => let y := bpow_pos x e' in bM y y
  | xI e' => let y := bpow_pos x e' in bM (bM y y) x
  end.

Definition isOnCurve (bs : list byte) : bool :=
  let y := big (unpack25519 bs) in
  let num := BigN.modulo (BigN.add (bM y y) (big (p - 1))) (big p) in
  let den := BigN.modulo (BigN.add (bM (bM y y) (big D)) (big 1)) (big p) in
  let den2 := bM den den in
  let den4 := bM den2 den2 in
  let den6 := bM den4 den2 in
  let t := bpow_pos (bM (bM den6 num) den) e2523 in
  let t := bM (bM (bM (bM t num) den) den) den in
  let chk := bM (bM t t) den in
  if BigN.eqb chk num then true
  else
    let t' := bM t (big I) in
    BigN.eqb (bM (bM t' t') den) num.

End Ed25519.

(** ** The module [utils/pubkey] *)

(** A seed as [toBuffer] tells them apart: a [Buffer], a [Uint8Array],
    or anything else [Buffer.from] accepts, here an array of numbers. *)
Inductive Seed : Type :=
| SeedBuffer (b : Buffer)
| SeedUint8Array (a : list byte)
| SeedArray (a : list Z).

(** [seed.length]. *)
Definition seed_length (seed : Seed) : nat :=
  match seed with
  | SeedBuffer b => length b
  | SeedUint8Array a => length a
  | SeedArray a => length a
  end.

(** [toBuffer]: a [Buffer] is returned as it is, a [Uint8Array] is
    viewed as a [Buffer] over the same bytes, anything else goes
    through [Buffer.from]. *)
Definition toBuffer (arr : Seed) : Buffer :=
  match arr with
  | SeedBuffer b => b
  | SeedUint8Array a => a
  | SeedArray a => Buffer_from_array a
  end.

Definition MAX_SEED_LENGTH : nat := 32.

(** An argument of [associated]: a [Buffer], or an address to
    translate. *)
Inductive AssociatedArg (Address : Type) : Type :=
| ArgBuffer (b : Buffer)
| ArgAddress (a : Address).

Arguments ArgBuffer {Address} b.
Arguments ArgAddress {Address} a.

(** *** Vocabulary of the specification *)

(** The three failures of the derivation engine. *)
Definition InvalidSeedLength : JsError :=
  TypeError "Max seed length exceeded".
Definition InvalidSeeds : JsError :=
  Error "Invalid seeds, address must fall off the curve".
Definition NonceSearchExhausted : JsError :=
  Error "Unable to find a viable program address nonce".

(** The byte sequence a seed stands for, as the specification speaks of
    seeds: the bytes a [Buffer] or a [Uint8Array] holds; for an array of
    numbers, each number reduced to a byte. *)
Definition seed_octets (seed : Seed) : list byte :=
  match seed with
  | SeedBuffer b => b
  | SeedUint8Array a => a
  | SeedArray a => map (fun z => byte_of_N (Z.to_N (z mod 256))) a
  end.

(** A seed of more than 32 bytes. *)
Definition too_long (seed : Seed) : bool :=
  (MAX_SEED_LENGTH <? length (toBuffer seed))%nat.

(** [seed_1 || seed_2 || ... || seed_n]. *)
Definition seeds_bytes (seeds : list Seed) : list byte :=
  concat (map toBuffer seeds).

(** The preimage of a program-derived address:
    [seed_1 || ... || seed_n || programId || "ProgramDerivedAddress"]. *)
Definition preimage (seeds : list Seed) (programId : PublicKey) : list byte :=
  seeds_bytes seeds ++ PublicKey_toBuffer programId
    ++ list_byte_of_string "ProgramDerivedAddress".

(** The nonce as a seed of a single byte. *)
Definition nonce_seed (nonce : nat) : Seed :=
  SeedBuffer [byte_of_N (N.of_nat nonce)].

(** The address of a completed search, without the nonce. *)
Definition address_only (r : Completion (PublicKey * nat) * Trace)
  : Completion PublicKey * Trace :=
  match r with
  | (Return (address, _), tr) => (Return address, tr)
  | (Throw e, tr) => (Throw e, tr)
  end.

(** The nonces from [hi] down to [lo]. *)
Definition countdown (hi lo : nat) : list nat := rev (seq lo (S hi - lo)).

(** ** The derivations on a runtime with a state of its own *)

(** The code of [createProgramAddressSync] and [findProgramAddressSync]
    once more, with the two library calls they make, [sha256] and
    [PublicKey.isOnCurve], as calls on a runtime that has a state: what
    a call returns may depend on the state, and the call may change
    it. *)

Module Runtime.

Section Calls.

(** The state of the runtime. *)
Variable W : Type.

(** [sha256.digest] on that runtime. *)
Variable hash_call : list byte -> W -> list byte * W.

(** [PublicKey.isOnCurve] on that runtime. *)
Variable curve_call : list byte -> W -> bool * W.

Definition Js (A : Type) : Type := W -> Completion A * W.

Definition ret {A} (a : A) : Js A := fun w => (Return a, w).

Definition throw {A} (e : JsError) : Js A := fun w => (Throw e, w).

Definition bind {A B} (m : Js A) (k : A -> Js B) : Js B :=
  fun w =>
    match m w with
    | (Return a, w') => k a w'
    | (Throw e, w') => (Throw e, w')
    end.

Definition try_catch {A} (m : Js A) (handler : JsError -> Js A) : Js A :=
  fun w =>
    match m w with
    | (Return a, w') => (Return a, w')
    | (Throw e, w') => handler e w'
    end.

Definition lift {A} (c : Completion A) : Js A := fun w => (c, w).

Definition assert_some {A} (o : option A) (message : string) : Js A :=
  match o with
  | Some a => ret a
  | None => throw (Error message)
  end.

Fixpoint forEach {A V} (l : list A) (callback : V -> A -> Js V) (v : V) : Js V :=
  match l with
  | [] => ret v
  | x :: l' => bind (callback v x) (forEach l' callback)
  end.

(** [sha256(message)]: the digest as a hexadecimal string. *)
Definition sha256 (message : list byte) : Js string :=
  fun w => let (digest, w') := hash_call message w in (Return (hex digest), w').

(** [PublicKey.isOnCurve(bytes)]. *)
Definition isOnCurve (bytes : list byte) : Js bool :=
  fun w => let (onCurve, w') := curve_call bytes w in (Return onCurve, w').

(** Sync version of [web3.PublicKey.createProgramAddress]. *)
Definition createProgramAddressSync
    (seeds : list Seed) (programId : PublicKey) : Js PublicKey :=
  bind (forEach seeds
          (fun buffer seed =>
             if (MAX_SEED_LENGTH <? seed_length seed)%nat
             then throw (TypeError "Max seed length exceeded")
             else ret (Buffer_concat [buffer; toBuffer seed]))
          (Buffer_alloc 0))
    (fun buffer =>
  let buffer := Buffer_concat [buffer;
                               PublicKey_toBuffer programId;
                               Buffer_from_string "ProgramDerivedAddress"] in
  bind (sha256 buffer) (fun hash =>
  bind (assert_some (BN.of_hex hash) "Invalid character") (fun bn =>
  bind (assert_some (BN.toArray bn 32)
          "byte array longer than desired length") (fun publicKeyBytes =>
  bind (isOnCurve publicKeyBytes) (fun onCurve =>
  if onCurve
  then throw (Error "Invalid seeds, address must fall off the curve")
  else lift (PublicKey_new publicKeyBytes)))))).

(** The loop of [findProgramAddressSync] entered with the given
    [nonce]. *)
Fixpoint findProgramAddressSync_loop
    (nonce : nat) (seeds : list Seed) (programId : PublicKey)
  : Js (PublicKey * nat) :=
  match nonce with
  | O => throw (Error "Unable to find a viable program address nonce")
  | S nonce' =>
      bind (try_catch
              (let seedsWithNonce :=
                 seeds ++ [SeedBuffer (Buffer_from_array [Z.of_nat nonce])] in
               bind (createProgramAddressSync seedsWithNonce programId)
                 (fun address => ret (Some address)))
              (fun err =>
                 match err with
                 | TypeError _ => throw err
                 | Error _ => ret None
                 end))
        (fun found =>
           match found with
           | Some address => ret (address, nonce)
           | None => findProgramAddressSync_loop nonce' seeds programId
           end)
  end.

(** Sync version of [web3.PublicKey.findProgramAddress]. *)
Definition findProgramAddressSync
    (seeds : list Seed) (programId : PublicKey) : Js (PublicKey * nat) :=
  findProgramAddressSync_loop 255 seeds programId.

End Calls.

Arguments ret {W A} a.
Arguments throw {W A} e.
Arguments bind {W A B} m k.
Arguments try_catch {W A} m handler.
Arguments lift {W A} c.
Arguments assert_some {W A} o message.
Arguments forEach {W A V} l callback v.
Arguments sha256 {W} hash_call message.
Arguments isOnCurve {W} curve_call bytes.
Arguments createProgramAddressSync {W} hash_call curve_call seeds programId.
Arguments findProgramAddressSync_loop {W} hash_call curve_call nonce seeds
  programId.
Arguments findProgramAddressSync {W} hash_call curve_call seeds programId.

(** A runtime that counts the calls made on it, with the reference
    hash and the reference curve test. *)
Definition counting_hash (message : list byte) (w : nat) : list byte * nat :=
  (SHA256.digest message, S w).

Definition counting_curve (bytes : list byte) (w : nat) : bool * nat :=
  (Ed25519.isOnCurve bytes, S w).

(** A runtime whose hash depends on its state: the digest is 32 times
    the number of calls made so far. *)
Definition drifting_hash (message : list byte) (w : nat) : list byte * nat :=
  (repeat (byte_of_N (N.of_nat w)) 32, S w).

(** The bytes of the address a call returned, if it returned. *)
Definition returned_bytes (c : Completion PublicKey) : option (list byte) :=
  match c with
  | Return address => Some (PublicKey_toBuffer address)
  | Throw _ => None
  end.

End Runtime.

(** ** The module [provider] *)

(** The provider drives collaborators it does not own: a connection, a
    wallet, transactions. They are objects of other packages, mutable
    and shared, so the embedding keeps them outside: a transaction, a
    wallet or a connection is a handle, every method call is a function
    on the state of the world, and the embedding records the calls it
    makes in an event log. *)

Module Provider.

(** [ConfirmOptions] as far as the module reads them; [None] is
    [undefined]. *)
Record ConfirmOptions : Type := mkConfirmOptions {
  skipPreflight : option bool;
  commitment : option string;
  preflightCommitment : option string
}.

(** The [sendOptions] the module builds. *)
Record SendOptions : Type := mkSendOptions {
  send_skipPreflight : option bool;
  send_preflightCommitment : option string
}.

(** Truthiness of a string that may be [undefined]. *)
Definition truthy (v : option string) : bool :=
  match v with
  | Some s => negb (String.eqb s "")
  | None => false
  end.

(** [a || b]. *)
Definition or_else (a b : option string) : option string :=
  if truthy a then a else b.

(** What is thrown: the module's own [ConfirmError],
    [SendTransactionError] of [@solana/web3.js], an [Error] or
    [TypeError], or a value of any other class. *)
Inductive Failure (X : Type) : Type :=
| ConfirmError (message : string)
| SendTransactionError (message : string) (logs : list string)
| Threw (e : JsError)
| Foreign (x : X).

Arguments ConfirmError {X} message.
Arguments SendTransactionError {X} message logs.
Arguments Threw {X} e.
Arguments Foreign {X} x.

Inductive Outcome (X A : Type) : Type :=
| Done (a : A)
| Raise (f : Failure X).

Arguments Done {X A} a.
Arguments Raise {X A} f.

(** The part of a transaction response the module reads:
    [failedTx.meta?.logMessages]. *)
Record TransactionMeta : Type := mkTransactionMeta {
  logMessages : option (list string)
}.

Record TransactionResponse : Type := mkTransactionResponse {
  meta : option TransactionMeta
}.

(** The collaborators: the types of their handles and values, and their
    methods as functions on the world. *)
Record Collaborators : Type := mkCollaborators {
  World : Type;
  Alien : Type;
  Connection : Type;
  Wallet : Type;
  Transaction : Type;
  Signer : Type;
  Blockhash : Type;
  RawTransaction : Type;
  SignatureBytes : Type;
  SignatureStatus : Type;
  wallet_publicKey : Wallet -> World -> PublicKey;
  wallet_signTransaction :
    Wallet -> Transaction -> World -> Outcome Alien Transaction * World;
  wallet_signAllTransactions :
    Wallet -> list Transaction -> World ->
    Outcome Alien (list Transaction) * World;
  transaction_set_feePayer : Transaction -> PublicKey -> World -> World;
  transaction_set_recentBlockhash : Transaction -> Blockhash -> World -> World;
  transaction_partialSign :
    Transaction -> Signer -> World -> Outcome Alien unit * World;
  transaction_serialize :
    Transaction -> World -> Outcome Alien RawTransaction * World;
  transaction_signature : Transaction -> World -> option SignatureBytes;
  connection_getRecentBlockhash :
    Connection -> option string -> World -> Outcome Alien Blockhash * World;
  connection_sendRawTransaction :
    Connection -> RawTransaction -> option SendOptions -> World ->
    Outcome Alien string * World;
  connection_confirmTransaction :
    Connection -> string -> option string -> World ->
    Outcome Alien SignatureStatus * World;
  connection_getTransaction :
    Connection -> string -> string -> World ->
    Outcome Alien (option TransactionResponse) * World;
  status_err : SignatureStatus -> bool;
  JSON_stringify : SignatureStatus -> string;
  bs58_encode : option SignatureBytes -> Outcome Alien string
}.

(** The calls the module makes; a registration, a send, a confirmation
    and a lookup of a transaction are recorded with what they returned
    ([None] when they threw). *)
Inductive Event (C : Collaborators) : Type :=
| EvFeePayer (tx : Transaction C) (key : PublicKey)
| EvRecentBlockhash (tx : Transaction C) (blockhash : Blockhash C)
| EvGetRecentBlockhash (connection : Connection C) (commitment : option string)
| EvSignTransaction (wallet : Wallet C) (tx : Transaction C)
| EvSignAllTransactions (wallet : Wallet C) (txs : list (Transaction C))
| EvPartialSign (tx : Transaction C) (signer : Signer C)
| EvSerialize (tx : Transaction C)
| EvRegister (signature : option (SignatureBytes C)) (accepted : option bool)
| EvSendRawTransaction (connection : Connection C) (raw : RawTransaction C)
    (options : option SendOptions) (returned : option string)
| EvConfirmTransaction (connection : Connection C) (signature : string)
    (commitment : option string) (returned : option (SignatureStatus C))
| EvGetTransaction (connection : Connection C) (signature : string)
    (commitment : string) (returned : option (option TransactionResponse)).

Arguments EvFeePayer {C} tx key.
Arguments EvRecentBlockhash {C} tx blockhash.
Arguments EvGetRecentBlockhash {C} connection commitment.
Arguments EvSignTransaction {C} wallet tx.
Arguments EvSignAllTransactions {C} wallet txs.
Arguments EvPartialSign {C} tx signer.
Arguments EvSerialize {C} tx.
Arguments EvRegister {C} signature accepted.
Arguments EvSendRawTransaction {C} connection raw options returned.
Arguments EvConfirmTransaction {C} connection signature commitment returned.
Arguments EvGetTransaction {C} connection signature commitment returned.

(** The value a call returned, if it returned. *)
Definition returned_value {X A : Type} (r : Outcome X A) : option A :=
  match r with
  | Done a => Some a
  | Raise _ => None
  end.

Section Programs.

Variable C : Collaborators.

(** A computation of the module: from the world and the log so far to
    an outcome, the new world and the extended log. *)
Definition Prog (A : Type) : Type :=
  World C * list (Event C) -> Outcome (Alien C) A * (World C * list (Event C)).

Definition done {A} (a : A) : Prog A := fun st => (Done a, st).

Definition raise {A} (f : Failure (Alien C)) : Prog A := fun st => (Raise f, st).

Definition andThen {A B} (m : Prog A) (k : A -> Prog B) : Prog B :=
  fun st =>
    match m st with
    | (Done a, st') => k a st'
    | (Raise f, st') => (Raise f, st')
    end.

(** [try { m } catch (err) { handler(err) }]. *)
Definition tryCatch {A} (m : Prog A) (handler : Failure (Alien C) -> Prog A)
  : Prog A :=
  fun st =>
    match m st with
    | (Done a, st') => (Done a, st')
    | (Raise f, st') => handler f st'
    end.

(** A method call on a collaborator, recorded in the log. *)
Definition perform {R}
    (call : World C -> Outcome (Alien C) R * World C)
    (event : Outcome (Alien C) R -> Event C) : Prog R :=
  fun st =>
    let (r, w) := call (fst st) in
    (r, (w, snd st ++ [event r])).

(** An assignment to a field of a collaborator, recorded in the log. *)
Definition assign (write : World C -> World C) (event : Event C) : Prog unit :=
  fun st => (Done tt, (write (fst st), snd st ++ [event])).

(** Reading a property of a collaborator. *)
Definition read {R} (get : World C -> R) : Prog R :=
  fun st => (Done (get (fst st)), st).

(** A pure call that may throw. *)
Definition pure_call {R} (r : Outcome (Alien C) R) : Prog R :=
  fun st => (r, st).

Declare Scope prog_scope.
Delimit Scope prog_scope with prog.
Notation "x <- m ;; k" := (andThen m (fun x => k))
  (at level 61, m at next level, right associativity) : prog_scope.
Notation "m ;; k" := (andThen m (fun _ => k))
  (at level 61, right associativity) : prog_scope.
Local Open Scope prog_scope.

(** [array.forEach(callback)]. *)
Fixpoint forEach {A} (l : list A) (callback : A -> Prog unit) : Prog unit :=
  match l with
  | [] => done tt
  | x :: l' => callback x ;; forEach l' callback
  end.

(** [array.map(callback)]. *)
Fixpoint map_array {A B} (l : list A) (callback : A -> Prog B) : Prog (list B) :=
  match l with
  | [] => done []
  | x :: l' =>
      y <- callback x ;;
      ys <- map_array l' callback ;;
      done (y :: ys)
  end.

(** [for (let k = 0; k < n; k += 1) { body }] as a loop over the
    indices, with the variables the body updates as an accumulator. *)
Fixpoint for_each_index {V} (indices : list nat) (body : V -> nat -> Prog V)
    (v : V) : Prog V :=
  match indices with
  | [] => done v
  | k :: indices' => v' <- body v k ;; for_each_index indices' body v'
  end.

(** [array[k]] followed by a method call: [undefined] has no methods. *)
Definition element {A} (array : list A) (k : nat) : Prog A :=
  match nth_error array k with
  | Some x => done x
  | None => raise (Threw (TypeError "Cannot read properties of undefined"))
  end.

(** The methods of the collaborators, as calls. *)
Definition getRecentBlockhash (connection : Connection C)
    (commitment_ : option string) : Prog (Blockhash C) :=
  perform (connection_getRecentBlockhash C connection commitment_)
          (fun _ => EvGetRecentBlockhash connection commitment_).

Definition signTransaction (wallet : Wallet C) (tx : Transaction C)
  : Prog (Transaction C) :=
  perform (wallet_signTransaction C wallet tx)
          (fun _ => EvSignTransaction wallet tx).

Definition signAllTransactions (wallet : Wallet C) (txs : list (Transaction C))
  : Prog (list (Transaction C)) :=
  perform (wallet_signAllTransactions C wallet txs)
          (fun _ => EvSignAllTransactions wallet txs).

Definition partialSign (tx : Transaction C) (kp : Signer C) : Prog unit :=
  perform (transaction_partialSign C tx kp) (fun _ => EvPartialSign tx kp).

Definition serialize (tx : Transaction C) : Prog (RawTransaction C) :=
  perform (transaction_serialize C tx) (fun _ => EvSerialize tx).

Definition set_feePayer (tx : Transaction C) (key : PublicKey) : Prog unit :=
  assign (transaction_set_feePayer C tx key) (EvFeePayer tx key).

Definition set_recentBlockhash (tx : Transaction C) (blockhash : Blockhash C)
  : Prog unit :=
  assign (transaction_set_recentBlockhash C tx blockhash)
         (EvRecentBlockhash tx blockhash).

Definition connection_send (connection : Connection C)
    (rawTransaction : RawTransaction C) (sendOptions : option SendOptions)
  : Prog string :=
  perform (connection_sendRawTransaction C connection rawTransaction sendOptions)
          (fun r => EvSendRawTransaction connection rawTransaction sendOptions
                      (returned_value r)).

Definition confirmTransaction (connection : Connection C) (signature : string)
    (commitment_ : option string) : Prog (SignatureStatus C) :=
  perform (connection_confirmTransaction C connection signature commitment_)
          (fun r => EvConfirmTransaction connection signature commitment_
                      (returned_value r)).

Definition getTransaction (connection : Connection C) (signature : string)
    (commitment_ : string) : Prog (option TransactionResponse) :=
  perform (connection_getTransaction C connection signature commitment_)
          (fun r => EvGetTransaction connection signature commitment_
                      (returned_value r)).

(** The [register] callback of the caller, called and recorded. *)
Definition Register : Type :=
  option (SignatureBytes C) -> World C -> Outcome (Alien C) bool * World C.

Definition call_register (register : Register)
    (signature : option (SignatureBytes C)) : Prog bool :=
  perform (register signature) (fun r => EvRegister signature (returned_value r)).

(** [options && { skipPreflight: ..., preflightCommitment: ... }]. *)
Definition sendOptions_of (options : option ConfirmOptions) : option SendOptions :=
  match options with
  | None => None
  | Some o =>
      Some (mkSendOptions (skipPreflight o)
              (or_else (preflightCommitment o) (commitment o)))
  end.

(** [options && options.commitment]. *)
Definition commitment_of (options : option ConfirmOptions) : option string :=
  match options with
  | None => None
  | Some o => commitment o
  end.

(** Copy of [Connection.sendAndConfirmRawTransaction] that throws a
    better error if [confirmTransaction] returns an error status. *)
Definition sendAndConfirmRawTransaction (connection : Connection C)
    (rawTransaction : RawTransaction C) (options : option ConfirmOptions)
  : Prog string :=
  let sendOptions := sendOptions_of options in
  signature <- connection_send connection rawTransaction sendOptions ;;
  status <- confirmTransaction connection signature (commitment_of options) ;;
  if status_err C status
  then raise (ConfirmError
                ("Raw transaction " ++ signature ++ " failed ("
                   ++ JSON_stringify C status ++ ")"))
  else done signature.

(** Copy of [Connection.sendAndConfirmRawTransaction] that just
    sends. *)
Definition sendRawTransaction (connection : Connection C)
    (rawTransaction : RawTransaction C) (options : option ConfirmOptions)
  : Prog string :=
  let sendOptions := sendOptions_of options in
  connection_send connection rawTransaction sendOptions.

(** An [AnchorProvider]. *)
Record AnchorProvider : Type := mkAnchorProvider {
  connection : Connection C;
  wallet : Wallet C;
  opts : ConfirmOptions
}.

(** [opts === undefined ? this.opts : opts]. *)
Definition default_opts (this : AnchorProvider) (opts_ : option ConfirmOptions)
  : ConfirmOptions :=
  match opts_ with
  | None => opts this
  | Some o => o
  end.

(** [signers ?? []]. *)
Definition signers_or_empty (signers : option (list (Signer C)))
  : list (Signer C) :=
  match signers with
  | None => []
  | Some l => l
  end.

(** The first statements of [sendAndConfirm], [registerSendAndConfirm]
    and [registerAndSend]: fee payer, recent blockhash, the wallet's
    signature and the signatures of the other signers. *)
Definition prepare (this : AnchorProvider) (tx : Transaction C)
    (signers : option (list (Signer C))) (opts_ : ConfirmOptions)
  : Prog (Transaction C) :=
  key <- read (wallet_publicKey C (wallet this)) ;;
  set_feePayer tx key ;;
  blockhash <- getRecentBlockhash (connection this) (preflightCommitment opts_) ;;
  set_recentBlockhash tx blockhash ;;
  tx <- signTransaction (wallet this) tx ;;
  forEach (signers_or_empty signers) (fun kp => partialSign tx kp) ;;
  done tx.

(** The [catch] block of [sendAndConfirm] and
    [registerSendAndConfirm]: for a [ConfirmError], fetch the failed
    transaction and throw its logs if there are any. *)
Definition with_logs (this : AnchorProvider) (tx : Transaction C)
    (err : Failure (Alien C)) : Prog string :=
  match err with
  | ConfirmError message =>
      signature <- read (transaction_signature C tx) ;;
      encoded <- pure_call (bs58_encode C signature) ;;
      failedTx <- getTransaction (connection this) encoded "confirmed" ;;
      match failedTx with
      | None => raise err
      | Some response =>
          let logs := match meta response with
                      | None => None
                      | Some m => logMessages m
                      end in
          match logs with
          | None => raise err
          | Some l => raise (SendTransactionError message l)
          end
      end
  | _ => raise err
  end.

(** [AnchorProvider.sendAndConfirm]. *)
Definition sendAndConfirm (this : AnchorProvider) (tx : Transaction C)
    (signers : option (list (Signer C))) (opts_ : option ConfirmOptions)
  : Prog string :=
  let opts_ := default_opts this opts_ in
  tx <- prepare this tx signers opts_ ;;
  rawTx <- serialize tx ;;
  tryCatch (sendAndConfirmRawTransaction (connection this) rawTx (Some opts_))
           (with_logs this tx).

(** [if (!await register(tx.signature)) throw new Error(...)]. *)
Definition registration (register : Register) (tx : Transaction C) : Prog unit :=
  signature <- read (transaction_signature C tx) ;;
  accepted <- call_register register signature ;;
  if accepted then done tt
  else raise (Threw (Error "Signature registration failed")).

(** [AnchorProvider.registerSendAndConfirm]. *)
Definition registerSendAndConfirm (this : AnchorProvider) (tx : Transaction C)
    (register : Register) (signers : option (list (Signer C)))
    (opts_ : option ConfirmOptions) : Prog string :=
  let opts_ := default_opts this opts_ in
  tx <- prepare this tx signers opts_ ;;
  registration register tx ;;
  rawTx <- serialize tx ;;
  tryCatch (sendAndConfirmRawTransaction (connection this) rawTx (Some opts_))
           (with_logs this tx).

(** [AnchorProvider.registerAndSend]. *)
Definition registerAndSend (this : AnchorProvider) (tx : Transaction C)
    (register : Register) (signers : option (list (Signer C)))
    (opts_ : option ConfirmOptions) : Prog string :=
  let opts_ := default_opts this opts_ in
  tx <- prepare this tx signers opts_ ;;
  registration register tx ;;
  rawTx <- serialize tx ;;
  sendRawTransaction (connection this) rawTx (Some opts_).

(** An entry of [txWithSigners]. *)
Record TxWithSigners : Type := mkTxWithSigners {
  tx_of : Transaction C;
  signers_of : option (list (Signer C))
}.

(** The first statements of [sendAll] and [registerAndSendAll]: one
    blockhash, then fee payer, blockhash and signers for each
    transaction. *)
Definition prepare_unsigned (this : AnchorProvider)
    (txWithSigners : list TxWithSigners) (opts_ : ConfirmOptions)
  : Prog (list (Transaction C)) :=
  blockhash <- getRecentBlockhash (connection this) (preflightCommitment opts_) ;;
  map_array txWithSigners
    (fun r =>
       let tx := tx_of r in
       let signers := signers_or_empty (signers_of r) in
       key <- read (wallet_publicKey C (wallet this)) ;;
       set_feePayer tx key ;;
       set_recentBlockhash tx blockhash ;;
       forEach signers (fun kp => partialSign tx kp) ;;
       done tx).

(** The same, then the wallet's signatures: the first statements of
    [sendAll], and of [registerAndSendAll] in the cjs build. *)
Definition prepare_all (this : AnchorProvider)
    (txWithSigners : list TxWithSigners) (opts_ : ConfirmOptions)
  : Prog (list (Transaction C) * list (Transaction C)) :=
  txs <- prepare_unsigned this txWithSigners opts_ ;;
  signedTxs <- signAllTransactions (wallet this) txs ;;
  done (txs, signedTxs).

(** [AnchorProvider.sendAll]. *)
Definition sendAll (this : AnchorProvider) (txWithSigners : list TxWithSigners)
    (opts_ : option ConfirmOptions) : Prog (list string) :=
  let opts_ := default_opts this opts_ in
  prepared <- prepare_all this txWithSigners opts_ ;;
  let (txs, signedTxs) := prepared in
  for_each_index (seq 0 (length txs))
    (fun sigs k =>
       tx <- element signedTxs k ;;
       rawTx <- serialize tx ;;
       sig <- sendAndConfirmRawTransaction (connection this) rawTx (Some opts_) ;;
       done (sigs ++ [sig]))
    [].

(** [AnchorProvider.registerAndSendAll] of the cjs build;
    [skipConfirm] defaults to [false]. *)
Definition registerAndSendAll (this : AnchorProvider)
    (txWithSigners : list TxWithSigners) (register : Register)
    (skipConfirm : option bool) (opts_ : option ConfirmOptions)
  : Prog (list string) :=
  let skipConfirm := match skipConfirm with Some b => b | None => false end in
  let opts_ := default_opts this opts_ in
  prepared <- prepare_all this txWithSigners opts_ ;;
  let (txs, signedTxs) := prepared in
  for_each_index (seq 0 (length signedTxs))
    (fun _ j =>
       st <- element signedTxs j ;;
       registration register st)
    tt ;;
  for_each_index (seq 0 (length txs))
    (fun sigs k =>
       tx <- element signedTxs k ;;
       rawTx <- serialize tx ;;
       sig <- (if skipConfirm
               then sendRawTransaction (connection this) rawTx (Some opts_)
               else sendAndConfirmRawTransaction (connection this) rawTx
                      (Some opts_)) ;;
       done (sigs ++ [sig]))
    [].

(** [AnchorProvider.registerAndSendAll] of the esm build
    ([src/dist/esm/provider.js], the one method in which the builds
    differ): the signatures of [txs] are registered, and only then does
    the wallet sign. *)
Definition registerAndSendAll_esm (this : AnchorProvider)
    (txWithSigners : list TxWithSigners) (register : Register)
    (skipConfirm : option bool) (opts_ : option ConfirmOptions)
  : Prog (list string) :=
  let skipConfirm := match skipConfirm with Some b => b | None => false end in
  let opts_ := default_opts this opts_ in
  txs <- prepare_unsigned this txWithSigners opts_ ;;
  for_each_index (seq 0 (length txs))
    (fun _ j =>
       st <- element txs j ;;
       registration register st)
    tt ;;
  signedTxs <- signAllTransactions (wallet this) txs ;;
  for_each_index (seq 0 (length txs))
    (fun sigs k =>
       tx <- element signedTxs k ;;
       rawTx <- serialize tx ;;
       sig <- (if skipConfirm
               then sendRawTransaction (connection this) rawTx (Some opts_)
               else sendAndConfirmRawTransaction (connection this) rawTx
                      (Some opts_)) ;;
       done (sigs ++ [sig]))
    [].

(** *** Vocabulary for the properties of the module *)

(** The logs of a transaction response. *)
Definition logs_of (response : TransactionResponse) : option (list string) :=
  match meta response with
  | None => None
  | Some m => logMessages m
  end.

(** What a computation guarantees: whatever the world and the log so
    far, it only appends to the log, and [Q] holds of its outcome and
    of the events it appended. *)
Definition guarantees {A} (m : Prog A)
    (Q : Outcome (Alien C) A -> list (Event C) -> Prop) : Prop :=
  forall st, exists added,
    snd (snd (m st)) = snd st ++ added /\ Q (fst (m st)) added.

Definition is_send (e : Event C) : bool :=
  match e with
  | EvSendRawTransaction _ _ _ _ => true
  | _ => false
  end.

Definition is_register (e : Event C) : bool :=
  match e with
  | EvRegister _ _ => true
  | _ => false
  end.

Definition is_lookup (e : Event C) : bool :=
  match e with
  | EvGetTransaction _ _ _ _ => true
  | _ => false
  end.

Definition is_confirm (e : Event C) : bool :=
  match e with
  | EvConfirmTransaction _ _ _ _ => true
  | _ => false
  end.

Definition is_sign_all (e : Event C) : bool :=
  match e with
  | EvSignAllTransactions _ _ => true
  | _ => false
  end.

(** A registration that returned [true]. *)
Definition is_accepted (e : Event C) : bool :=
  match e with
  | EvRegister _ (Some true) => true
  | _ => false
  end.

(** Neither a registration, nor a send, nor a confirmation, nor a
    lookup. *)
Definition is_quiet (e : Event C) : bool :=
  negb (is_send e || is_register e || is_confirm e || is_lookup e).

(** The log has a confirmation of [signature] at [commitment_] that
    returned a status without error. *)
Definition confirmed (connection : Connection C) (commitment_ : option string)
    (signature : string) (log : list (Event C)) : Prop :=
  exists status,
    In (EvConfirmTransaction connection signature commitment_ (Some status)) log
    /\ status_err C status = false.

(** The computation threw. *)
Definition threw {A} (r : Outcome (Alien C) A) : Prop :=
  exists f, r = Raise f.

(** What the [catch] block throws for a [ConfirmError] with [message]
    once the lookup has returned. *)
Definition translated (message : string) (failedTx : option TransactionResponse)
  : Failure (Alien C) :=
  match failedTx with
  | None => ConfirmError message
  | Some response =>
      match logs_of response with
      | None => ConfirmError message
      | Some logs => SendTransactionError message logs
      end
  end.

(** The signatures the node returned for the sends of a log, in
    order. *)
Definition sent_signatures (log : list (Event C)) : list string :=
  flat_map (fun e => match e with
                     | EvSendRawTransaction _ _ _ (Some signature) => [signature]
                     | _ => []
                     end) log.

(** The number of sends of a log. *)
Definition sends (log : list (Event C)) : nat := length (filter is_send log).

(** The message of the [ConfirmError] of the module. *)
Definition failed_message (signature : string) (status : SignatureStatus C)
  : string :=
  "Raw transaction " ++ signature ++ " failed ("
    ++ JSON_stringify C status ++ ")".

(** The lookup of a failed transaction, if there is one, is the last
    call: it is made on the connection of the provider at commitment
    ["confirmed"], after exactly one send, and once it has returned the
    computation throws what the [catch] block makes of it; when the call
    before the lookup is a confirmation that returned a status, the
    status has an error and the message is the one the module makes of
    the signature and the status. *)
Definition logs_fetched_last {A} (connection : Connection C)
    (r : Outcome (Alien C) A) (added : list (Event C)) : Prop :=
  exists before lookups,
    added = before ++ lookups
    /\ filter is_lookup before = []
    /\ (lookups = []
        \/ exists encoded returned message,
             lookups = [EvGetTransaction connection encoded "confirmed" returned]
             /\ sends before = 1
             /\ match returned with
                | None => threw r
                | Some failedTx => r = Raise (translated message failedTx)
                end
             /\ forall l signature commitment_ status,
                  before = l ++ [EvConfirmTransaction connection signature
                                   commitment_ (Some status)] ->
                  status_err C status = true
                  /\ message = failed_message signature status).

(** Registration comes first: the log splits in two, nothing is sent in
    the first part, nothing is registered in the second, and the second
    part is empty unless the first has exactly one registration and it
    returned [true]; a registration that returned [false] makes the
    computation throw the error of the module. *)
Definition registered_first {A} (r : Outcome (Alien C) A)
    (added : list (Event C)) : Prop :=
  exists before after,
    added = before ++ after
    /\ sends before = 0
    /\ filter is_register after = []
    /\ (after = []
        \/ exists signature,
             filter is_register before = [EvRegister signature (Some true)])
    /\ forall signature,
         In (EvRegister signature (Some false)) added ->
         r = Raise (Threw (Error "Signature registration failed"))
         /\ after = [].

(** [registerAndSendAll] in parts: the preparation, the registrations,
    the wallet's signatures where they come after the registrations, the
    sends of [n] transactions, no more of them than there are
    registrations. *)
Definition in_parts (connection : Connection C) (n : nat)
    (skipConfirm : option bool) (commitment_ : option string)
    (r : Outcome (Alien C) (list string)) (added : list (Event C)) : Prop :=
  exists lp lr lm ls,
    added = lp ++ lr ++ lm ++ ls
    /\ Forall (fun e => is_quiet e = true) lp
    /\ Forall (fun e => is_register e = true) lr
    /\ Forall (fun e => is_quiet e = true) lm
    /\ ((ls = [] /\ threw r
         /\ forall s, In (EvRegister s (Some false)) lr ->
              r = Raise (Threw (Error "Signature registration failed")))
        \/ (Forall (fun e => is_accepted e = true) lr
            /\ filter is_register ls = []
            /\ filter is_lookup ls = []
            /\ (skipConfirm = Some true -> filter is_confirm ls = [])
            /\ sends ls <= n
            /\ sends ls <= length lr
            /\ forall sigs, r = Done sigs ->
                 sigs = sent_signatures ls
                 /\ length sigs = n
                 /\ (skipConfirm <> Some true ->
                     forall s, In s sigs ->
                       confirmed connection commitment_ s ls))).

End Programs.

Arguments done {C A} a.
Arguments raise {C A} f.
Arguments andThen {C A B} m k.
Arguments tryCatch {C A} m handler.
Arguments perform {C R} call event.
Arguments assign {C} write event.
Arguments read {C R} get.
Arguments pure_call {C R} r.
Arguments forEach {C A} l callback.
Arguments map_array {C A B} l callback.
Arguments for_each_index {C V} indices body v.
Arguments element {C A} array k.
Arguments getRecentBlockhash {C} connection commitment_.
Arguments signTransaction {C} wallet tx.
Arguments signAllTransactions {C} wallet txs.
Arguments partialSign {C} tx kp.
Arguments serialize {C} tx.
Arguments set_feePayer {C} tx key.
Arguments set_recentBlockhash {C} tx blockhash.
Arguments connection_send {C} connection rawTransaction sendOptions.
Arguments confirmTransaction {C} connection signature commitment_.
Arguments getTransaction {C} connection signature commitment_.
Arguments call_register {C} register signature.
Arguments sendAndConfirmRawTransaction {C} connection rawTransaction options.
Arguments sendRawTransaction {C} connection rawTransaction options.
Arguments mkAnchorProvider {C} connection wallet opts.
Arguments connection {C} a.
Arguments wallet {C} a.
Arguments opts {C} a.
Arguments default_opts {C} this opts_.
Arguments signers_or_empty {C} signers.
Arguments prepare {C} this tx signers opts_.
Arguments with_logs {C} this tx err.
Arguments sendAndConfirm {C} this tx signers opts_.
Arguments registration {C} register tx.
Arguments registerSendAndConfirm {C} this tx register signers opts_.
Arguments registerAndSend {C} this tx register signers opts_.
Arguments mkTxWithSigners {C} tx_of signers_of.
Arguments tx_of {C} t.
Arguments signers_of {C} t.
Arguments prepare_unsigned {C} this txWithSigners opts_.
Arguments prepare_all {C} this txWithSigners opts_.
Arguments sendAll {C} this txWithSigners opts_.
Arguments registerAndSendAll {C} this txWithSigners register skipConfirm opts_.
Arguments registerAndSendAll_esm {C} this txWithSigners register skipConfirm
  opts_.
Arguments guarantees {C A} m Q.
Arguments is_send {C} e.
Arguments is_register {C} e.
Arguments is_lookup {C} e.
Arguments is_confirm {C} e.
Arguments is_sign_all {C} e.
Arguments confirmed {C} connection commitment_ signature log.
Arguments threw {C A} r.
Arguments translated {C} message failedTx.
Arguments failed_message {C} signature status.
Arguments logs_fetched_last {C A} connection r added.
Arguments registered_first {C A} r added.
Arguments in_parts {C} connection n skipConfirm commitment_ r added.
Arguments is_accepted {C} e.
Arguments is_quiet {C} e.
Arguments sent_signatures {C} log.
Arguments sends {C} log.

(** A world for running the module: a node that accepts every
    transaction (the world counts them), confirms it without error
    unless its signature is ["bad"], and has logs for failed
    transactions; transactions are numbers, and a transaction serializes
    to itself. *)
Definition mock : Collaborators :=
  {| World := nat;
     Alien := string;
     Connection := unit;
     Wallet := unit;
     Transaction := nat;
     Signer := unit;
     Blockhash := string;
     RawTransaction := nat;
     SignatureBytes := nat;
     SignatureStatus := bool;
     wallet_publicKey := fun _ _ => zero_key;
     wallet_signTransaction := fun _ tx w => (Done tx, w);
     wallet_signAllTransactions := fun _ txs w => (Done txs, w);
     transaction_set_feePayer := fun _ _ w => w;
     transaction_set_recentBlockhash := fun _ _ w => w;
     transaction_partialSign := fun _ _ w => (Done tt, w);
     transaction_serialize := fun tx w => (Done tx, w);
     transaction_signature := fun tx _ => Some tx;
     connection_getRecentBlockhash := fun _ _ w => (Done "hash"%string, w);
     connection_sendRawTransaction :=
       fun _ raw _ w =>
         (Done (if Nat.eqb raw 13 then "bad" else "ok")%string, S w);
     connection_confirmTransaction :=
       fun _ signature _ w => (Done (String.eqb signature "bad"), w);
     connection_getTransaction :=
       fun _ _ _ w =>
         (Done (Some (mkTransactionResponse
                        (Some (mkTransactionMeta (Some ["log"%string]))))), w);
     status_err := fun status => status;
     JSON_stringify := fun _ => "{}"%string;
     bs58_encode := fun _ => Done "encoded"%string |}.

(** [AnchorProvider.defaultOptions]. *)
Definition defaultOptions : ConfirmOptions :=
  mkConfirmOptions None (Some "processed"%string) (Some "processed"%string).

Definition mock_provider : AnchorProvider mock :=
  mkAnchorProvider (C := mock) tt tt defaultOptions.

(** A [register] callback that refuses one signature, and [null]. *)
Definition mock_register (refused : nat) : Register mock :=
  fun signature w =>
    (Done match signature with
          | Some n => negb (Nat.eqb n refused)
          | None => false
          end, w).

(** The entries of [txWithSigners] for transactions without further
    signers. *)
Definition mock_entries (txs : list nat) : list (TxWithSigners mock) :=
  map (fun tx => mkTxWithSigners (C := mock) tx None) txs.

End Provider.

Section Pubkey.

Local Open Scope js_scope.

(** The hash function computed by [js-sha256]. *)
Variable SHA256_hash : list byte -> list byte.

(** [PublicKey.isOnCurve] of [@solana/web3.js]. *)
Variable isOnCurve : list byte -> bool.

(** [sha256.digest(message)]: the digest as an array of bytes. *)
Definition sha256_digest (message : list byte) : Js (list byte) :=
  fun tr => (Return (SHA256_hash message), tr ++ [message]).

(** [sha256(message)]: the digest as a hexadecimal string. *)
Definition sha256 (message : list byte) : Js string :=
  fun tr => (Return (hex (SHA256_hash message)), tr ++ [message]).

(** Sync version of [web3.PublicKey.createWithSeed]. *)
Definition createWithSeedSync
    (fromPublicKey : PublicKey) (seed : string) (programId : PublicKey)
  : Js PublicKey :=
  let buffer := Buffer_concat [PublicKey_toBuffer fromPublicKey;
                               Buffer_from_string seed;
                               PublicKey_toBuffer programId] in
  hash <- sha256_digest buffer ;;
  lift (PublicKey_new hash).

(** Sync version of [web3.PublicKey.createProgramAddress]. *)
Definition createProgramAddressSync
    (seeds : list Seed) (programId : PublicKey) : Js PublicKey :=
  buffer <- forEach seeds
              (fun buffer seed =>
                 if (MAX_SEED_LENGTH <? seed_length seed)%nat
                 then throw (TypeError "Max seed length exceeded")
                 else ret (Buffer_concat [buffer; toBuffer seed]))
              (Buffer_alloc 0) ;;
  let buffer := Buffer_concat [buffer;
                               PublicKey_toBuffer programId;
                               Buffer_from_string "ProgramDerivedAddress"] in
  hash <- sha256 buffer ;;
  bn <- assert_some (BN.of_hex hash) "Invalid character" ;;
  publicKeyBytes <- assert_some (BN.toArray bn 32)
                      "byte array longer than desired length" ;;
  if isOnCurve publicKeyBytes
  then throw (Error "Invalid seeds, address must fall off the curve")
  else lift (PublicKey_new publicKeyBytes).

(** The loop of [findProgramAddressSync] entered with the given
    [nonce]. The [try] block yields the address; the [catch] block
    rethrows a [TypeError] and otherwise decrements the nonce and
    continues. *)
Fixpoint findProgramAddressSync_loop
    (nonce : nat) (seeds : list Seed) (programId : PublicKey)
  : Js (PublicKey * nat) :=
  match nonce with
  | O => throw (Error "Unable to find a viable program address nonce")
  | S nonce' =>
      found <- try_catch
                 (let seedsWithNonce :=
                    seeds ++ [SeedBuffer (Buffer_from_array [Z.of_nat nonce])] in
                  address <- createProgramAddressSync seedsWithNonce programId ;;
                  ret (Some address))
                 (fun err =>
                    match err with
                    | TypeError _ => throw err
                    | Error _ => ret None
                    end) ;;
      match found with
      | Some address => ret (address, nonce)
      | None => findProgramAddressSync_loop nonce' seeds programId
      end
  end.

(** Sync version of [web3.PublicKey.findProgramAddress]. *)
Definition findProgramAddressSync
    (seeds : list Seed) (programId : PublicKey) : Js (PublicKey * nat) :=
  findProgramAddressSync_loop 255 seeds programId.

(** What [translateAddress] of [program/common] accepts. *)
Variable Address : Type.

(** [translateAddress] of [program/common]: an address-like value to
    a [PublicKey]; the conversion may throw. *)
Variable translateAddress : Address -> Completion PublicKey.

(** [PublicKey.findProgramAddress] of [@solana/web3.js], awaited. *)
Variable PublicKey_findProgramAddress :
  list Seed -> PublicKey -> Js (PublicKey * nat).

(** [associated(programId, ...args)], awaited. *)
Definition associated (programId : Address) (args : list (AssociatedArg Address))
  : Js PublicKey :=
  let seeds := [SeedBuffer (Buffer_from_array [97; 110; 99; 104; 111; 114]%Z)] in
  seeds <- forEach args
             (fun seeds arg =>
                match arg with
                | ArgBuffer b => ret (seeds ++ [SeedBuffer b])
                | ArgAddress a =>
                    k <- lift (translateAddress a) ;;
                    ret (seeds ++ [SeedBuffer (PublicKey_toBuffer k)])
                end)
             seeds ;;
  id <- lift (translateAddress programId) ;;
  found <- PublicKey_findProgramAddress seeds id ;;
  ret (fst found).

(** The candidate address of a seed list: the digest of its
    preimage. *)
Definition candidate (seeds : list Seed) (programId : PublicKey) : list byte :=
  SHA256_hash (preimage seeds programId).

(** The raw bytes of a component of [associated]: a buffer as it is,
    an address through [translateAddress]. *)
Definition component_bytes (arg : AssociatedArg Address) : Completion Buffer :=
  match arg with
  | ArgBuffer b => Return b
  | ArgAddress a =>
      match translateAddress a with
      | Return k => Return (PublicKey_toBuffer k)
      | Throw e => Throw e
      end
  end.

(** ** Facts about the environment *)

Lemma byte_of_to_N (b : byte) : byte_of_N (Byte.to_N b) = b.
Proof.
  unfold byte_of_N.
  rewrite N.mod_small.
  - now rewrite Byte.of_to_N.
  - pose proof (Byte.to_N_bounded b). lia.
Qed.

Lemma byte_of_N_mod (n : N) : byte_of_N (n mod 256) = byte_of_N n.
Proof.
  unfold byte_of_N. now rewrite N.Div0.mod_mod.
Qed.

Lemma BN_of_bytes_snoc (bs : list byte) (b : byte) :
  BN.of_bytes (bs ++ [b]) = (BN.of_bytes bs * 256 + Byte.to_N b)%N.
Proof.
  unfold BN.of_bytes. now rewrite fold_left_app.
Qed.

Lemma BN_of_bytes_bound (bs : list byte) :
  (BN.of_bytes bs < 256 ^ N.of_nat (length bs))%N.
Proof.
  induction bs as [|b bs IH] using rev_ind.
  - cbn. lia.
  - rewrite BN_of_bytes_snoc, length_app. cbn [length].
    replace (N.of_nat (length bs + 1)) with (N.succ (N.of_nat (length bs))) by lia.
    rewrite N.pow_succ_r'.
    pose proof (Byte.to_N_bounded b). lia.
Qed.

Lemma BN_le_bytes_length (len : nat) (n : N) :
  length (BN.le_bytes len n) = len.
Proof.
  revert n. induction len as [|len IH]; intros n; cbn; [reflexivity|].
  now rewrite IH.
Qed.

Lemma BN_le_bytes_step (len : nat) (x : N) (b : byte) :
  BN.le_bytes (S len) (x * 256 + Byte.to_N b) = b :: BN.le_bytes len x.
Proof.
  pose proof (Byte.to_N_bounded b) as Hb.
  cbn [BN.le_bytes]. f_equal.
  - rewrite <- byte_of_N_mod.
    rewrite N.add_comm, N.Div0.mod_add.
    rewrite N.mod_small by lia. apply byte_of_to_N.
  - f_equal. rewrite N.add_comm, N.div_add by lia.
    rewrite N.div_small by lia. reflexivity.
Qed.

(** Writing a big-endian number back in as many bytes as it was read
    from gives the bytes. *)
Lemma BN_bytes_roundtrip (bs : list byte) :
  rev (BN.le_bytes (length bs) (BN.of_bytes bs)) = bs.
Proof.
  induction bs as [|b bs IH] using rev_ind; [reflexivity|].
  rewrite BN_of_bytes_snoc, length_app. cbn [length].
  replace (length bs + 1)%nat with (S (length bs)) by lia.
  rewrite BN_le_bytes_step. cbn [rev]. now rewrite IH.
Qed.

Lemma BN_byteLength_le (n : N) (len : nat) :
  (n < 256 ^ N.of_nat len)%N -> (BN.byteLength n <= len)%nat.
Proof.
  intros Hn. unfold BN.byteLength.
  assert (Hsize : (N.size n <= 8 * N.of_nat len)%N).
  { destruct (N.eq_dec n 0) as [->|Hnz]; [cbn; lia|].
    rewrite N.size_log2 by assumption.
    apply N.le_succ_l. apply N.log2_lt_pow2; [lia|].
    replace (2 ^ (8 * N.of_nat len))%N with (256 ^ N.of_nat len)%N; [assumption|].
    change 256%N with (2 ^ 8)%N. now rewrite <- N.pow_mul_r. }
  assert (((N.size n + 7) / 8 <= N.of_nat len)%N); [|lia].
  apply N.lt_succ_r. apply N.Div0.div_lt_upper_bound. lia.
Qed.

Lemma BN_toArray_of_bytes (bs : list byte) :
  BN.toArray (BN.of_bytes bs) (length bs) = Some bs.
Proof.
  unfold BN.toArray.
  pose proof (BN_byteLength_le _ _ (BN_of_bytes_bound bs)) as Hfit.
  apply Nat.leb_le in Hfit. rewrite Hfit.
  now rewrite BN_bytes_roundtrip.
Qed.

Lemma BN_toArray_length (n : N) (len : nat) (bs : list byte) :
  BN.toArray n len = Some bs -> length bs = len.
Proof.
  unfold BN.toArray. destruct (_ <=? _)%nat; [|discriminate].
  intros [= <-]. now rewrite length_rev, BN_le_bytes_length.
Qed.

Lemma hex_digit_hex_char (n : N) :
  (n < 16)%N -> BN.hex_digit (hex_char n) = Some n.
Proof.
  intros Hn.
  assert (Hcases : In n [0; 1; 2; 3; 4; 5; 6; 7; 8; 9; 10; 11; 12; 13; 14; 15]%N).
  { cbn. lia. }
  cbn in Hcases.
  repeat (destruct Hcases as [<-|Hcases]; [reflexivity|]).
  contradiction.
Qed.

Lemma BN_parse_hex (bs : list byte) (acc : N) :
  BN.parse_hex_from acc (hex bs) =
  Some (fold_left (fun a b => (a * 256 + Byte.to_N b)%N) bs acc).
Proof.
  revert acc. induction bs as [|b bs IH]; intros acc; [reflexivity|].
  pose proof (Byte.to_N_bounded b) as Hb.
  cbn [hex BN.parse_hex_from fold_left].
  rewrite hex_digit_hex_char by (apply N.Div0.div_lt_upper_bound; lia).
  rewrite hex_digit_hex_char by (apply N.mod_lt; lia).
  rewrite IH. do 2 f_equal.
  pose proof (N.div_mod (Byte.to_N b) 16). lia.
Qed.

(** Parsing the hexadecimal form of a digest gives the digest read as
    a big-endian number. *)
Lemma BN_of_hex_hex (bs : list byte) :
  BN.of_hex (hex bs) = Some (BN.of_bytes bs).
Proof. apply BN_parse_hex. Qed.

Lemma PublicKey_eq (k1 k2 : PublicKey) : _bn k1 = _bn k2 -> k1 = k2.
Proof.
  destruct k1 as [n1 H1], k2 as [n2 H2]. cbn. intros ->.
  f_equal. apply Eqdep_dec.UIP_dec. apply bool_dec.
Qed.

Lemma PublicKey_toBuffer_length (k : PublicKey) :
  length (PublicKey_toBuffer k) = 32%nat.
Proof.
  unfold PublicKey_toBuffer. now rewrite length_rev, BN_le_bytes_length.
Qed.

Lemma PublicKey_new_bn (value : list byte) (k : PublicKey) :
  PublicKey_new value = Return k -> _bn k = BN.of_bytes value.
Proof.
  unfold PublicKey_new. destruct (bool_dec _ _); [|discriminate].
  now intros [= <-].
Qed.

(** A value of exactly 32 bytes makes a key, and the key's buffer is
    the value. *)
Lemma PublicKey_new_32 (value : list byte) :
  length value = 32%nat ->
  exists k, PublicKey_new value = Return k /\ PublicKey_toBuffer k = value.
Proof.
  intros Hlen.
  pose proof (BN_byteLength_le _ _ (BN_of_bytes_bound value)) as Hfit.
  rewrite Hlen in Hfit. apply Nat.leb_le in Hfit.
  unfold PublicKey_new.
  destruct (bool_dec _ _) as [Hfits|Hno]; [|contradiction].
  eexists; split; [reflexivity|].
  unfold PublicKey_toBuffer. cbn [_bn].
  change PUBLIC_KEY_LENGTH with 32%nat. rewrite <- Hlen.
  apply BN_bytes_roundtrip.
Qed.

Lemma PublicKey_new_toBuffer (value : list byte) (k : PublicKey) :
  length value = 32%nat ->
  PublicKey_new value = Return k -> PublicKey_toBuffer k = value.
Proof.
  intros Hlen Hnew.
  destruct (PublicKey_new_32 value Hlen) as (k' & Hk' & Hbuf).
  congruence.
Qed.

Lemma seed_length_toBuffer (seed : Seed) :
  length (toBuffer seed) = seed_length seed.
Proof.
  destruct seed; cbn; [reflexivity|reflexivity|].
  unfold Buffer_from_array. apply length_map.
Qed.

Lemma nonce_seed_from_array (nonce : nat) :
  SeedBuffer (Buffer_from_array [Z.of_nat nonce]) = nonce_seed nonce.
Proof.
  unfold nonce_seed, Buffer_from_array. cbn [map]. do 2 f_equal.
  rewrite <- (byte_of_N_mod (N.of_nat nonce)). f_equal.
  rewrite Z2N.inj_mod by lia.
  replace (Z.to_N (Z.of_nat nonce)) with (N.of_nat nonce) by lia.
  reflexivity.
Qed.

(** ** [createProgramAddressSync] *)

(** The seed loop: a [TypeError] when a seed is too long, the seeds
    appended to the buffer otherwise; nothing is hashed. *)
Lemma forEach_seeds (seeds : list Seed) (acc : Buffer) (tr : Trace) :
  forEach seeds
    (fun buffer seed =>
       if (MAX_SEED_LENGTH <? seed_length seed)%nat
       then throw (TypeError "Max seed length exceeded")
       else ret (Buffer_concat [buffer; toBuffer seed]))
    acc tr =
  if existsb too_long seeds
  then (Throw InvalidSeedLength, tr)
  else (Return (acc ++ seeds_bytes seeds), tr).
Proof.
  revert acc. induction seeds as [|seed seeds IH]; intros acc.
  - cbn. now rewrite app_nil_r.
  - assert (Hlong : too_long seed = (MAX_SEED_LENGTH <? seed_length seed)%nat).
    { unfold too_long. now rewrite seed_length_toBuffer. }
    cbn [forEach existsb]. unfold bind. rewrite Hlong.
    destruct (MAX_SEED_LENGTH <? seed_length seed)%nat; [reflexivity|].
    cbn [ret orb]. rewrite IH.
    destruct (existsb too_long seeds); [reflexivity|].
    unfold seeds_bytes, Buffer_concat. cbn [map concat].
    now rewrite app_nil_r, app_assoc.
Qed.

(** What a call does, with nothing assumed of the hash function. *)
Lemma createProgramAddressSync_run
    (seeds : list Seed) (programId : PublicKey) (tr : Trace) :
  createProgramAddressSync seeds programId tr =
  if existsb too_long seeds
  then (Throw InvalidSeedLength, tr)
  else (match BN.toArray (BN.of_bytes (candidate seeds programId)) 32 with
        | None => Throw (Error "byte array longer than desired length")
        | Some publicKeyBytes =>
            if isOnCurve publicKeyBytes
            then Throw InvalidSeeds
            else PublicKey_new publicKeyBytes
        end,
        tr ++ [preimage seeds programId]).
Proof.
  unfold createProgramAddressSync, bind at 1.
  rewrite forEach_seeds.
  destruct (existsb too_long seeds); [reflexivity|].
  unfold Buffer_alloc, Buffer_concat, Buffer_from_string.
  cbn [repeat concat app]. rewrite app_nil_r.
  fold (preimage seeds programId).
  unfold bind, sha256. rewrite BN_of_hex_hex. cbn [assert_some ret].
  fold (candidate seeds programId).
  destruct (BN.toArray _ 32) as [publicKeyBytes|]; [|reflexivity].
  cbn [assert_some ret].
  destruct (isOnCurve publicKeyBytes); reflexivity.
Qed.

(** A call only appends to the trace, and its completion does not
    depend on the trace it starts from. *)
Lemma createProgramAddressSync_frame
    (seeds : list Seed) (programId : PublicKey) (tr : Trace) :
  createProgramAddressSync seeds programId tr =
  (result (createProgramAddressSync seeds programId []),
   tr ++ hashed (createProgramAddressSync seeds programId [])).
Proof.
  rewrite !createProgramAddressSync_run.
  destruct (existsb too_long seeds); cbn; [now rewrite app_nil_r|reflexivity].
Qed.

(** The outcome depends on the seed list only through the length
    check and the concatenation of the seeds. *)
Lemma createProgramAddressSync_ext
    (seeds seeds' : list Seed) (programId : PublicKey) (tr : Trace) :
  existsb too_long seeds = existsb too_long seeds' ->
  seeds_bytes seeds = seeds_bytes seeds' ->
  createProgramAddressSync seeds programId tr =
  createProgramAddressSync seeds' programId tr.
Proof.
  intros Hlong Hbytes. rewrite !createProgramAddressSync_run.
  unfold candidate, preimage. now rewrite Hlong, Hbytes.
Qed.

Lemma existsb_too_long_false (seeds : list Seed) :
  Forall (fun seed => (length (toBuffer seed) <= 32)%nat) seeds ->
  existsb too_long seeds = false.
Proof.
  intros Hall. apply not_true_is_false. intros Hex.
  apply existsb_exists in Hex. destruct Hex as (seed & Hin & Hlong).
  rewrite Forall_forall in Hall. specialize (Hall seed Hin).
  unfold too_long, MAX_SEED_LENGTH in Hlong. apply Nat.ltb_lt in Hlong. lia.
Qed.

Lemma existsb_too_long_true (seeds : list Seed) :
  Exists (fun seed => (32 < length (toBuffer seed))%nat) seeds ->
  existsb too_long seeds = true.
Proof.
  intros Hex. apply Exists_exists in Hex. destruct Hex as (seed & Hin & Hlong).
  apply existsb_exists. exists seed. split; [assumption|].
  unfold too_long, MAX_SEED_LENGTH. now apply Nat.ltb_lt.
Qed.

Lemma existsb_too_long_Forall (seeds : list Seed) :
  existsb too_long seeds = false ->
  Forall (fun seed => (length (toBuffer seed) <= 32)%nat) seeds.
Proof.
  intros Hnone. apply Forall_forall. intros seed Hin.
  destruct (Nat.le_gt_cases (length (toBuffer seed)) 32) as [Hle|Hgt];
    [exact Hle|].
  assert (Hex : existsb too_long seeds = true).
  { apply existsb_exists. exists seed. split; [exact Hin|].
    unfold too_long, MAX_SEED_LENGTH. now apply Nat.ltb_lt. }
  congruence.
Qed.

Lemma existsb_too_long_Exists (seeds : list Seed) :
  existsb too_long seeds = true ->
  Exists (fun seed => (32 < length (toBuffer seed))%nat) seeds.
Proof.
  intros Hex. apply existsb_exists in Hex. destruct Hex as (seed & Hin & Hlong).
  apply Exists_exists. exists seed. split; [exact Hin|].
  unfold too_long, MAX_SEED_LENGTH in Hlong. now apply Nat.ltb_lt in Hlong.
Qed.

(** From here on the hash function is assumed to produce 32 bytes. *)
Hypothesis SHA256_hash_length :
  forall message, length (SHA256_hash message) = 32%nat.

(** With a 32-byte digest the bytes tested and wrapped are the digest
    itself. *)
Lemma createProgramAddressSync_valid
    (seeds : list Seed) (programId : PublicKey) (tr : Trace) :
  Forall (fun seed => (length (toBuffer seed) <= 32)%nat) seeds ->
  createProgramAddressSync seeds programId tr =
  (if isOnCurve (candidate seeds programId)
   then Throw InvalidSeeds
   else PublicKey_new (candidate seeds programId),
   tr ++ [preimage seeds programId]).
Proof.
  intros Hall. rewrite createProgramAddressSync_run.
  rewrite (existsb_too_long_false seeds Hall).
  pose proof (BN_toArray_of_bytes (candidate seeds programId)) as Harr.
  unfold candidate in Harr at 2. rewrite SHA256_hash_length in Harr.
  now rewrite Harr.
Qed.

(** An address returned on a valid seed list is the candidate, and
    the candidate is off the curve. *)
Lemma createProgramAddressSync_Return
    (seeds : list Seed) (programId : PublicKey) (tr : Trace)
    (address : PublicKey) :
  Forall (fun seed => (length (toBuffer seed) <= 32)%nat) seeds ->
  result (createProgramAddressSync seeds programId tr) = Return address ->
  PublicKey_toBuffer address = candidate seeds programId /\
  isOnCurve (candidate seeds programId) = false.
Proof.
  intros Hall.
  rewrite (createProgramAddressSync_valid seeds programId tr Hall).
  unfold result. cbn [fst].
  destruct (isOnCurve (candidate seeds programId)); [discriminate|].
  intros Hret. split; [|reflexivity].
  apply PublicKey_new_toBuffer; [apply SHA256_hash_length|exact Hret].
Qed.

(** ** [findProgramAddressSync] *)

Lemma countdown_cons (hi lo : nat) :
  (lo <= S hi)%nat -> countdown (S hi) lo = S hi :: countdown hi lo.
Proof.
  intros Hle. unfold countdown.
  replace (S (S hi) - lo)%nat with (S (S hi - lo)) by lia.
  rewrite seq_S, rev_app_distr. cbn [rev app]. f_equal. lia.
Qed.

Lemma countdown_nil (hi : nat) : countdown hi (S hi) = [].
Proof.
  unfold countdown. now rewrite Nat.sub_diag.
Qed.

Lemma countdown_length (hi lo : nat) :
  length (countdown hi lo) = (S hi - lo)%nat.
Proof.
  unfold countdown. now rewrite length_rev, length_seq.
Qed.

Lemma countdown_In (hi lo n : nat) :
  In n (countdown hi lo) -> (lo <= n <= hi)%nat.
Proof.
  unfold countdown. rewrite <- in_rev, in_seq. lia.
Qed.

Lemma seeds_with_nonce_valid (seeds : list Seed) (nonce : nat) :
  Forall (fun seed => (length (toBuffer seed) <= 32)%nat) seeds ->
  Forall (fun seed => (length (toBuffer seed) <= 32)%nat)
         (seeds ++ [nonce_seed nonce]).
Proof.
  intros Hall. apply Forall_app. split; [assumption|].
  constructor; [cbn; lia|constructor].
Qed.

(** One turn of the loop body on a valid seed list. *)
Lemma findProgramAddressSync_loop_step
    (nonce : nat) (seeds : list Seed) (programId : PublicKey) (tr : Trace) :
  Forall (fun seed => (length (toBuffer seed) <= 32)%nat) seeds ->
  let attempt := seeds ++ [nonce_seed (S nonce)] in
  findProgramAddressSync_loop (S nonce) seeds programId tr =
  if isOnCurve (candidate attempt programId)
  then findProgramAddressSync_loop nonce seeds programId
         (tr ++ [preimage attempt programId])
  else match PublicKey_new (candidate attempt programId) with
       | Return address =>
           (Return (address, S nonce), tr ++ [preimage attempt programId])
       | Throw e =>
           findProgramAddressSync_loop nonce seeds programId
             (tr ++ [preimage attempt programId])
       end.
Proof.
  intros Hall attempt. subst attempt.
  cbn [findProgramAddressSync_loop]. unfold bind at 1, try_catch, bind at 1.
  rewrite nonce_seed_from_array.
  rewrite (createProgramAddressSync_valid _ programId tr
             (seeds_with_nonce_valid seeds (S nonce) Hall)).
  destruct (isOnCurve (candidate _ programId)); [reflexivity|].
  destruct (PublicKey_new_32 _
              (SHA256_hash_length
                 (preimage (seeds ++ [nonce_seed (S nonce)]) programId)))
    as (k & Hk & _).
  fold (candidate (seeds ++ [nonce_seed (S nonce)]) programId) in Hk.
  rewrite Hk. reflexivity.
Qed.

(** The search from [nonce]: it stops at the first nonce, counting
    down, whose candidate is off the curve, having hashed one preimage
    per nonce tried; with no such nonce it has tried them all, down to
    1, and reports exhaustion. *)
Lemma findProgramAddressSync_loop_spec
    (seeds : list Seed) (programId : PublicKey) :
  Forall (fun seed => (length (toBuffer seed) <= 32)%nat) seeds ->
  forall (nonce : nat) (tr : Trace),
    let attempt n := seeds ++ [nonce_seed n] in
    (exists k address,
        (1 <= k <= nonce)%nat /\
        findProgramAddressSync_loop nonce seeds programId tr =
        (Return (address, k),
         tr ++ map (fun n => preimage (attempt n) programId) (countdown nonce k)) /\
        PublicKey_new (candidate (attempt k) programId) = Return address /\
        isOnCurve (candidate (attempt k) programId) = false /\
        (forall j, (k < j <= nonce)%nat ->
                   isOnCurve (candidate (attempt j) programId) = true))
    \/
    (findProgramAddressSync_loop nonce seeds programId tr =
     (Throw NonceSearchExhausted,
      tr ++ map (fun n => preimage (attempt n) programId) (countdown nonce 1)) /\
     (forall j, (1 <= j <= nonce)%nat ->
                isOnCurve (candidate (attempt j) programId) = true)).
Proof.
  intros Hall nonce. induction nonce as [|nonce IH]; intros tr attempt.
  - right. split.
    + cbn. now rewrite app_nil_r.
    + intros j Hj. lia.
  - rewrite (findProgramAddressSync_loop_step nonce seeds programId tr Hall).
    fold (attempt (S nonce)).
    destruct (isOnCurve (candidate (attempt (S nonce)) programId)) eqn:Hcurve.
    + specialize (IH (tr ++ [preimage (attempt (S nonce)) programId])).
      destruct IH as [(k & address & Hk & Hrun & Hnew & Hoff & Habove)|(Hrun & Hall_on)].
      * left. exists k, address. split; [lia|]. split; [|split; [|split]].
        -- rewrite Hrun, countdown_cons by lia. cbn [map].
           now rewrite <- app_assoc.
        -- exact Hnew.
        -- exact Hoff.
        -- intros j Hj. destruct (Nat.eq_dec j (S nonce)) as [->|Hne].
           ++ exact Hcurve.
           ++ apply Habove. lia.
      * right. split.
        -- rewrite Hrun, countdown_cons by lia. cbn [map].
           now rewrite <- app_assoc.
        -- intros j Hj. destruct (Nat.eq_dec j (S nonce)) as [->|Hne].
           ++ exact Hcurve.
           ++ apply Hall_on. lia.
    + destruct (PublicKey_new_32 _
                  (SHA256_hash_length (preimage (attempt (S nonce)) programId)))
        as (address & Hnew & _).
      fold (candidate (attempt (S nonce)) programId) in Hnew. rewrite Hnew.
      left. exists (S nonce), address. split; [lia|]. split; [|split; [|split]].
      * rewrite countdown_cons, countdown_nil by lia. reflexivity.
      * exact Hnew.
      * exact Hcurve.
      * intros j Hj. lia.
Qed.

(** The search only appends to the trace, and its completion does not
    depend on the trace it starts from. *)
Lemma findProgramAddressSync_loop_frame
    (nonce : nat) (seeds : list Seed) (programId : PublicKey) (tr : Trace) :
  findProgramAddressSync_loop nonce seeds programId tr =
  (result (findProgramAddressSync_loop nonce seeds programId []),
   tr ++ hashed (findProgramAddressSync_loop nonce seeds programId [])).
Proof.
  revert tr. induction nonce as [|nonce IH]; intros tr.
  - cbn. now rewrite app_nil_r.
  - cbn [findProgramAddressSync_loop]. unfold bind at 1 3 5, try_catch, bind.
    rewrite (createProgramAddressSync_frame _ programId tr).
    rewrite (createProgramAddressSync_frame _ programId []).
    destruct (result (createProgramAddressSync _ programId []))
      as [address|[message|message]]; cbn.
    + reflexivity.
    + reflexivity.
    + rewrite (IH (tr ++ _)), (IH (hashed _)). cbn.
      now rewrite app_assoc.
Qed.

Lemma findProgramAddressSync_loop_too_long
    (nonce : nat) (seeds : list Seed) (programId : PublicKey) (tr : Trace) :
  Exists (fun seed => (32 < length (toBuffer seed))%nat) seeds ->
  findProgramAddressSync_loop (S nonce) seeds programId tr =
  (Throw InvalidSeedLength, tr).
Proof.
  intros Hlong.
  cbn [findProgramAddressSync_loop]. unfold bind at 1, try_catch, bind at 1.
  rewrite createProgramAddressSync_run.
  rewrite existsb_too_long_true; [reflexivity|].
  apply Exists_app. now left.
Qed.

Lemma to_N_byte_of_N (n : N) : Byte.to_N (byte_of_N n) = (n mod 256)%N.
Proof.
  unfold byte_of_N.
  destruct (Byte.of_N (n mod 256)) as [b|] eqn:Hb.
  - now apply Byte.to_of_N.
  - apply Byte.of_N_None_iff in Hb.
    pose proof (N.mod_lt n 256). lia.
Qed.

(** Preimages of different nonce bytes differ. *)
Lemma preimage_nonce_inj
    (seeds : list Seed) (programId : PublicKey) (n m : nat) :
  (n <= 255)%nat -> (m <= 255)%nat ->
  preimage (seeds ++ [nonce_seed n]) programId =
  preimage (seeds ++ [nonce_seed m]) programId ->
  n = m.
Proof.
  intros Hn Hm. unfold preimage, seeds_bytes.
  rewrite !map_app, !concat_app. cbn [map concat toBuffer nonce_seed app].
  rewrite <- !app_assoc. intros Heq. apply app_inv_head in Heq.
  injection Heq as Hbyte.
  apply (f_equal Byte.to_N) in Hbyte. rewrite !to_N_byte_of_N in Hbyte.
  rewrite !N.mod_small in Hbyte by lia. lia.
Qed.

(** ** Properties of the specification *)

(** C1. [createProgramAddressSync] never returns an on-curve address.
    On a seed list whose seeds have at most 32 bytes each, for every
    programId: when the candidate digest lies on the curve the call
    fails with [InvalidSeeds] ("address must fall off the curve"); and
    an address the call returns is the candidate and is off the
    curve. *)
Theorem createProgramAddressSync_off_curve
    (seeds : list Seed) (programId : PublicKey) (tr : Trace) :
  Forall (fun seed => (length (toBuffer seed) <= 32)%nat) seeds ->
  (isOnCurve (candidate seeds programId) = true ->
   result (createProgramAddressSync seeds programId tr) = Throw InvalidSeeds)
  /\
  (forall address,
      result (createProgramAddressSync seeds programId tr) = Return address ->
      PublicKey_toBuffer address = candidate seeds programId /\
      isOnCurve (PublicKey_toBuffer address) = false).
Proof.
  intros Hall. split.
  - intros Hcurve.
    rewrite (createProgramAddressSync_valid seeds programId tr Hall).
    unfold result. cbn [fst]. now rewrite Hcurve.
  - intros address Hret.
    destruct (createProgramAddressSync_Return seeds programId tr address Hall Hret)
      as [Hbuf Hoff].
    split; [exact Hbuf|]. now rewrite Hbuf.
Qed.

(** C2. On a seed list whose seeds have at most 32 bytes each,
    [findProgramAddressSync] either returns an address and a nonce in
    [1, 255] such that [createProgramAddressSync] on the seeds followed
    by the nonce byte returns that address, which is off the curve; or,
    every nonce in [1, 255] giving an on-curve candidate, it fails with
    [NonceSearchExhausted]. *)
Theorem findProgramAddressSync_found_or_exhausted
    (seeds : list Seed) (programId : PublicKey) (tr : Trace) :
  Forall (fun seed => (length (toBuffer seed) <= 32)%nat) seeds ->
  (exists address nonce,
      result (findProgramAddressSync seeds programId tr) =
      Return (address, nonce) /\
      (1 <= nonce <= 255)%nat /\
      (forall tr', result (createProgramAddressSync
                             (seeds ++ [nonce_seed nonce]) programId tr') =
                   Return address) /\
      isOnCurve (PublicKey_toBuffer address) = false)
  \/
  ((forall nonce, (1 <= nonce <= 255)%nat ->
                  isOnCurve (candidate (seeds ++ [nonce_seed nonce]) programId)
                  = true) /\
   result (findProgramAddressSync seeds programId tr) =
   Throw NonceSearchExhausted).
Proof.
  intros Hall. unfold findProgramAddressSync.
  destruct (findProgramAddressSync_loop_spec seeds programId Hall 255 tr)
    as [(k & address & Hk & Hrun & Hnew & Hoff & _)|(Hrun & Hall_on)].
  - left. exists address, k. rewrite Hrun.
    split; [reflexivity|]. split; [exact Hk|]. split.
    + intros tr'.
      rewrite (createProgramAddressSync_valid _ programId tr'
                 (seeds_with_nonce_valid seeds k Hall)).
      unfold result. cbn [fst]. now rewrite Hoff.
    + rewrite (PublicKey_new_toBuffer _ address
                 (SHA256_hash_length _) Hnew).
      exact Hoff.
  - right. rewrite Hrun. split; [exact Hall_on|reflexivity].
Qed.

(** What [toBuffer] makes of a seed is the byte sequence the seed
    stands for. *)
Lemma toBuffer_seed_octets (seed : Seed) : toBuffer seed = seed_octets seed.
Proof. destruct seed; reflexivity. Qed.

Lemma seeds_bytes_octets (seeds : list Seed) :
  seeds_bytes seeds = concat (map seed_octets seeds).
Proof.
  unfold seeds_bytes. induction seeds as [|seed seeds IH]; [reflexivity|].
  cbn [map concat]. now rewrite toBuffer_seed_octets, IH.
Qed.

(** C3. On a seed list whose seeds have at most 32 bytes each, for
    every programId (32 bytes), the message [createProgramAddressSync]
    hashes is
    [seed_1 || ... || seed_n || programId || "ProgramDerivedAddress"],
    the seeds' own bytes in list order; an address it returns is
    exactly the digest of that message, and it returns one whenever
    that digest is off the curve. In particular, for no seeds and a
    programId of 32 zero bytes the address is the digest of 32 zero
    bytes followed by "ProgramDerivedAddress". *)
Theorem createProgramAddressSync_digest
    (seeds : list Seed) (programId : PublicKey) (tr : Trace) :
  Forall (fun seed => (length (seed_octets seed) <= 32)%nat) seeds ->
  let message :=
    concat (map seed_octets seeds) ++ PublicKey_toBuffer programId
      ++ list_byte_of_string "ProgramDerivedAddress" in
  length (PublicKey_toBuffer programId) = 32%nat /\
  hashed (createProgramAddressSync seeds programId tr) = tr ++ [message] /\
  (forall address,
      result (createProgramAddressSync seeds programId tr) = Return address ->
      PublicKey_toBuffer address = SHA256_hash message) /\
  (isOnCurve (SHA256_hash message) = false ->
   exists address,
     result (createProgramAddressSync seeds programId tr) = Return address) /\
  (seeds = [] -> PublicKey_toBuffer programId = repeat x00 32 ->
   forall address,
     result (createProgramAddressSync seeds programId tr) = Return address ->
     PublicKey_toBuffer address =
     SHA256_hash (repeat x00 32 ++ list_byte_of_string "ProgramDerivedAddress")).
Proof.
  intros Hoctets message.
  assert (Hall : Forall (fun seed => (length (toBuffer seed) <= 32)%nat) seeds).
  { eapply Forall_impl; [| exact Hoctets].
    intros seed Hseed. cbv beta in Hseed.
    rewrite toBuffer_seed_octets. exact Hseed. }
  assert (Hmsg : message = preimage seeds programId).
  { unfold message, preimage. rewrite seeds_bytes_octets. reflexivity. }
  assert (Hdigest : forall address,
             result (createProgramAddressSync seeds programId tr) = Return address ->
             PublicKey_toBuffer address = SHA256_hash message).
  { intros address Hret.
    rewrite Hmsg.
    apply (createProgramAddressSync_Return seeds programId tr address Hall Hret). }
  split; [apply PublicKey_toBuffer_length|].
  split; [|split; [exact Hdigest|split]].
  - rewrite (createProgramAddressSync_valid seeds programId tr Hall).
    now rewrite Hmsg.
  - intros Hoff.
    rewrite (createProgramAddressSync_valid seeds programId tr Hall).
    unfold result, candidate. cbn [fst]. rewrite <- Hmsg, Hoff.
    destruct (PublicKey_new_32 _ (SHA256_hash_length message)) as (k & Hk & _).
    exists k. exact Hk.
  - intros Hnil Hzero address Hret.
    rewrite (Hdigest address Hret). subst message.
    rewrite Hnil, Hzero. reflexivity.
Qed.

(** C4. When some seed has more than 32 bytes [createProgramAddressSync]
    fails with [InvalidSeedLength], for every programId, and nothing
    has been hashed: the trace is unchanged. The curve test plays no
    part, so the length error also wins over an on-curve candidate. *)
Theorem createProgramAddressSync_seed_too_long
    (seeds : list Seed) (programId : PublicKey) (tr : Trace) :
  Exists (fun seed => (32 < length (toBuffer seed))%nat) seeds ->
  createProgramAddressSync seeds programId tr = (Throw InvalidSeedLength, tr).
Proof.
  intros Hlong. rewrite createProgramAddressSync_run.
  now rewrite (existsb_too_long_true seeds Hlong).
Qed.

(** C5. When some caller-supplied seed has more than 32 bytes
    [findProgramAddressSync] raises the [TypeError] of the first
    derivation (nonce 255) at once: nothing is hashed, and no further
    nonce is tried. *)
Theorem findProgramAddressSync_seed_too_long
    (seeds : list Seed) (programId : PublicKey) (tr : Trace) :
  Exists (fun seed => (32 < length (toBuffer seed))%nat) seeds ->
  findProgramAddressSync seeds programId tr =
  (Throw (TypeError "Max seed length exceeded"), tr).
Proof.
  intros Hlong. unfold findProgramAddressSync.
  change 255%nat with (S 254).
  apply (findProgramAddressSync_loop_too_long 254 seeds programId tr Hlong).
Qed.

(** The seed loop on a runtime with a state makes no call on it. *)
Lemma Runtime_forEach_seeds
    (W : Type) (seeds : list Seed) (acc : Buffer) (w : W) :
  Runtime.forEach seeds
    (fun buffer seed =>
       if (MAX_SEED_LENGTH <? seed_length seed)%nat
       then Runtime.throw (TypeError "Max seed length exceeded")
       else Runtime.ret (Buffer_concat [buffer; toBuffer seed]))
    acc w =
  if existsb too_long seeds
  then (Throw InvalidSeedLength, w)
  else (Return (acc ++ seeds_bytes seeds), w).
Proof.
  revert acc. induction seeds as [|seed seeds IH]; intros acc.
  - cbn. now rewrite app_nil_r.
  - assert (Hlong : too_long seed = (MAX_SEED_LENGTH <? seed_length seed)%nat).
    { unfold too_long. now rewrite seed_length_toBuffer. }
    cbn [Runtime.forEach existsb]. unfold Runtime.bind. rewrite Hlong.
    destruct (MAX_SEED_LENGTH <? seed_length seed)%nat; [reflexivity|].
    cbn [Runtime.ret orb]. rewrite IH.
    destruct (existsb too_long seeds); [reflexivity|].
    unfold seeds_bytes, Buffer_concat. cbn [map concat].
    now rewrite app_nil_r, app_assoc.
Qed.

(** When the two library calls answer as functions of their argument,
    a derivation on the runtime completes as the derivation of the
    section does, whatever the state. *)
Lemma Runtime_createProgramAddressSync_result
    (W : Type) (hash_call : list byte -> W -> list byte * W)
    (curve_call : list byte -> W -> bool * W)
    (seeds : list Seed) (programId : PublicKey) (w : W) (tr : Trace) :
  (forall message w, fst (hash_call message w) = SHA256_hash message) ->
  (forall bytes w, fst (curve_call bytes w) = isOnCurve bytes) ->
  fst (Runtime.createProgramAddressSync hash_call curve_call seeds programId w)
  = result (createProgramAddressSync seeds programId tr).
Proof.
  intros Hhash Hcurve.
  rewrite createProgramAddressSync_run.
  unfold Runtime.createProgramAddressSync, Runtime.bind at 1.
  rewrite Runtime_forEach_seeds.
  destruct (existsb too_long seeds); [reflexivity|].
  unfold Buffer_alloc, Buffer_concat, Buffer_from_string.
  cbn [repeat concat app]. rewrite app_nil_r.
  fold (preimage seeds programId).
  unfold Runtime.bind at 1, Runtime.sha256.
  specialize (Hhash (preimage seeds programId) w).
  destruct (hash_call (preimage seeds programId) w) as [digest w'].
  cbn [fst] in Hhash. subst digest.
  fold (candidate seeds programId).
  unfold Runtime.bind at 1. rewrite BN_of_hex_hex.
  cbn [Runtime.assert_some Runtime.ret].
  unfold Runtime.bind at 1, result. cbn [fst].
  destruct (BN.toArray _ 32) as [publicKeyBytes|]; [|reflexivity].
  cbn [Runtime.assert_some Runtime.ret].
  unfold Runtime.bind, Runtime.isOnCurve.
  specialize (Hcurve publicKeyBytes w').
  destruct (curve_call publicKeyBytes w') as [onCurve w''].
  cbn [fst] in Hcurve. subst onCurve.
  destruct (isOnCurve publicKeyBytes); reflexivity.
Qed.

Lemma Runtime_findProgramAddressSync_loop_result
    (W : Type) (hash_call : list byte -> W -> list byte * W)
    (curve_call : list byte -> W -> bool * W)
    (nonce : nat) (seeds : list Seed) (programId : PublicKey) :
  (forall message w, fst (hash_call message w) = SHA256_hash message) ->
  (forall bytes w, fst (curve_call bytes w) = isOnCurve bytes) ->
  forall (w : W) (tr : Trace),
    fst (Runtime.findProgramAddressSync_loop hash_call curve_call nonce seeds
           programId w)
    = result (findProgramAddressSync_loop nonce seeds programId tr).
Proof.
  intros Hhash Hcurve. induction nonce as [|nonce IH]; intros w tr.
  - reflexivity.
  - cbn [Runtime.findProgramAddressSync_loop findProgramAddressSync_loop].
    unfold Runtime.bind at 1, Runtime.try_catch, Runtime.bind at 1.
    unfold bind at 1, try_catch, bind at 1.
    pose proof (Runtime_createProgramAddressSync_result W hash_call curve_call
                  (seeds ++ [SeedBuffer (Buffer_from_array [Z.of_nat (S nonce)])])
                  programId w tr Hhash Hcurve) as Hsim.
    destruct (Runtime.createProgramAddressSync hash_call curve_call
                (seeds ++ [SeedBuffer (Buffer_from_array [Z.of_nat (S nonce)])])
                programId w) as [c w'].
    destruct (createProgramAddressSync
                (seeds ++ [SeedBuffer (Buffer_from_array [Z.of_nat (S nonce)])])
                programId tr) as [c' tr'].
    unfold result in Hsim. cbn [fst] in Hsim. subst c'.
    destruct c as [address|[message|message]]; cbn.
    + reflexivity.
    + reflexivity.
    + apply IH.
Qed.

(** C6. Both operations are deterministic. On a runtime with a state
    of its own, on which the hash and the curve test answer as
    functions of their argument (the hash is deterministic), two calls
    of [createProgramAddressSync] on the same seeds and programId
    complete alike whatever the state each starts from, with the same
    address or the same error, and so do two calls of
    [findProgramAddressSync], with the same address and the same nonce;
    and what they complete with is what the derivation and the search
    give as functions of their inputs alone. *)
Theorem derivation_deterministic
    (W : Type) (hash_call : list byte -> W -> list byte * W)
    (curve_call : list byte -> W -> bool * W)
    (seeds : list Seed) (programId : PublicKey) (w1 w2 : W) (tr : Trace) :
  (forall message w, fst (hash_call message w) = SHA256_hash message) ->
  (forall bytes w, fst (curve_call bytes w) = isOnCurve bytes) ->
  (fst (Runtime.createProgramAddressSync hash_call curve_call seeds programId w1)
   = fst (Runtime.createProgramAddressSync hash_call curve_call seeds programId
            w2)
   /\
   fst (Runtime.findProgramAddressSync hash_call curve_call seeds programId w1)
   = fst (Runtime.findProgramAddressSync hash_call curve_call seeds programId
            w2))
  /\
  (fst (Runtime.createProgramAddressSync hash_call curve_call seeds programId w1)
   = result (createProgramAddressSync seeds programId tr)
   /\
   fst (Runtime.findProgramAddressSync hash_call curve_call seeds programId w1)
   = result (findProgramAddressSync seeds programId tr)).
Proof.
  intros Hhash Hcurve.
  pose proof (fun w => Runtime_createProgramAddressSync_result W hash_call
                         curve_call seeds programId w tr Hhash Hcurve)
    as Hcreate.
  pose proof (fun w => Runtime_findProgramAddressSync_loop_result W hash_call
                         curve_call 255 seeds programId Hhash Hcurve w tr)
    as Hfind.
  unfold Runtime.findProgramAddressSync, findProgramAddressSync.
  repeat split.
  - now rewrite (Hcreate w1), (Hcreate w2).
  - now rewrite (Hfind w1), (Hfind w2).
  - apply Hcreate.
  - apply Hfind.
Qed.

(** The argument loop of [associated] pushes the bytes of each
    component, in order. *)
Lemma forEach_args
    (args : list (AssociatedArg Address)) (components : list Buffer) :
  Forall2 (fun arg bytes => component_bytes arg = Return bytes) args components ->
  forall (acc : list Seed) (tr : Trace),
    forEach args
      (fun seeds arg =>
         match arg with
         | ArgBuffer b => ret (seeds ++ [SeedBuffer b])
         | ArgAddress a =>
             bind (lift (translateAddress a))
                  (fun k => ret (seeds ++ [SeedBuffer (PublicKey_toBuffer k)]))
         end)
      acc tr =
    (Return (acc ++ map SeedBuffer components), tr).
Proof.
  induction 1 as [|arg bytes args components Harg _ IH]; intros acc tr.
  - cbn. now rewrite app_nil_r.
  - cbn [forEach map]. unfold bind at 1.
    assert (Hstep : match arg with
                    | ArgBuffer b => ret (acc ++ [SeedBuffer b])
                    | ArgAddress a =>
                        bind (lift (translateAddress a))
                             (fun k => ret (acc ++ [SeedBuffer (PublicKey_toBuffer k)]))
                    end tr = (Return (acc ++ [SeedBuffer bytes]), tr)).
    { destruct arg as [b|a]; cbn in Harg.
      - now injection Harg as ->.
      - unfold bind, lift. destruct (translateAddress a) as [k|e]; [|discriminate].
        now injection Harg as <-. }
    rewrite Hstep, IH. now rewrite <- app_assoc.
Qed.

(** C7. [associated] builds the seed list whose first element is the
    6 bytes [97, 110, 99, 104, 111, 114] ("anchor"), followed by the
    raw bytes of each extra component (a buffer as it is, any other
    component through [translateAddress]), hands that list and the
    translated programId to [PublicKey.findProgramAddress], and
    returns the address of the pair it gets back, without the
    nonce. *)
Theorem associated_delegates
    (programId : Address) (args : list (AssociatedArg Address))
    (components : list Buffer) (id : PublicKey) (tr : Trace) :
  Forall2 (fun arg bytes => component_bytes arg = Return bytes) args components ->
  translateAddress programId = Return id ->
  associated programId args tr =
  address_only
    (PublicKey_findProgramAddress
       (SeedBuffer [x61; x6e; x63; x68; x6f; x72] :: map SeedBuffer components)
       id tr)
  /\ map Byte.to_N [x61; x6e; x63; x68; x6f; x72]
     = [97; 110; 99; 104; 111; 114]%N
  /\ list_byte_of_string "anchor" = [x61; x6e; x63; x68; x6f; x72].
Proof.
  intros Hargs Hid. split; [|split; reflexivity].
  unfold associated, bind at 1.
  rewrite (forEach_args args components Hargs).
  unfold bind at 1, lift. rewrite Hid.
  unfold bind. cbn [app Buffer_from_array map].
  change (byte_of_N (Z.to_N (97 mod 256))) with x61.
  change (byte_of_N (Z.to_N (110 mod 256))) with x6e.
  change (byte_of_N (Z.to_N (99 mod 256))) with x63.
  change (byte_of_N (Z.to_N (104 mod 256))) with x68.
  change (byte_of_N (Z.to_N (111 mod 256))) with x6f.
  change (byte_of_N (Z.to_N (114 mod 256))) with x72.
  unfold address_only.
  destruct (PublicKey_findProgramAddress _ id tr) as [[[address nonce]|e] tr'];
    reflexivity.
Qed.

(** C8. The search of [findProgramAddressSync] terminates having hashed
    at most 255 messages. On a seed list whose seeds have at most 32
    bytes each it hashes one preimage per nonce tried, for the nonces
    255, 254, ... down to some [k] in [1, 255], never the preimage of
    nonce 0; every nonce above [k] gave an on-curve candidate, and
    either [k] is the first nonce whose candidate is off the curve and
    is returned with its address at once, or [k = 1], all 255 candidates
    were on the curve and the search reports exhaustion. *)
Theorem findProgramAddressSync_bounded_search
    (seeds : list Seed) (programId : PublicKey) (tr : Trace) :
  (exists attempts,
      hashed (findProgramAddressSync seeds programId tr) = tr ++ attempts /\
      (length attempts <= 255)%nat)
  /\
  (Forall (fun seed => (length (toBuffer seed) <= 32)%nat) seeds ->
   exists k,
     (1 <= k <= 255)%nat /\
     hashed (findProgramAddressSync seeds programId tr) =
     tr ++ map (fun n => preimage (seeds ++ [nonce_seed n]) programId)
               (countdown 255 k) /\
     ~ In (preimage (seeds ++ [nonce_seed 0]) programId)
          (map (fun n => preimage (seeds ++ [nonce_seed n]) programId)
               (countdown 255 k)) /\
     (forall j, (k < j <= 255)%nat ->
                isOnCurve (candidate (seeds ++ [nonce_seed j]) programId) = true) /\
     ((isOnCurve (candidate (seeds ++ [nonce_seed k]) programId) = false /\
       exists address,
         result (findProgramAddressSync seeds programId tr) = Return (address, k))
      \/
      (k = 1%nat /\
       isOnCurve (candidate (seeds ++ [nonce_seed k]) programId) = true /\
       result (findProgramAddressSync seeds programId tr) =
       Throw NonceSearchExhausted))).
Proof.
  assert (Hzero : forall k, (1 <= k)%nat ->
            ~ In (preimage (seeds ++ [nonce_seed 0]) programId)
                 (map (fun n => preimage (seeds ++ [nonce_seed n]) programId)
                      (countdown 255 k))).
  { intros k Hk Hin. apply in_map_iff in Hin. destruct Hin as (n & Heq & Hn).
    apply countdown_In in Hn.
    apply preimage_nonce_inj in Heq; lia. }
  assert (Hdetail :
            Forall (fun seed => (length (toBuffer seed) <= 32)%nat) seeds ->
            exists k,
              (1 <= k <= 255)%nat /\
              hashed (findProgramAddressSync seeds programId tr) =
              tr ++ map (fun n => preimage (seeds ++ [nonce_seed n]) programId)
                        (countdown 255 k) /\
              ~ In (preimage (seeds ++ [nonce_seed 0]) programId)
                   (map (fun n => preimage (seeds ++ [nonce_seed n]) programId)
                        (countdown 255 k)) /\
              (forall j, (k < j <= 255)%nat ->
                         isOnCurve (candidate (seeds ++ [nonce_seed j]) programId)
                         = true) /\
              ((isOnCurve (candidate (seeds ++ [nonce_seed k]) programId) = false /\
                exists address,
                  result (findProgramAddressSync seeds programId tr) =
                  Return (address, k))
               \/
               (k = 1%nat /\
                isOnCurve (candidate (seeds ++ [nonce_seed k]) programId) = true /\
                result (findProgramAddressSync seeds programId tr) =
                Throw NonceSearchExhausted))).
  { intros Hall. unfold findProgramAddressSync.
    destruct (findProgramAddressSync_loop_spec seeds programId Hall 255 tr)
      as [(k & address & Hk & Hrun & _ & Hoff & Habove)|(Hrun & Hall_on)].
    - exists k. rewrite Hrun. split; [exact Hk|]. split; [reflexivity|].
      split; [apply Hzero; lia|]. split; [exact Habove|].
      left. split; [exact Hoff|]. now exists address.
    - exists 1%nat. rewrite Hrun. split; [lia|]. split; [reflexivity|].
      split; [apply Hzero; lia|]. split; [intros j Hj; apply Hall_on; lia|].
      right. split; [reflexivity|]. split; [apply Hall_on; lia|reflexivity]. }
  split; [|exact Hdetail].
  destruct (existsb too_long seeds) eqn:Hlong.
  - exists []. split; [|cbn; lia].
    apply existsb_too_long_Exists in Hlong.
    unfold findProgramAddressSync. change 255%nat with (S 254).
    rewrite (findProgramAddressSync_loop_too_long 254 seeds programId tr Hlong).
    cbn. now rewrite app_nil_r.
  - apply existsb_too_long_Forall in Hlong.
    destruct (Hdetail Hlong) as (k & Hk & Hhashed & _).
    eexists. split; [exact Hhashed|].
    rewrite length_map, countdown_length. lia.
Qed.

(** C9. [createWithSeedSync] hashes
    [fromPublicKey (32 bytes) || seed || programId (32 bytes)], with
    no domain constant after it, and returns the address whose bytes
    are the digest. It never fails: the seed may have any length, and
    the address is returned whether or not it is on the curve. *)
Theorem createWithSeedSync_digest
    (fromPublicKey : PublicKey) (seed : string) (programId : PublicKey)
    (tr : Trace) :
  exists address,
    createWithSeedSync fromPublicKey seed programId tr =
    (Return address,
     tr ++ [PublicKey_toBuffer fromPublicKey ++ list_byte_of_string seed
              ++ PublicKey_toBuffer programId]) /\
    PublicKey_toBuffer address =
    SHA256_hash (PublicKey_toBuffer fromPublicKey ++ list_byte_of_string seed
                   ++ PublicKey_toBuffer programId) /\
    isOnCurve (PublicKey_toBuffer address) =
    isOnCurve (SHA256_hash (PublicKey_toBuffer fromPublicKey
                              ++ list_byte_of_string seed
                              ++ PublicKey_toBuffer programId)).
Proof.
  unfold createWithSeedSync, bind, sha256_digest, lift.
  unfold Buffer_concat, Buffer_from_string. cbn [concat].
  rewrite app_nil_r.
  destruct (PublicKey_new_32 _ (SHA256_hash_length
              (PublicKey_toBuffer fromPublicKey ++ list_byte_of_string seed
                 ++ PublicKey_toBuffer programId)))
    as (address & Hnew & Hbuf).
  exists address. rewrite Hnew, Hbuf. repeat split.
Qed.

Lemma existsb_too_long_app (l1 l2 : list Seed) :
  existsb too_long (l1 ++ l2) = existsb too_long l1 || existsb too_long l2.
Proof. apply existsb_app. Qed.

Lemma seeds_bytes_app (l1 l2 : list Seed) :
  seeds_bytes (l1 ++ l2) = seeds_bytes l1 ++ seeds_bytes l2.
Proof.
  unfold seeds_bytes. now rewrite map_app, concat_app.
Qed.

(** C10. Seed boundaries are not part of the preimage. For every
    programId, splitting a seed [s] of at most 32 bytes into two seeds
    [s1] and [s2] whose bytes concatenate to those of [s], anywhere in
    a seed list, leaves the outcome of [createProgramAddressSync]
    unchanged (the same address or the same error, and the same
    message hashed); in particular an empty seed appended to a seed
    list changes nothing. *)
Theorem createProgramAddressSync_seed_split
    (programId : PublicKey) (tr : Trace) :
  (forall (before after : list Seed) (s s1 s2 : Seed),
      toBuffer s = toBuffer s1 ++ toBuffer s2 ->
      (length (toBuffer s) <= 32)%nat ->
      createProgramAddressSync (before ++ s :: after) programId tr =
      createProgramAddressSync (before ++ s1 :: s2 :: after) programId tr)
  /\
  (forall (seeds : list Seed) (empty : Seed),
      toBuffer empty = [] ->
      createProgramAddressSync (seeds ++ [empty]) programId tr =
      createProgramAddressSync seeds programId tr).
Proof.
  split.
  - intros before after s s1 s2 Hsplit Hlen.
    assert (Hlens : (length (toBuffer s1) + length (toBuffer s2) <= 32)%nat).
    { rewrite <- length_app, <- Hsplit. exact Hlen. }
    assert (Hshort : forall x, (length (toBuffer x) <= 32)%nat -> too_long x = false).
    { intros x Hx. unfold too_long, MAX_SEED_LENGTH. apply Nat.ltb_ge. exact Hx. }
    apply createProgramAddressSync_ext.
    + rewrite !existsb_too_long_app. cbn [existsb].
      rewrite (Hshort s), (Hshort s1), (Hshort s2) by lia. reflexivity.
    + rewrite !seeds_bytes_app. f_equal.
      unfold seeds_bytes. cbn [map concat]. rewrite Hsplit.
      now rewrite <- app_assoc.
  - intros seeds empty Hempty.
    apply createProgramAddressSync_ext.
    + rewrite existsb_too_long_app. cbn [existsb].
      unfold too_long at 2. rewrite Hempty. cbn. now rewrite !orb_false_r.
    + rewrite seeds_bytes_app. unfold seeds_bytes at 2. cbn [map concat].
      rewrite Hempty. cbn. now rewrite app_nil_r.
Qed.

(** ** Further properties of the module *)

Lemma PublicKey_new_cases (value : list byte) :
  (exists k, PublicKey_new value = Return k) \/
  PublicKey_new value = Throw (Error "Invalid public key input").
Proof.
  unfold PublicKey_new. destruct (bool_dec _ _); [left; eauto|now right].
Qed.

(** One turn of the loop on seeds that pass the length check, with
    nothing assumed of the hash function or of the curve test: a
    failing derivation is never reported, the search goes on. *)
Lemma findProgramAddressSync_loop_turn
    (nonce : nat) (seeds : list Seed) (programId : PublicKey) (tr : Trace) :
  existsb too_long seeds = false ->
  findProgramAddressSync_loop (S nonce) seeds programId tr =
  let attempt := seeds ++ [nonce_seed (S nonce)] in
  let tr' := tr ++ [preimage attempt programId] in
  match BN.toArray (BN.of_bytes (candidate attempt programId)) 32 with
  | None => findProgramAddressSync_loop nonce seeds programId tr'
  | Some publicKeyBytes =>
      if isOnCurve publicKeyBytes
      then findProgramAddressSync_loop nonce seeds programId tr'
      else match PublicKey_new publicKeyBytes with
           | Return address => (Return (address, S nonce), tr')
           | Throw _ => findProgramAddressSync_loop nonce seeds programId tr'
           end
  end.
Proof.
  intros Hshort.
  cbn [findProgramAddressSync_loop]. unfold bind at 1, try_catch, bind at 1.
  rewrite nonce_seed_from_array, createProgramAddressSync_run.
  rewrite existsb_app, Hshort. cbn [existsb orb].
  replace (too_long (nonce_seed (S nonce))) with false by reflexivity.
  cbn [orb]. cbv zeta.
  destruct (BN.toArray _ 32) as [publicKeyBytes|]; [|reflexivity].
  destruct (isOnCurve publicKeyBytes); [reflexivity|].
  destruct (PublicKey_new_cases publicKeyBytes) as [(k & ->)| ->]; reflexivity.
Qed.

Lemma findProgramAddressSync_loop_outcome
    (seeds : list Seed) (programId : PublicKey) :
  existsb too_long seeds = false ->
  forall (nonce : nat) (tr : Trace),
    (exists address k,
        (1 <= k <= nonce)%nat /\
        result (findProgramAddressSync_loop nonce seeds programId tr) =
        Return (address, k))
    \/
    result (findProgramAddressSync_loop nonce seeds programId tr) =
    Throw NonceSearchExhausted.
Proof.
  intros Hshort nonce. induction nonce as [|nonce IH]; intros tr.
  - right. reflexivity.
  - assert (Hcont : forall tr',
              (exists address k,
                  (1 <= k <= S nonce)%nat /\
                  result (findProgramAddressSync_loop nonce seeds programId tr') =
                  Return (address, k))
              \/
              result (findProgramAddressSync_loop nonce seeds programId tr') =
              Throw NonceSearchExhausted).
    { intros tr'. destruct (IH tr') as [(address & k & Hk & Hrun)|Hrun].
      - left. exists address, k. split; [lia|exact Hrun].
      - now right. }
    rewrite (findProgramAddressSync_loop_turn nonce seeds programId tr Hshort).
    cbv zeta.
    destruct (BN.toArray _ 32) as [publicKeyBytes|]; [|apply Hcont].
    destruct (isOnCurve publicKeyBytes); [apply Hcont|].
    destruct (PublicKey_new publicKeyBytes) as [k|e]; [|apply Hcont].
    left. exists k, (S nonce). split; [lia|reflexivity].
Qed.

(** The search rethrows the length error exactly when a seed is too
    long. *)
Lemma findProgramAddressSync_too_long_iff
    (seeds : list Seed) (programId : PublicKey) (tr : Trace) :
  result (findProgramAddressSync seeds programId tr) = Throw InvalidSeedLength
  <-> existsb too_long seeds = true.
Proof.
  unfold findProgramAddressSync. split.
  - intros Hthrow. destruct (existsb too_long seeds) eqn:Hlong; [reflexivity|].
    destruct (findProgramAddressSync_loop_outcome seeds programId Hlong 255 tr)
      as [(address & k & _ & Hrun)|Hrun]; rewrite Hrun in Hthrow; discriminate.
  - intros Hlong. apply existsb_too_long_Exists in Hlong.
    change 255%nat with (S 254).
    now rewrite (findProgramAddressSync_loop_too_long 254 seeds programId tr Hlong).
Qed.

(** X1. The outcome of [createProgramAddressSync] is one of three, each
    under an exact condition: [InvalidSeedLength] when some seed has
    more than 32 bytes; otherwise [InvalidSeeds] when the candidate is
    on the curve, and an address when it is not. *)
Theorem createProgramAddressSync_outcome
    (seeds : list Seed) (programId : PublicKey) (tr : Trace) :
  (result (createProgramAddressSync seeds programId tr) = Throw InvalidSeedLength
   <-> Exists (fun seed => (32 < length (toBuffer seed))%nat) seeds)
  /\
  (result (createProgramAddressSync seeds programId tr) = Throw InvalidSeeds
   <-> Forall (fun seed => (length (toBuffer seed) <= 32)%nat) seeds /\
       isOnCurve (candidate seeds programId) = true)
  /\
  ((exists address,
       result (createProgramAddressSync seeds programId tr) = Return address)
   <-> Forall (fun seed => (length (toBuffer seed) <= 32)%nat) seeds /\
       isOnCurve (candidate seeds programId) = false).
Proof.
  destruct (existsb too_long seeds) eqn:Hlong.
  - pose proof (existsb_too_long_Exists seeds Hlong) as Hex.
    assert (Hnot : ~ Forall (fun seed => (length (toBuffer seed) <= 32)%nat) seeds).
    { intros Hall. apply existsb_too_long_false in Hall. congruence. }
    rewrite createProgramAddressSync_run, Hlong. unfold result. cbn [fst].
    split; [|split].
    + split; [intros _; exact Hex|reflexivity].
    + split; [discriminate|intros [Hall _]; destruct (Hnot Hall)].
    + split; [intros (address & Hret); discriminate|].
      intros [Hall _]. destruct (Hnot Hall).
  - pose proof (existsb_too_long_Forall seeds Hlong) as Hall.
    assert (Hnot : ~ Exists (fun seed => (32 < length (toBuffer seed))%nat) seeds).
    { intros Hex. apply existsb_too_long_true in Hex. congruence. }
    rewrite (createProgramAddressSync_valid seeds programId tr Hall).
    unfold result. cbn [fst].
    destruct (isOnCurve (candidate seeds programId)).
    + split; [|split].
      * split; [discriminate|intros Hex; destruct (Hnot Hex)].
      * split; [intros _; split; [exact Hall|reflexivity]|reflexivity].
      * split; [intros (address & Hret); discriminate|].
        intros [_ Hoff]. discriminate.
    + destruct (PublicKey_new_32 _ (SHA256_hash_length (preimage seeds programId)))
        as (k & Hk & _).
      fold (candidate seeds programId) in Hk. rewrite Hk.
      split; [|split].
      * split; [discriminate|intros Hex; destruct (Hnot Hex)].
      * split; [discriminate|intros [_ Hon]; discriminate].
      * split; [intros _; split; [exact Hall|reflexivity]|].
        intros _. now exists k.
Qed.

(** X2. With nothing assumed of the hash function or of the curve test,
    [findProgramAddressSync] fails in two ways only: with
    [InvalidSeedLength], exactly when some seed has more than 32 bytes,
    or with [NonceSearchExhausted]. Whatever else a derivation throws
    is taken for an on-curve candidate and the search goes on. *)
Theorem findProgramAddressSync_errors
    (seeds : list Seed) (programId : PublicKey) (tr : Trace) :
  (result (findProgramAddressSync seeds programId tr) = Throw InvalidSeedLength
   <-> Exists (fun seed => (32 < length (toBuffer seed))%nat) seeds)
  /\
  (forall e,
      result (findProgramAddressSync seeds programId tr) = Throw e ->
      e = InvalidSeedLength \/ e = NonceSearchExhausted).
Proof.
  split.
  - rewrite findProgramAddressSync_too_long_iff. split.
    + apply existsb_too_long_Exists.
    + apply existsb_too_long_true.
  - intros e Hthrow. destruct (existsb too_long seeds) eqn:Hlong.
    + apply (findProgramAddressSync_too_long_iff seeds programId tr) in Hlong.
      left. congruence.
    + unfold findProgramAddressSync in Hthrow.
      destruct (findProgramAddressSync_loop_outcome seeds programId Hlong 255 tr)
        as [(address & k & _ & Hrun)|Hrun]; rewrite Hrun in Hthrow.
      * discriminate.
      * right. congruence.
Qed.

Lemma findProgramAddressSync_loop_ext
    (seeds seeds' : list Seed) (programId : PublicKey) :
  existsb too_long seeds = existsb too_long seeds' ->
  seeds_bytes seeds = seeds_bytes seeds' ->
  forall (nonce : nat) (tr : Trace),
    findProgramAddressSync_loop nonce seeds programId tr =
    findProgramAddressSync_loop nonce seeds' programId tr.
Proof.
  intros Hlong Hbytes nonce.
  induction nonce as [|nonce IH]; intros tr; [reflexivity|].
  cbn [findProgramAddressSync_loop]. unfold bind at 1 3, try_catch, bind.
  rewrite (createProgramAddressSync_ext
             (seeds ++ [SeedBuffer (Buffer_from_array [Z.of_nat (S nonce)])])
             (seeds' ++ [SeedBuffer (Buffer_from_array [Z.of_nat (S nonce)])])
             programId tr).
  - destruct (createProgramAddressSync _ programId tr) as [[address|[m|m]] tr'];
      cbn [ret throw]; [reflexivity|reflexivity|apply IH].
  - rewrite !existsb_app. now rewrite Hlong.
  - rewrite !seeds_bytes_app. now rewrite Hbytes.
Qed.

(** X3. Only the concatenated bytes of the seeds matter: two seed lists
    of seeds of at most 32 bytes each with the same concatenation,
    however the bytes are grouped into seeds and whatever the kinds of
    the seeds, give the same outcome of [createProgramAddressSync] and
    the same outcome of [findProgramAddressSync] (the same address and
    nonce, or the same error) and hash the same messages. *)
Theorem seed_lists_with_equal_bytes
    (seeds seeds' : list Seed) (programId : PublicKey) (tr : Trace) :
  Forall (fun seed => (length (toBuffer seed) <= 32)%nat) seeds ->
  Forall (fun seed => (length (toBuffer seed) <= 32)%nat) seeds' ->
  concat (map toBuffer seeds) = concat (map toBuffer seeds') ->
  createProgramAddressSync seeds programId tr =
  createProgramAddressSync seeds' programId tr
  /\
  findProgramAddressSync seeds programId tr =
  findProgramAddressSync seeds' programId tr.
Proof.
  intros Hall Hall' Hbytes.
  assert (Hlong : existsb too_long seeds = existsb too_long seeds').
  { now rewrite (existsb_too_long_false seeds Hall),
      (existsb_too_long_false seeds' Hall'). }
  split.
  - now apply createProgramAddressSync_ext.
  - unfold findProgramAddressSync.
    now apply findProgramAddressSync_loop_ext.
Qed.

(** X4. A search never hashes the same message twice: on seeds of at
    most 32 bytes each the messages [findProgramAddressSync] adds to the
    trace are pairwise distinct, the nonce byte telling them apart. *)
Theorem findProgramAddressSync_attempts_distinct
    (seeds : list Seed) (programId : PublicKey) (tr : Trace) :
  Forall (fun seed => (length (toBuffer seed) <= 32)%nat) seeds ->
  exists attempts,
    hashed (findProgramAddressSync seeds programId tr) = tr ++ attempts /\
    NoDup attempts.
Proof.
  intros Hall. unfold findProgramAddressSync.
  assert (Hdistinct : forall k,
            NoDup (map (fun n => preimage (seeds ++ [nonce_seed n]) programId)
                       (countdown 255 k))).
  { intros k. apply NoDup_map_NoDup_ForallPairs.
    - intros n m Hn Hm Heq.
      apply countdown_In in Hn. apply countdown_In in Hm.
      apply (preimage_nonce_inj seeds programId n m); [lia|lia|exact Heq].
    - unfold countdown. apply NoDup_rev, seq_NoDup. }
  destruct (findProgramAddressSync_loop_spec seeds programId Hall 255 tr)
    as [(k & address & _ & Hrun & _)|(Hrun & _)];
    rewrite Hrun; eexists; (split; [reflexivity|apply Hdistinct]).
Qed.

Lemma app_inv_length_tail {A : Type} (l1 l1' l2 l2' : list A) :
  l1 ++ l2 = l1' ++ l2' -> length l2 = length l2' -> l1 = l1' /\ l2 = l2'.
Proof.
  intros Heq Hlen.
  assert (Hlen1 : length l1 = length l1').
  { apply (f_equal (@length A)) in Heq. rewrite !length_app in Heq. lia. }
  revert l1' Heq Hlen1. induction l1 as [|x l1 IH]; intros [|y l1'] Heq Hlen1;
    cbn in Hlen1; try discriminate.
  - now split.
  - cbn in Heq. injection Heq as -> Heq.
    destruct (IH l1' Heq) as [-> ->]; [lia|now split].
Qed.

Lemma app_inv_length_head {A : Type} (l1 l1' l2 l2' : list A) :
  l1 ++ l2 = l1' ++ l2' -> length l1 = length l1' -> l1 = l1' /\ l2 = l2'.
Proof.
  intros Heq Hlen. apply app_inv_length_tail; [exact Heq|].
  apply (f_equal (@length A)) in Heq. rewrite !length_app in Heq. lia.
Qed.

Lemma BN_byteLength_bound (n : N) (len : nat) :
  (BN.byteLength n <= len)%nat -> (n < 256 ^ N.of_nat len)%N.
Proof.
  unfold BN.byteLength. intros Hfit.
  assert (Hsize : (N.size n <= 8 * N.of_nat len)%N).
  { assert (Hdiv : ((N.size n + 7) / 8 <= N.of_nat len)%N) by lia.
    pose proof (N.Div0.mul_div_le (N.size n + 7) 8).
    pose proof (N.mod_lt (N.size n + 7) 8 ltac:(lia)).
    pose proof (N.div_mod (N.size n + 7) 8 ltac:(lia)). lia. }
  apply N.lt_le_trans with (2 ^ N.size n)%N; [apply N.size_gt|].
  change 256%N with (2 ^ 8)%N. rewrite <- N.pow_mul_r.
  apply N.pow_le_mono_r; lia.
Qed.

Lemma BN_of_bytes_le_bytes (len : nat) (n : N) :
  BN.of_bytes (rev (BN.le_bytes len n)) = (n mod 256 ^ N.of_nat len)%N.
Proof.
  revert n. induction len as [|len IH]; intros n.
  - cbn. now rewrite N.mod_1_r.
  - cbn [BN.le_bytes rev]. rewrite BN_of_bytes_snoc, IH, to_N_byte_of_N.
    replace (N.of_nat (S len)) with (N.succ (N.of_nat len)) by lia.
    rewrite N.pow_succ_r', N.Div0.mod_mul_r. lia.
Qed.

(** A key is determined by its 32 bytes. *)
Lemma PublicKey_toBuffer_inj (k1 k2 : PublicKey) :
  PublicKey_toBuffer k1 = PublicKey_toBuffer k2 -> k1 = k2.
Proof.
  intros Heq. apply PublicKey_eq.
  apply (f_equal BN.of_bytes) in Heq. unfold PublicKey_toBuffer in Heq.
  rewrite !BN_of_bytes_le_bytes in Heq.
  pose proof (_bn_fits k1) as H1. pose proof (_bn_fits k2) as H2.
  apply Nat.leb_le, BN_byteLength_bound in H1.
  apply Nat.leb_le, BN_byteLength_bound in H2.
  now rewrite !N.mod_small in Heq.
Qed.

(** X5. The message [createWithSeedSync] hashes determines the base
    key, the programId and the UTF-8 bytes of the seed: two calls hash
    the same message exactly when they were given the same base key,
    the same programId and seeds with the same UTF-8 encoding. It does
    not determine the seed string: the string of the lone surrogate
    D800 and the string of U+FFFD are different seeds that hash the same
    message. *)
Theorem createWithSeedSync_message_injective
    (fromPublicKey fromPublicKey' : PublicKey) (seed seed' : JsString)
    (programId programId' : PublicKey) (tr : Trace) :
  (hashed (createWithSeedSync fromPublicKey (utf8_string seed) programId tr) =
   hashed (createWithSeedSync fromPublicKey' (utf8_string seed') programId' tr)
   <->
   fromPublicKey = fromPublicKey' /\ utf8 seed = utf8 seed'
   /\ programId = programId')
  /\
  ([55296%N] <> [65533%N]
   /\ hashed (createWithSeedSync fromPublicKey (utf8_string [55296%N])
                programId tr) =
      hashed (createWithSeedSync fromPublicKey (utf8_string [65533%N])
                programId tr)).
Proof.
  split; [| split; [discriminate | reflexivity]].
  split.
  - unfold createWithSeedSync, bind, sha256_digest, lift, hashed. cbn [snd].
    unfold Buffer_concat, Buffer_from_string, utf8_string. cbn [concat].
    rewrite !list_byte_of_string_of_list_byte.
    rewrite !app_nil_r. intros Heq. apply app_inv_head in Heq.
    match type of Heq with
    | [?m] = [?m'] => assert (Hmsg : m = m') by congruence
    end.
    clear Heq. rename Hmsg into Heq.
    apply app_inv_length_head in Heq;
      [|now rewrite !PublicKey_toBuffer_length].
    destruct Heq as [Hfrom Heq].
    apply app_inv_length_tail in Heq;
      [|now rewrite !PublicKey_toBuffer_length].
    destruct Heq as [Hseed Hid].
    split; [now apply PublicKey_toBuffer_inj|]. split.
    + exact Hseed.
    + now apply PublicKey_toBuffer_inj.
  - intros (-> & Hseed & ->). unfold utf8_string. rewrite Hseed. reflexivity.
Qed.

(** X6. [createWithSeedSync] does not keep its addresses apart from
    program-derived ones: whenever the message it hashes is the
    preimage of a seed list (which requires an owner whose bytes end
    with "ProgramDerivedAddress"), it returns the candidate of that
    seed list, the very address [createProgramAddressSync] returns when
    the candidate is off the curve. *)
Theorem createWithSeedSync_program_address
    (fromPublicKey : PublicKey) (seed : string) (owner : PublicKey)
    (seeds : list Seed) (programId : PublicKey) (tr : Trace) :
  Forall (fun seed => (length (toBuffer seed) <= 32)%nat) seeds ->
  PublicKey_toBuffer fromPublicKey ++ list_byte_of_string seed
    ++ PublicKey_toBuffer owner = preimage seeds programId ->
  (exists address,
      result (createWithSeedSync fromPublicKey seed owner tr) = Return address /\
      PublicKey_toBuffer address = candidate seeds programId /\
      (isOnCurve (candidate seeds programId) = false ->
       result (createProgramAddressSync seeds programId tr) = Return address))
  /\
  (exists prefix,
      PublicKey_toBuffer owner =
      prefix ++ list_byte_of_string "ProgramDerivedAddress").
Proof.
  intros Hall Hmsg. split.
  - unfold createWithSeedSync, bind, sha256_digest, lift, result. cbn [fst].
    unfold Buffer_concat, Buffer_from_string. cbn [concat].
    rewrite app_nil_r, Hmsg. fold (candidate seeds programId).
    destruct (PublicKey_new_32 _ (SHA256_hash_length (preimage seeds programId)))
      as (address & Hnew & Hbuf).
    fold (candidate seeds programId) in Hnew, Hbuf.
    exists address. split; [exact Hnew|]. split; [exact Hbuf|].
    intros Hoff.
    rewrite (createProgramAddressSync_valid seeds programId tr Hall).
    cbn [fst]. now rewrite Hoff.
  - exists (firstn 11 (PublicKey_toBuffer owner)).
    pose proof (PublicKey_toBuffer_length owner) as Hlen.
    rewrite <- (firstn_skipn 11 (PublicKey_toBuffer owner)) in Hmsg.
    unfold preimage in Hmsg. rewrite !app_assoc in Hmsg.
    apply app_inv_length_tail in Hmsg.
    + destruct Hmsg as [_ Htail].
      rewrite <- Htail. now rewrite firstn_skipn.
    + rewrite length_skipn, Hlen. reflexivity.
Qed.

Lemma forEach_app {A V : Type} (l1 l2 : list A) (callback : V -> A -> Js V)
    (v : V) (tr : Trace) :
  forEach (l1 ++ l2) callback v tr =
  bind (forEach l1 callback v) (forEach l2 callback) tr.
Proof.
  revert v tr. induction l1 as [|x l1 IH]; intros v tr; [reflexivity|].
  cbn [app forEach]. unfold bind.
  destruct (callback v x tr) as [[v'|e] tr']; [|reflexivity].
  rewrite IH. reflexivity.
Qed.

(** What [associated] does once every translation has succeeded. *)
Lemma associated_run
    (programId : Address) (args : list (AssociatedArg Address))
    (components : list Buffer) (id : PublicKey) (tr : Trace) :
  Forall2 (fun arg bytes => component_bytes arg = Return bytes) args components ->
  translateAddress programId = Return id ->
  associated programId args tr =
  address_only
    (PublicKey_findProgramAddress
       (SeedBuffer [x61; x6e; x63; x68; x6f; x72] :: map SeedBuffer components)
       id tr).
Proof.
  intros Hargs Hid.
  unfold associated, bind at 1.
  rewrite (forEach_args args components Hargs).
  unfold bind at 1, lift. rewrite Hid.
  unfold bind, address_only.
  destruct (PublicKey_findProgramAddress _ id tr) as [[[address nonce]|e] tr'];
    reflexivity.
Qed.

(** X7. Translation errors of [associated] propagate unchanged and
    before any search: when [translateAddress] throws on a component,
    the components before it having translated, or throws on the
    programId, all components having translated, [associated] throws
    that error, whatever [PublicKey.findProgramAddress] would do, and
    the trace is unchanged. Components are translated before the
    programId. *)
Theorem associated_translation_error
    (programId : Address) (args : list (AssociatedArg Address)) (tr : Trace) :
  (forall before a after components e,
      args = before ++ ArgAddress a :: after ->
      Forall2 (fun arg bytes => component_bytes arg = Return bytes)
              before components ->
      translateAddress a = Throw e ->
      associated programId args tr = (Throw e, tr))
  /\
  (forall components e,
      Forall2 (fun arg bytes => component_bytes arg = Return bytes)
              args components ->
      translateAddress programId = Throw e ->
      associated programId args tr = (Throw e, tr)).
Proof.
  split.
  - intros before a after components e -> Hbefore Hthrow.
    unfold associated, bind at 1.
    rewrite forEach_app. unfold bind at 1.
    rewrite (forEach_args before components Hbefore).
    cbn [forEach]. unfold bind at 1, bind at 1, lift.
    rewrite Hthrow. reflexivity.
  - intros components e Hargs Hthrow.
    unfold associated, bind at 1.
    rewrite (forEach_args args components Hargs).
    unfold bind at 1, lift. rewrite Hthrow. reflexivity.
Qed.

Lemma components_too_long
    (args : list (AssociatedArg Address)) (components : list Buffer) :
  Forall2 (fun arg bytes => component_bytes arg = Return bytes) args components ->
  (existsb too_long (map SeedBuffer components) = true <->
   Exists (fun arg => match arg with
                      | ArgBuffer b => (32 < length b)%nat
                      | ArgAddress _ => False
                      end) args).
Proof.
  induction 1 as [|arg bytes args components Harg _ IH].
  - cbn. split; [discriminate|]. intros Hex. inversion Hex.
  - cbn [map existsb]. rewrite orb_true_iff, IH, Exists_cons.
    assert (Hhead : too_long (SeedBuffer bytes) = true <->
                    match arg with
                    | ArgBuffer b => (32 < length b)%nat
                    | ArgAddress _ => False
                    end).
    { unfold too_long, MAX_SEED_LENGTH. cbn [toBuffer]. rewrite Nat.ltb_lt.
      destruct arg as [b|a]; cbn [component_bytes] in Harg.
      - injection Harg as ->. reflexivity.
      - destruct (translateAddress a) as [k|e]; [|discriminate].
        assert (Hbytes : bytes = PublicKey_toBuffer k) by congruence.
        rewrite Hbytes, PublicKey_toBuffer_length. lia. }
    now rewrite Hhead.
Qed.

(** X8. [associated] over the synchronous search. When
    [PublicKey.findProgramAddress] behaves as [findProgramAddressSync],
    its sync version, and every translation succeeds, [associated]
    fails with [InvalidSeedLength] exactly when some buffer component
    has more than 32 bytes (a translated address always gives 32 bytes,
    and "anchor" 6), and its only other failure is
    [NonceSearchExhausted]. *)
Theorem associated_sync_errors
    (programId : Address) (args : list (AssociatedArg Address))
    (components : list Buffer) (id : PublicKey) (tr : Trace) :
  (forall seeds key t,
      PublicKey_findProgramAddress seeds key t =
      findProgramAddressSync seeds key t) ->
  Forall2 (fun arg bytes => component_bytes arg = Return bytes) args components ->
  translateAddress programId = Return id ->
  (result (associated programId args tr) = Throw InvalidSeedLength
   <-> Exists (fun arg => match arg with
                          | ArgBuffer b => (32 < length b)%nat
                          | ArgAddress _ => False
                          end) args)
  /\
  (forall e,
      result (associated programId args tr) = Throw e ->
      e = InvalidSeedLength \/ e = NonceSearchExhausted).
Proof.
  intros Hsync Hargs Hid.
  rewrite (associated_run programId args components id tr Hargs Hid), Hsync.
  set (seeds := SeedBuffer [x61; x6e; x63; x68; x6f; x72]
                  :: map SeedBuffer components).
  assert (Hthrow : forall e,
             result (address_only (findProgramAddressSync seeds id tr)) = Throw e
             <-> result (findProgramAddressSync seeds id tr) = Throw e).
  { intros e. unfold address_only, result.
    destruct (findProgramAddressSync seeds id tr) as [[[address nonce]|e'] tr'];
      cbn [fst]; split; congruence. }
  assert (Hlong : existsb too_long seeds = existsb too_long (map SeedBuffer components)).
  { reflexivity. }
  split.
  - rewrite Hthrow, findProgramAddressSync_too_long_iff, Hlong.
    now apply components_too_long.
  - intros e He. apply Hthrow in He.
    destruct (existsb too_long seeds) eqn:Hseeds.
    + apply (findProgramAddressSync_too_long_iff seeds id tr) in Hseeds.
      left. congruence.
    + unfold findProgramAddressSync in He.
      destruct (findProgramAddressSync_loop_outcome seeds id Hseeds 255 tr)
        as [(address & k & _ & Hrun)|Hrun]; rewrite Hrun in He.
      * discriminate.
      * right. congruence.
Qed.

End Pubkey.

(** ** The reference instances *)

Lemma SHA256_digest_length (message : list byte) :
  length (SHA256.digest message) = 32%nat.
Proof.
  unfold SHA256.digest, SHA256.word_bytes.
  repeat rewrite length_app.
  repeat rewrite length_rev. repeat rewrite BN_le_bytes_length.
  reflexivity.
Qed.

Lemma Ed25519_big_spec (z : Z) :
  (0 <= z)%Z -> BigN.to_Z (Ed25519.big z) = z.
Proof.
  intros Hz. unfold Ed25519.big. rewrite BigN.spec_of_N. now apply Z2N.id.
Qed.

Lemma Ed25519_p_spec : BigN.to_Z (Ed25519.big Ed25519.p) = Ed25519.p.
Proof. now apply Ed25519_big_spec. Qed.

Lemma Ed25519_bM_spec (x y : bigN) :
  BigN.to_Z (Ed25519.bM x y) = Ed25519.M (BigN.to_Z x) (BigN.to_Z y).
Proof.
  unfold Ed25519.bM, Ed25519.M.
  now rewrite BigN.spec_modulo, BigN.spec_mul, Ed25519_p_spec.
Qed.

Lemma Ed25519_bpow_pos_spec (x : bigN) (e : positive) :
  BigN.to_Z (Ed25519.bpow_pos x e) = Ed25519.pow_pos (BigN.to_Z x) e.
Proof.
  induction e as [e IH|e IH|]; cbn [Ed25519.bpow_pos Ed25519.pow_pos].
  - now rewrite !Ed25519_bM_spec, IH.
  - now rewrite Ed25519_bM_spec, IH.
  - now rewrite BigN.spec_modulo, Ed25519_p_spec.
Qed.

(** The test on machine words is the test on integers. *)
Lemma Ed25519_isOnCurve_correct (bs : list byte) :
  Ed25519.isOnCurve bs = Ed25519.isOnCurve_spec bs.
Proof.
  unfold Ed25519.isOnCurve, Ed25519.isOnCurve_spec. cbv zeta.
  assert (Hy : BigN.to_Z (Ed25519.big (Ed25519.unpack25519 bs)) =
               Ed25519.unpack25519 bs).
  { apply Ed25519_big_spec. unfold Ed25519.unpack25519.
    apply Z.mod_pos_bound. reflexivity. }
  assert (Hnum : forall a, ((a + (Ed25519.p - 1)) mod Ed25519.p =
                            (a - 1) mod Ed25519.p)%Z).
  { intros a. replace (a + (Ed25519.p - 1))%Z with (a - 1 + 1 * Ed25519.p)%Z by ring.
    apply Z_mod_plus_full. }
  rewrite !BigN.spec_eqb.
  repeat rewrite ?Ed25519_bM_spec, ?Ed25519_bpow_pos_spec, ?BigN.spec_modulo,
    ?BigN.spec_add, ?Ed25519_p_spec, ?Hy.
  rewrite !(Ed25519_big_spec (Ed25519.p - 1)) by discriminate.
  rewrite !(Ed25519_big_spec 1) by discriminate.
  rewrite !(Ed25519_big_spec Ed25519.D) by discriminate.
  rewrite !(Ed25519_big_spec Ed25519.I) by discriminate.
  rewrite !Hnum. reflexivity.
Qed.

(** *** Test vectors of the reference instances *)

Example SHA256_digest_abc :
  hex (SHA256.digest (list_byte_of_string "abc")) =
  "ba7816bf8f01cfea414140de5dae2223b00361a396177a9cb410ff61f20015ad"%string.
Proof. vm_compute. reflexivity. Qed.

Example SHA256_digest_two_blocks :
  hex (SHA256.digest
         (list_byte_of_string
            "abcdbcdecdefdefgefghfghighijhijkijkljklmklmnlmnomnopnopq")) =
  "248d6a61d20638b8e5c026930c3e6039a33ce45964ff2167f6ecedd419db06c1"%string.
Proof. vm_compute. reflexivity. Qed.

(** The base point of the curve is on it. *)
Example Ed25519_base_point :
  Ed25519.isOnCurve (x58 :: repeat x66 31) = true.
Proof. vm_compute. reflexivity. Qed.

Example zero_key_toBuffer : PublicKey_toBuffer zero_key = repeat x00 32.
Proof. reflexivity. Qed.

(** *** Runs of the module at the reference instances *)

(** No seeds, programId of 32 zero bytes: the digest of the 53-byte
    preimage is off the curve and is the address. *)
Example createProgramAddressSync_no_seeds :
  createProgramAddressSync SHA256.digest Ed25519.isOnCurve [] zero_key [] =
  (Return (mkPublicKey
             0x95096ce9277e273eef56deac07fdc9744a77a2c758d4eba527fcffee7bb3116f%N
             eq_refl),
   [repeat x00 32 ++ list_byte_of_string "ProgramDerivedAddress"]).
Proof. vm_compute. reflexivity. Qed.

(** The search with the seed "anchor": nonce 255 gives an on-curve
    candidate, nonce 254 is returned, after two hashes. *)
Example findProgramAddressSync_anchor :
  findProgramAddressSync SHA256.digest Ed25519.isOnCurve
    [SeedBuffer (list_byte_of_string "anchor")] zero_key [] =
  (Return (mkPublicKey
             0x0ab0e43b4fcbfd1f74b6827ea48674150c03f6e9cde764e3d8302de6a7a3647b%N
             eq_refl, 254%nat),
   [list_byte_of_string "anchor" ++ [xff] ++ repeat x00 32
      ++ list_byte_of_string "ProgramDerivedAddress";
    list_byte_of_string "anchor" ++ [xfe] ++ repeat x00 32
      ++ list_byte_of_string "ProgramDerivedAddress"]).
Proof. vm_compute. reflexivity. Qed.

(** With a curve test that accepts everything the search tries the 255
    nonces and reports exhaustion. *)
Example findProgramAddressSync_exhausted :
  let run := findProgramAddressSync (fun _ => repeat x00 32) (fun _ => true)
               [] zero_key [] in
  result run = Throw NonceSearchExhausted /\ length (hashed run) = 255%nat.
Proof. vm_compute. split; reflexivity. Qed.

(** *** The properties at concrete inputs *)

(** Instance of C1 at the seed "c" and the zero programId: the candidate
    is on the curve and the call fails. *)
Lemma createProgramAddressSync_off_curve_witness :
  result (createProgramAddressSync SHA256.digest Ed25519.isOnCurve
            [SeedBuffer [x63]] zero_key []) = Throw InvalidSeeds.
Proof.
  assert (Hvalid : Forall (fun seed => (length (toBuffer seed) <= 32)%nat)
                          [SeedBuffer [x63]]).
  { constructor; [cbn; lia|constructor]. }
  assert (Hcurve : Ed25519.isOnCurve
                     (candidate SHA256.digest [SeedBuffer [x63]] zero_key) = true).
  { vm_compute. reflexivity. }
  exact (proj1 (createProgramAddressSync_off_curve SHA256.digest
                  Ed25519.isOnCurve SHA256_digest_length
                  [SeedBuffer [x63]] zero_key [] Hvalid) Hcurve).
Defined.

(** Instance of C2 at no seeds and the zero programId. *)
Lemma findProgramAddressSync_found_or_exhausted_witness :
  (exists address nonce,
      result (findProgramAddressSync SHA256.digest Ed25519.isOnCurve
                [] zero_key []) = Return (address, nonce) /\
      (1 <= nonce <= 255)%nat /\
      (forall tr', result (createProgramAddressSync SHA256.digest Ed25519.isOnCurve
                             ([] ++ [nonce_seed nonce]) zero_key tr') =
                   Return address) /\
      Ed25519.isOnCurve (PublicKey_toBuffer address) = false)
  \/
  ((forall nonce, (1 <= nonce <= 255)%nat ->
                  Ed25519.isOnCurve
                    (candidate SHA256.digest ([] ++ [nonce_seed nonce]) zero_key)
                  = true) /\
   result (findProgramAddressSync SHA256.digest Ed25519.isOnCurve [] zero_key [])
   = Throw NonceSearchExhausted).
Proof.
  exact (findProgramAddressSync_found_or_exhausted SHA256.digest
           Ed25519.isOnCurve SHA256_digest_length [] zero_key []
           (Forall_nil _)).
Defined.

(** Instances of C3. At the seeds "ab" (a [Buffer]) and [[353]] (an
    array of one number, which stands for the byte 61) under the
    programId 1, the message hashed is
    61 62 61, the 32 bytes of the programId, "ProgramDerivedAddress";
    the call returns, and the address is the digest of that message. At
    no seeds and the zero programId the call returns, and the address
    is the digest of 32 zero bytes followed by
    "ProgramDerivedAddress". *)
Lemma createProgramAddressSync_digest_witness :
  (hashed (createProgramAddressSync SHA256.digest Ed25519.isOnCurve
             [SeedBuffer [x61; x62]; SeedArray [353%Z]] one_key [])
   = [[x61; x62; x61] ++ repeat x00 31 ++ [x01]
        ++ list_byte_of_string "ProgramDerivedAddress"]
   /\ exists address,
        result (createProgramAddressSync SHA256.digest Ed25519.isOnCurve
                  [SeedBuffer [x61; x62]; SeedArray [353%Z]] one_key [])
        = Return address
        /\ PublicKey_toBuffer address =
           SHA256.digest ([x61; x62; x61] ++ repeat x00 31 ++ [x01]
                            ++ list_byte_of_string "ProgramDerivedAddress"))
  /\
  exists address,
    result (createProgramAddressSync SHA256.digest Ed25519.isOnCurve
              [] zero_key []) = Return address /\
    PublicKey_toBuffer address =
    SHA256.digest (repeat x00 32 ++ list_byte_of_string "ProgramDerivedAddress").
Proof.
  split.
  - assert (Hall : Forall (fun seed => (length (seed_octets seed) <= 32)%nat)
                     [SeedBuffer [x61; x62]; SeedArray [353%Z]]).
    { repeat constructor. }
    destruct (createProgramAddressSync_digest SHA256.digest Ed25519.isOnCurve
                SHA256_digest_length
                [SeedBuffer [x61; x62]; SeedArray [353%Z]] one_key [] Hall)
      as (_ & Hhashed & Hdigest & Hreturns & _).
    split; [exact Hhashed|].
    assert (Hoff : Ed25519.isOnCurve
                     (SHA256.digest
                        (concat (map seed_octets
                                   [SeedBuffer [x61; x62]; SeedArray [353%Z]])
                           ++ PublicKey_toBuffer one_key
                           ++ list_byte_of_string "ProgramDerivedAddress"))
                   = false).
    { vm_compute. reflexivity. }
    destruct (Hreturns Hoff) as (address & Hret).
    exists address. split; [exact Hret|].
    exact (Hdigest address Hret).
  - destruct (createProgramAddressSync_digest SHA256.digest Ed25519.isOnCurve
                SHA256_digest_length [] zero_key [] (Forall_nil _))
      as (_ & _ & _ & Hreturns & Hzero).
    assert (Hoff : Ed25519.isOnCurve
                     (SHA256.digest
                        (concat (map seed_octets []) ++ PublicKey_toBuffer zero_key
                           ++ list_byte_of_string "ProgramDerivedAddress")) = false).
    { vm_compute. reflexivity. }
    destruct (Hreturns Hoff) as (address & Hret).
    exists address. split; [exact Hret|].
    exact (Hzero eq_refl eq_refl address Hret).
Defined.

(** Instance of C6 on a runtime that counts the calls made on it, with
    the reference hash and curve test: a call that starts when no call
    has been made and one that starts after seven calls complete alike,
    and as the derivation and the search of the section do. *)
Lemma derivation_deterministic_witness :
  (fst (Runtime.createProgramAddressSync Runtime.counting_hash
          Runtime.counting_curve [SeedBuffer [x63]] zero_key 0%nat)
   = fst (Runtime.createProgramAddressSync Runtime.counting_hash
            Runtime.counting_curve [SeedBuffer [x63]] zero_key 7%nat)
   /\
   fst (Runtime.findProgramAddressSync Runtime.counting_hash
          Runtime.counting_curve [SeedBuffer [x63]] zero_key 0%nat)
   = fst (Runtime.findProgramAddressSync Runtime.counting_hash
            Runtime.counting_curve [SeedBuffer [x63]] zero_key 7%nat))
  /\
  (fst (Runtime.createProgramAddressSync Runtime.counting_hash
          Runtime.counting_curve [SeedBuffer [x63]] zero_key 0%nat)
   = result (createProgramAddressSync SHA256.digest Ed25519.isOnCurve
               [SeedBuffer [x63]] zero_key [])
   /\
   fst (Runtime.findProgramAddressSync Runtime.counting_hash
          Runtime.counting_curve [SeedBuffer [x63]] zero_key 0%nat)
   = result (findProgramAddressSync SHA256.digest Ed25519.isOnCurve
               [SeedBuffer [x63]] zero_key [])).
Proof.
  assert (Hhash : forall message (w : nat),
             fst (Runtime.counting_hash message w) = SHA256.digest message).
  { intros message w. unfold Runtime.counting_hash. cbn [fst]. reflexivity. }
  assert (Hcurve : forall bytes (w : nat),
             fst (Runtime.counting_curve bytes w) = Ed25519.isOnCurve bytes).
  { intros bytes w. unfold Runtime.counting_curve. cbn [fst]. reflexivity. }
  exact (derivation_deterministic SHA256.digest Ed25519.isOnCurve
           nat Runtime.counting_hash Runtime.counting_curve
           [SeedBuffer [x63]] zero_key 0%nat 7%nat [] Hhash Hcurve).
Defined.

(** Without the premise the conclusion fails: on a runtime whose hash
    depends on the state, the same call returns different addresses
    from different states. *)
Example Runtime_drifting_hash :
  Runtime.returned_bytes
    (fst (Runtime.createProgramAddressSync Runtime.drifting_hash
            (fun _ (w : nat) => (false, w)) [] zero_key 0%nat))
  = Some (repeat x00 32)
  /\
  Runtime.returned_bytes
    (fst (Runtime.createProgramAddressSync Runtime.drifting_hash
            (fun _ (w : nat) => (false, w)) [] zero_key 1%nat))
  = Some (repeat x01 32).
Proof. split; vm_compute; reflexivity. Qed.

(** Instance of C4 at a seed of 33 zero bytes, with a curve test that
    accepts every candidate: the length error wins, and nothing is hashed. *)
Lemma createProgramAddressSync_seed_too_long_witness :
  createProgramAddressSync SHA256.digest (fun _ => true)
    [SeedBuffer (repeat x00 33)] zero_key [] =
  (Throw InvalidSeedLength, []).
Proof.
  assert (Hlong : Exists (fun seed => (32 < length (toBuffer seed))%nat)
                         [SeedBuffer (repeat x00 33)]).
  { constructor. cbn. lia. }
  exact (createProgramAddressSync_seed_too_long SHA256.digest (fun _ => true)
           [SeedBuffer (repeat x00 33)] zero_key [] Hlong).
Defined.

(** Instance of C5 at a valid seed followed by a seed of 33 bytes. *)
Lemma findProgramAddressSync_seed_too_long_witness :
  findProgramAddressSync SHA256.digest Ed25519.isOnCurve
    [SeedBuffer (list_byte_of_string "anchor"); SeedUint8Array (repeat xff 33)]
    zero_key [] =
  (Throw (TypeError "Max seed length exceeded"), []).
Proof.
  assert (Hlong : Exists (fun seed => (32 < length (toBuffer seed))%nat)
                         [SeedBuffer (list_byte_of_string "anchor");
                          SeedUint8Array (repeat xff 33)]).
  { apply Exists_cons_tl. constructor. cbn. lia. }
  exact (findProgramAddressSync_seed_too_long SHA256.digest Ed25519.isOnCurve
           [SeedBuffer (list_byte_of_string "anchor");
            SeedUint8Array (repeat xff 33)] zero_key [] Hlong).
Defined.

(** Instance of C7 with public keys as addresses, translated to
    themselves, and the synchronous search in the place of
    [PublicKey.findProgramAddress]: a buffer component and a key
    component. *)
Lemma associated_delegates_witness :
  associated PublicKey (@Return PublicKey)
    (findProgramAddressSync SHA256.digest Ed25519.isOnCurve)
    zero_key [ArgBuffer [x01; x02]; ArgAddress zero_key] [] =
  address_only
    (findProgramAddressSync SHA256.digest Ed25519.isOnCurve
       (SeedBuffer [x61; x6e; x63; x68; x6f; x72]
          :: map SeedBuffer [[x01; x02]; PublicKey_toBuffer zero_key])
       zero_key []).
Proof.
  assert (Hargs : Forall2
                    (fun arg bytes =>
                       component_bytes PublicKey (@Return PublicKey) arg
                       = Return bytes)
                    [ArgBuffer [x01; x02]; ArgAddress zero_key]
                    [[x01; x02]; PublicKey_toBuffer zero_key]).
  { constructor; [reflexivity|]. constructor; [reflexivity|constructor]. }
  exact (proj1 (associated_delegates PublicKey (@Return PublicKey)
                  (findProgramAddressSync SHA256.digest Ed25519.isOnCurve)
                  zero_key [ArgBuffer [x01; x02]; ArgAddress zero_key]
                  [[x01; x02]; PublicKey_toBuffer zero_key] zero_key []
                  Hargs eq_refl)).
Defined.

(** Instance of C8 at no seeds and the zero programId: the nonces tried
    are 255 down to some [k], at most 255 of them. *)
Lemma findProgramAddressSync_bounded_search_witness :
  exists k,
    (1 <= k <= 255)%nat /\
    hashed (findProgramAddressSync SHA256.digest Ed25519.isOnCurve [] zero_key [])
    = [] ++ map (fun n => preimage ([] ++ [nonce_seed n]) zero_key)
                (countdown 255 k).
Proof.
  destruct (proj2 (findProgramAddressSync_bounded_search SHA256.digest
                     Ed25519.isOnCurve SHA256_digest_length [] zero_key [])
                  (Forall_nil _))
    as (k & Hk & Hhashed & _).
  exists k. split; [exact Hk|exact Hhashed].
Defined.

(** Instance of C9 at the zero key, the empty seed and the zero programId:
    the address returned is on the curve. *)
Lemma createWithSeedSync_digest_witness :
  exists address,
    createWithSeedSync SHA256.digest zero_key "" zero_key [] =
    (Return address,
     [] ++ [PublicKey_toBuffer zero_key ++ list_byte_of_string ""
              ++ PublicKey_toBuffer zero_key]) /\
    Ed25519.isOnCurve (PublicKey_toBuffer address) = true.
Proof.
  destruct (createWithSeedSync_digest SHA256.digest Ed25519.isOnCurve
              SHA256_digest_length zero_key "" zero_key [])
    as (address & Hrun & _ & Hcurve).
  exists address. split; [exact Hrun|].
  rewrite Hcurve. vm_compute. reflexivity.
Defined.

(** Instance of C10 at the seed "ab" split into "a" and "b", and at an
    empty seed appended. *)
Lemma createProgramAddressSync_seed_split_witness :
  createProgramAddressSync SHA256.digest Ed25519.isOnCurve
    ([] ++ SeedBuffer [x61; x62] :: []) zero_key [] =
  createProgramAddressSync SHA256.digest Ed25519.isOnCurve
    ([] ++ SeedBuffer [x61] :: SeedUint8Array [x62] :: []) zero_key []
  /\
  createProgramAddressSync SHA256.digest Ed25519.isOnCurve
    ([SeedBuffer [x61; x62]] ++ [SeedArray []]) zero_key [] =
  createProgramAddressSync SHA256.digest Ed25519.isOnCurve
    [SeedBuffer [x61; x62]] zero_key [].
Proof.
  destruct (createProgramAddressSync_seed_split SHA256.digest Ed25519.isOnCurve
              zero_key []) as [Hsplit Hempty].
  assert (Hlen : (length (toBuffer (SeedBuffer [x61; x62])) <= 32)%nat).
  { cbn. lia. }
  split.
  - exact (Hsplit [] [] (SeedBuffer [x61; x62]) (SeedBuffer [x61])
             (SeedUint8Array [x62]) eq_refl Hlen).
  - exact (Hempty [SeedBuffer [x61; x62]] (SeedArray []) eq_refl).
Defined.

(** *** The further properties at concrete inputs *)

(** Instance of X1 at the seed "c" and the zero programId. *)
Lemma createProgramAddressSync_outcome_witness :
  result (createProgramAddressSync SHA256.digest Ed25519.isOnCurve
            [SeedBuffer [x63]] zero_key []) = Throw InvalidSeeds
  <-> Forall (fun seed => (length (toBuffer seed) <= 32)%nat) [SeedBuffer [x63]] /\
      Ed25519.isOnCurve (candidate SHA256.digest [SeedBuffer [x63]] zero_key)
      = true.
Proof.
  exact (proj1 (proj2 (createProgramAddressSync_outcome SHA256.digest
                         Ed25519.isOnCurve SHA256_digest_length
                         [SeedBuffer [x63]] zero_key []))).
Defined.

(** Instance of X3: "ab", "c" as buffers against the array [353] (the
    byte 97) and "bc" as a [Uint8Array]. *)
Lemma seed_lists_with_equal_bytes_witness :
  createProgramAddressSync SHA256.digest Ed25519.isOnCurve
    [SeedBuffer [x61; x62]; SeedBuffer [x63]] zero_key [] =
  createProgramAddressSync SHA256.digest Ed25519.isOnCurve
    [SeedArray [353%Z]; SeedUint8Array [x62; x63]] zero_key []
  /\
  findProgramAddressSync SHA256.digest Ed25519.isOnCurve
    [SeedBuffer [x61; x62]; SeedBuffer [x63]] zero_key [] =
  findProgramAddressSync SHA256.digest Ed25519.isOnCurve
    [SeedArray [353%Z]; SeedUint8Array [x62; x63]] zero_key [].
Proof.
  assert (Hvalid : Forall (fun seed => (length (toBuffer seed) <= 32)%nat)
                          [SeedBuffer [x61; x62]; SeedBuffer [x63]]).
  { repeat constructor; cbn; lia. }
  assert (Hvalid' : Forall (fun seed => (length (toBuffer seed) <= 32)%nat)
                           [SeedArray [353%Z]; SeedUint8Array [x62; x63]]).
  { repeat constructor; cbn; lia. }
  exact (seed_lists_with_equal_bytes SHA256.digest Ed25519.isOnCurve
           [SeedBuffer [x61; x62]; SeedBuffer [x63]]
           [SeedArray [353%Z]; SeedUint8Array [x62; x63]] zero_key []
           Hvalid Hvalid' eq_refl).
Defined.

(** Instance of X4 at no seeds and the zero programId. *)
Lemma findProgramAddressSync_attempts_distinct_witness :
  exists attempts,
    hashed (findProgramAddressSync SHA256.digest Ed25519.isOnCurve
              [] zero_key []) = [] ++ attempts /\
    NoDup attempts.
Proof.
  exact (findProgramAddressSync_attempts_distinct SHA256.digest
           Ed25519.isOnCurve SHA256_digest_length [] zero_key []
           (Forall_nil _)).
Defined.

(** Instance of X6: the zero base key, the empty seed and the owner of
    10 zero bytes, a byte 1 and "ProgramDerivedAddress" hash the
    preimage of the seed of 11 zero bytes under the programId of 31
    zero bytes and a byte 1; that candidate is off the curve, and both
    functions return it. *)
Lemma createWithSeedSync_program_address_witness :
  exists address,
    result (createWithSeedSync SHA256.digest zero_key "" marker_key [])
    = Return address /\
    result (createProgramAddressSync SHA256.digest Ed25519.isOnCurve
              [SeedBuffer (repeat x00 11)] one_key []) = Return address.
Proof.
  assert (Hvalid : Forall (fun seed => (length (toBuffer seed) <= 32)%nat)
                          [SeedBuffer (repeat x00 11)]).
  { repeat constructor; cbn; lia. }
  assert (Hmsg : PublicKey_toBuffer zero_key ++ list_byte_of_string ""
                   ++ PublicKey_toBuffer marker_key
                 = preimage [SeedBuffer (repeat x00 11)] one_key).
  { vm_compute. reflexivity. }
  destruct (proj1 (createWithSeedSync_program_address SHA256.digest
                     Ed25519.isOnCurve SHA256_digest_length
                     zero_key "" marker_key [SeedBuffer (repeat x00 11)]
                     one_key [] Hvalid Hmsg))
    as (address & Hrun & _ & Hsame).
  exists address. split; [exact Hrun|]. apply Hsame.
  vm_compute. reflexivity.
Defined.

(** Instance of X7: addresses are optional keys, [None] standing for a
    value [translateAddress] rejects; the component after a buffer is
    rejected. *)
Lemma associated_translation_error_witness :
  associated (option PublicKey)
    (fun a => match a with
              | Some k => Return k
              | None => Throw (Error "Invalid public key input")
              end)
    (findProgramAddressSync SHA256.digest Ed25519.isOnCurve)
    (Some zero_key)
    ([ArgBuffer [x01]] ++ ArgAddress None :: [ArgAddress (Some zero_key)]) [] =
  (Throw (Error "Invalid public key input"), []).
Proof.
  assert (Hbefore : Forall2
                      (fun arg bytes =>
                         component_bytes (option PublicKey)
                           (fun a => match a with
                                     | Some k => Return k
                                     | None => Throw (Error "Invalid public key input")
                                     end) arg = Return bytes)
                      [ArgBuffer [x01]] [[x01]]).
  { constructor; [reflexivity|constructor]. }
  exact (proj1 (associated_translation_error (option PublicKey)
                  (fun a => match a with
                            | Some k => Return k
                            | None => Throw (Error "Invalid public key input")
                            end)
                  (findProgramAddressSync SHA256.digest Ed25519.isOnCurve)
                  (Some zero_key)
                  ([ArgBuffer [x01]] ++ ArgAddress None
                     :: [ArgAddress (Some zero_key)]) [])
               [ArgBuffer [x01]] None [ArgAddress (Some zero_key)] [[x01]]
               (Error "Invalid public key input") eq_refl Hbefore eq_refl).
Defined.

(** Instance of X8: a buffer component of 33 bytes before a key
    component. *)
Lemma associated_sync_errors_witness :
  result (associated PublicKey (@Return PublicKey)
            (findProgramAddressSync SHA256.digest Ed25519.isOnCurve)
            zero_key [ArgBuffer (repeat x00 33); ArgAddress zero_key] [])
  = Throw InvalidSeedLength.
Proof.
  assert (Hargs : Forall2
                    (fun arg bytes =>
                       component_bytes PublicKey (@Return PublicKey) arg
                       = Return bytes)
                    [ArgBuffer (repeat x00 33); ArgAddress zero_key]
                    [repeat x00 33; PublicKey_toBuffer zero_key]).
  { constructor; [reflexivity|]. constructor; [reflexivity|constructor]. }
  apply (proj1 (associated_sync_errors SHA256.digest Ed25519.isOnCurve
                  PublicKey (@Return PublicKey)
                  (findProgramAddressSync SHA256.digest Ed25519.isOnCurve)
                  zero_key [ArgBuffer (repeat x00 33); ArgAddress zero_key]
                  [repeat x00 33; PublicKey_toBuffer zero_key] zero_key []
                  (fun _ _ _ => eq_refl) Hargs eq_refl)).
  constructor. cbn. lia.
Defined.

(** * The module [provider] *)

(** Between two awaits other tasks may run and change the world; no
    statement below depends on what a collaborator returns, so each
    holds whatever the world does. *)

Section ProviderProperties.

Import Provider.

Variable C : Collaborators.

(** ** Rules for [guarantees] *)

Lemma guarantees_weaken {A} (m : Prog C A)
    (Q Q' : Outcome (Alien C) A -> list (Event C) -> Prop) :
  guarantees m Q -> (forall r l, Q r l -> Q' r l) -> guarantees m Q'.
Proof.
  intros Hm Himp st. destruct (Hm st) as [added [Hlog HQ]].
  exists added. split; [exact Hlog | apply Himp; exact HQ].
Qed.

Lemma guarantees_done {A} (a : A)
    (Q : Outcome (Alien C) A -> list (Event C) -> Prop) :
  Q (Done a) [] -> guarantees (done a) Q.
Proof.
  intros HQ st. exists []. simpl. rewrite app_nil_r. split; [reflexivity | exact HQ].
Qed.

Lemma guarantees_raise {A} (f : Failure (Alien C))
    (Q : Outcome (Alien C) A -> list (Event C) -> Prop) :
  Q (Raise f) [] -> guarantees (raise f) Q.
Proof.
  intros HQ st. exists []. simpl. rewrite app_nil_r. split; [reflexivity | exact HQ].
Qed.

Lemma guarantees_perform {R}
    (call : World C -> Outcome (Alien C) R * World C)
    (event : Outcome (Alien C) R -> Event C)
    (Q : Outcome (Alien C) R -> list (Event C) -> Prop) :
  (forall r, Q r [event r]) -> guarantees (perform call event) Q.
Proof.
  intros HQ st. unfold perform. destruct (call (fst st)) as [r w].
  exists [event r]. simpl. split; [reflexivity | apply HQ].
Qed.

Lemma guarantees_assign (write : World C -> World C) (event : Event C)
    (Q : Outcome (Alien C) unit -> list (Event C) -> Prop) :
  Q (Done tt) [event] -> guarantees (assign write event) Q.
Proof.
  intros HQ st. exists [event]. simpl. split; [reflexivity | exact HQ].
Qed.

Lemma guarantees_andThen {A B} (m : Prog C A) (k : A -> Prog C B)
    (Q1 : Outcome (Alien C) A -> list (Event C) -> Prop)
    (Q : Outcome (Alien C) B -> list (Event C) -> Prop) :
  guarantees m Q1 ->
  (forall f l, Q1 (Raise f) l -> Q (Raise f) l) ->
  (forall a l1, Q1 (Done a) l1 ->
     guarantees (k a) (fun r l2 => Q r (l1 ++ l2))) ->
  guarantees (andThen m k) Q.
Proof.
  intros Hm Hf Hk st. unfold andThen.
  destruct (Hm st) as [l1 [Hlog HQ]].
  destruct (m st) as [[a | f] st']; simpl in Hlog, HQ.
  - destruct (Hk a l1 HQ st') as [l2 [Hlog2 HQ2]].
    exists (l1 ++ l2). split; [| exact HQ2].
    rewrite Hlog2, Hlog, app_assoc. reflexivity.
  - exists l1. simpl. split; [exact Hlog | apply Hf; exact HQ].
Qed.

Lemma guarantees_tryCatch {A} (m : Prog C A)
    (handler : Failure (Alien C) -> Prog C A)
    (Q1 Q : Outcome (Alien C) A -> list (Event C) -> Prop) :
  guarantees m Q1 ->
  (forall a l, Q1 (Done a) l -> Q (Done a) l) ->
  (forall f l1, Q1 (Raise f) l1 ->
     guarantees (handler f) (fun r l2 => Q r (l1 ++ l2))) ->
  guarantees (tryCatch m handler) Q.
Proof.
  intros Hm Hd Hh st. unfold tryCatch.
  destruct (Hm st) as [l1 [Hlog HQ]].
  destruct (m st) as [[a | f] st']; simpl in Hlog, HQ.
  - exists l1. simpl. split; [exact Hlog | apply Hd; exact HQ].
  - destruct (Hh f l1 HQ st') as [l2 [Hlog2 HQ2]].
    exists (l1 ++ l2). split; [| exact HQ2].
    rewrite Hlog2, Hlog, app_assoc. reflexivity.
Qed.

Lemma guarantees_read_then {R B} (get : World C -> R) (k : R -> Prog C B)
    (Q : Outcome (Alien C) B -> list (Event C) -> Prop) :
  (forall x, guarantees (k x) Q) -> guarantees (andThen (read get) k) Q.
Proof. intros H st. unfold andThen, read. apply H. Qed.

Lemma guarantees_pure_call_then {R B} (r : Outcome (Alien C) R)
    (k : R -> Prog C B) (Q : Outcome (Alien C) B -> list (Event C) -> Prop) :
  match r with
  | Done x => guarantees (k x) Q
  | Raise f => Q (Raise f) []
  end ->
  guarantees (andThen (pure_call r) k) Q.
Proof.
  intros H st. unfold andThen, pure_call. destruct r as [x | f].
  - apply H.
  - exists []. simpl. rewrite app_nil_r. split; [reflexivity | exact H].
Qed.

(** A loop with an invariant [Inv] of the number of turns taken, the
    accumulator and the events so far, and a condition [Fail] that holds
    when turn [i] throws. *)
Lemma guarantees_for_each_index {V}
    (Inv : nat -> V -> list (Event C) -> Prop)
    (Fail : nat -> Failure (Alien C) -> list (Event C) -> Prop)
    (body : V -> nat -> Prog C V) :
  (forall i v k l, Inv i v l ->
     guarantees (body v k)
       (fun r l2 => match r with
                    | Done v' => Inv (S i) v' (l ++ l2)
                    | Raise f => Fail i f (l ++ l2)
                    end)) ->
  forall ks i v l, Inv i v l ->
    guarantees (for_each_index ks body v)
      (fun r l2 => match r with
                   | Done v' => Inv (i + length ks) v' (l ++ l2)
                   | Raise f => exists i', i <= i' < i + length ks
                                           /\ Fail i' f (l ++ l2)
                   end).
Proof.
  intros Hbody ks. induction ks as [| k ks IH]; intros i v l HInv; simpl.
  - apply guarantees_done. rewrite Nat.add_0_r, app_nil_r. exact HInv.
  - eapply guarantees_andThen.
    + apply (Hbody i v k l HInv).
    + intros f l1 HFail. exists i. split; [lia | exact HFail].
    + intros v' l1 HInv'. simpl in HInv'.
      eapply guarantees_weaken.
      * apply (IH (S i) v' (l ++ l1) HInv').
      * intros r l2. destruct r as [v'' | f]; rewrite <- app_assoc.
        -- replace (i + S (length ks)) with (S i + length ks) by lia.
           intros H; exact H.
        -- intros [i' [Hi' HFail]]. exists i'. split; [lia | exact HFail].
Qed.

(** ** Logs *)

Lemma sends_app (l l' : list (Event C)) : sends (l ++ l') = sends l + sends l'.
Proof. unfold sends. rewrite filter_app, length_app. reflexivity. Qed.

Lemma sent_signatures_app (l l' : list (Event C)) :
  sent_signatures (l ++ l') = sent_signatures l ++ sent_signatures l'.
Proof. unfold sent_signatures. apply flat_map_app. Qed.

Lemma sent_signatures_sends (l : list (Event C)) :
  length (sent_signatures l) <= sends l.
Proof.
  unfold sends. induction l as [| e l IH]; simpl; [lia |].
  destruct e as [| | | | | | | | c r o [s |] | |]; simpl; lia.
Qed.

Lemma is_quiet_not (e : Event C) :
  is_quiet e = true ->
  is_send e = false /\ is_register e = false /\ is_confirm e = false
  /\ is_lookup e = false.
Proof.
  unfold is_quiet.
  destruct (is_send e), (is_register e), (is_confirm e), (is_lookup e);
    simpl; intros H; try discriminate H; repeat split.
Qed.

Lemma filter_none {A} (p : A -> bool) (l : list A) :
  Forall (fun x => p x = false) l -> filter p l = [].
Proof.
  induction 1 as [| x l Hx _ IH]; simpl; [reflexivity |].
  rewrite Hx. exact IH.
Qed.

Lemma quiet_registers (l : list (Event C)) :
  Forall (fun e => is_quiet e = true) l -> filter is_register l = [].
Proof.
  intros H. apply filter_none. eapply Forall_impl; [| exact H].
  intros e He. apply (is_quiet_not e He).
Qed.

Lemma quiet_lookups (l : list (Event C)) :
  Forall (fun e => is_quiet e = true) l -> filter is_lookup l = [].
Proof.
  intros H. apply filter_none. eapply Forall_impl; [| exact H].
  intros e He. apply (is_quiet_not e He).
Qed.

Lemma quiet_confirms (l : list (Event C)) :
  Forall (fun e => is_quiet e = true) l -> filter is_confirm l = [].
Proof.
  intros H. apply filter_none. eapply Forall_impl; [| exact H].
  intros e He. apply (is_quiet_not e He).
Qed.

Lemma quiet_sends (l : list (Event C)) :
  Forall (fun e => is_quiet e = true) l -> sends l = 0.
Proof.
  intros H. unfold sends. rewrite filter_none; [reflexivity |].
  eapply Forall_impl; [| exact H].
  intros e He. apply (is_quiet_not e He).
Qed.

Lemma quiet_sent_signatures (l : list (Event C)) :
  Forall (fun e => is_quiet e = true) l -> sent_signatures l = [].
Proof.
  intros H. pose proof (sent_signatures_sends l) as Hle.
  rewrite (quiet_sends l H) in Hle.
  destruct (sent_signatures l); [reflexivity | simpl in Hle; lia].
Qed.

Lemma quiet_no_register (l : list (Event C)) signature accepted :
  Forall (fun e => is_quiet e = true) l ->
  ~ In (EvRegister signature accepted) l.
Proof.
  intros H Hin. rewrite Forall_forall in H.
  specialize (H _ Hin). discriminate H.
Qed.

(** ** The building blocks *)

Lemma forEach_events {A} (P : Event C -> Prop) (l : list A)
    (callback : A -> Prog C unit) :
  (forall x, guarantees (callback x) (fun _ added => Forall P added)) ->
  guarantees (forEach l callback) (fun _ added => Forall P added).
Proof.
  intros Hcb. induction l as [| x l IH]; simpl.
  - apply guarantees_done. constructor.
  - eapply guarantees_andThen; [apply Hcb | intros f l1 H; exact H |].
    intros u l1 H1. eapply guarantees_weaken; [exact IH |].
    intros r l2 H2. apply Forall_app. split; assumption.
Qed.

Lemma map_array_events {A B} (P : Event C -> Prop) (l : list A)
    (callback : A -> Prog C B) :
  (forall x, guarantees (callback x) (fun _ added => Forall P added)) ->
  guarantees (map_array l callback)
    (fun r added =>
       Forall P added /\ forall ys, r = Done ys -> length ys = length l).
Proof.
  intros Hcb. induction l as [| x l IH]; simpl.
  - apply guarantees_done. split; [constructor |].
    intros ys Hys. injection Hys as <-. reflexivity.
  - eapply guarantees_andThen; [apply Hcb | |].
    + intros f l1 H. split; [exact H | intros ys Hys; discriminate Hys].
    + intros y l1 H1.
      eapply guarantees_andThen; [exact IH | |].
      * intros f l2 [H2 _]. split; [| intros ys Hys; discriminate Hys].
        apply Forall_app. split; assumption.
      * intros ys l2 [H2 Hlen]. apply guarantees_done.
        rewrite app_nil_r. split; [apply Forall_app; split; assumption |].
        intros ys' Hys'. injection Hys' as <-. simpl.
        rewrite (Hlen ys eq_refl). reflexivity.
Qed.

Lemma prepare_quiet (this : AnchorProvider C) (tx : Transaction C)
    (signers : option (list (Signer C))) (opts_ : ConfirmOptions) :
  guarantees (prepare this tx signers opts_)
    (fun _ added => Forall (fun e => is_quiet e = true) added).
Proof.
  unfold prepare.
  apply guarantees_read_then. intros key.
  eapply guarantees_andThen;
    [apply guarantees_assign
       with (Q := fun r l => Forall (fun e => is_quiet e = true) l);
     repeat constructor
    | intros f l H; exact H |].
  intros u1 l1 H1.
  eapply guarantees_andThen;
    [apply guarantees_perform
       with (Q := fun r l => Forall (fun e => is_quiet e = true) l);
     intros r; repeat constructor
    | intros f l H; apply Forall_app; split; assumption |].
  intros blockhash l2 H2.
  eapply guarantees_andThen;
    [apply guarantees_assign
       with (Q := fun r l => Forall (fun e => is_quiet e = true) l);
     repeat constructor
    | intros f l H; repeat (apply Forall_app; split); assumption |].
  intros u3 l3 H3.
  eapply guarantees_andThen;
    [apply guarantees_perform
       with (Q := fun r l => Forall (fun e => is_quiet e = true) l);
     intros r; repeat constructor
    | intros f l H; repeat (apply Forall_app; split); assumption |].
  intros tx' l4 H4.
  eapply guarantees_andThen;
    [apply (forEach_events (fun e => is_quiet e = true));
     intros kp; apply guarantees_perform; intros r; repeat constructor
    | intros f l H; repeat (apply Forall_app; split); assumption |].
  intros u5 l5 H5. apply guarantees_done.
  rewrite app_nil_r. repeat (apply Forall_app; split); assumption.
Qed.

Lemma prepare_unsigned_run (this : AnchorProvider C)
    (txWithSigners : list (TxWithSigners C)) (opts_ : ConfirmOptions) :
  guarantees (prepare_unsigned this txWithSigners opts_)
    (fun r added =>
       Forall (fun e => is_quiet e = true /\ is_sign_all e = false) added
       /\ forall txs, r = Done txs -> length txs = length txWithSigners).
Proof.
  unfold prepare_unsigned.
  eapply guarantees_andThen;
    [apply guarantees_perform
       with (Q := fun r l =>
                    Forall (fun e => is_quiet e = true
                                     /\ is_sign_all e = false) l);
     intros r; repeat constructor
    | intros f l H; split; [exact H | intros ? Heq; discriminate Heq] |].
  intros blockhash l1 H1.
  eapply guarantees_weaken.
  - apply (map_array_events
             (fun e => is_quiet e = true /\ is_sign_all e = false)).
    intros r. cbv zeta.
    apply guarantees_read_then. intros key.
    eapply guarantees_andThen;
      [apply guarantees_assign
         with (Q := fun r l =>
                      Forall (fun e => is_quiet e = true
                                       /\ is_sign_all e = false) l);
       repeat constructor
      | intros f l H; exact H |].
    intros u2 l2 H2.
    eapply guarantees_andThen;
      [apply guarantees_assign
         with (Q := fun r l =>
                      Forall (fun e => is_quiet e = true
                                       /\ is_sign_all e = false) l);
       repeat constructor
      | intros f l H; apply Forall_app; split; assumption |].
    intros u3 l3 H3.
    eapply guarantees_andThen;
      [apply (forEach_events
                (fun e => is_quiet e = true /\ is_sign_all e = false));
       intros kp; apply guarantees_perform; intros r'; repeat constructor
      | intros f l H; repeat (apply Forall_app; split); assumption |].
    intros u4 l4 H4. apply guarantees_done.
    rewrite app_nil_r. repeat (apply Forall_app; split); assumption.
  - intros r l [H Hlen]. split; [| exact Hlen].
    apply Forall_app; split; assumption.
Qed.

Lemma prepare_all_quiet (this : AnchorProvider C)
    (txWithSigners : list (TxWithSigners C)) (opts_ : ConfirmOptions) :
  guarantees (prepare_all this txWithSigners opts_)
    (fun r added =>
       Forall (fun e => is_quiet e = true) added
       /\ forall txs signedTxs, r = Done (txs, signedTxs) ->
            length txs = length txWithSigners).
Proof.
  unfold prepare_all.
  eapply guarantees_andThen; [apply prepare_unsigned_run | |].
  - intros f l [H _]. split; [| intros ? ? Heq; discriminate Heq].
    eapply Forall_impl; [| exact H]. intros e [He _]. exact He.
  - intros txs l1 [H1 Hlen].
    assert (Hq : Forall (fun e => is_quiet e = true) l1).
    { eapply Forall_impl; [| exact H1]. intros e [He _]. exact He. }
    eapply guarantees_andThen;
      [apply guarantees_perform
         with (Q := fun r l => Forall (fun e => is_quiet e = true) l);
       intros r; repeat constructor
      | intros f l H; split; [| intros ? ? Heq; discriminate Heq];
        apply Forall_app; split; assumption |].
    intros signedTxs l2 H2. apply guarantees_done.
    rewrite app_nil_r. split; [apply Forall_app; split; assumption |].
    intros txs' signedTxs' Heq. injection Heq as <- <-.
    apply Hlen. reflexivity.
Qed.

Lemma guarantees_element_then {A B} (array : list A) (k : nat)
    (continue : A -> Prog C B)
    (Q : Outcome (Alien C) B -> list (Event C) -> Prop) :
  (forall x, guarantees (continue x) Q) ->
  Q (Raise (Threw (TypeError "Cannot read properties of undefined"))) [] ->
  guarantees (andThen (element array k) continue) Q.
Proof.
  intros Hk Hf st. unfold andThen, element.
  destruct (nth_error array k) as [x |]; simpl.
  - apply Hk.
  - exists []. simpl. rewrite app_nil_r. split; [reflexivity | exact Hf].
Qed.

Lemma registration_run (register : Register C) (tx : Transaction C) :
  guarantees (registration register tx)
    (fun r added =>
       exists signature accepted,
         added = [EvRegister signature accepted]
         /\ match accepted with
            | Some true => r = Done tt
            | Some false =>
                r = Raise (Threw (Error "Signature registration failed"))
            | None => threw r
            end).
Proof.
  unfold registration. apply guarantees_read_then. intros signature.
  eapply guarantees_andThen.
  - unfold call_register.
    apply guarantees_perform
      with (Q := fun r l => l = [EvRegister signature (returned_value r)]).
    reflexivity.
  - intros f l H. cbv beta in H. subst l.
    exists signature, None. split; [reflexivity | exists f; reflexivity].
  - intros a l1 H. cbv beta in H. subst l1. simpl returned_value.
    destruct a.
    + apply guarantees_done. exists signature, (Some true).
      split; reflexivity.
    + apply guarantees_raise. exists signature, (Some false).
      split; reflexivity.
Qed.

Lemma sendRawTransaction_run (conn : Connection C) (raw : RawTransaction C)
    (options : option ConfirmOptions) :
  guarantees (sendRawTransaction conn raw options)
    (fun r added =>
       exists returned,
         added = [EvSendRawTransaction conn raw (sendOptions_of options) returned]
         /\ match returned with
            | Some signature => r = Done signature
            | None => threw r
            end).
Proof.
  unfold sendRawTransaction, connection_send. cbv zeta.
  apply guarantees_perform. intros r. exists (returned_value r).
  split; [reflexivity |].
  destruct r as [signature | f]; simpl; [reflexivity | exists f; reflexivity].
Qed.

Lemma sendAndConfirmRawTransaction_run (conn : Connection C)
    (raw : RawTransaction C) (options : option ConfirmOptions) :
  guarantees (sendAndConfirmRawTransaction conn raw options)
    (fun r added =>
       (added = [EvSendRawTransaction conn raw (sendOptions_of options) None]
        /\ threw r)
       \/ exists signature returned,
            added = [EvSendRawTransaction conn raw (sendOptions_of options)
                       (Some signature);
                     EvConfirmTransaction conn signature (commitment_of options)
                       returned]
            /\ match returned with
               | None => threw r
               | Some status =>
                   if status_err C status
                   then r = Raise (ConfirmError
                                     (String.append "Raw transaction "
                                        (String.append signature
                                           (String.append " failed ("
                                              (String.append
                                                 (JSON_stringify C status)
                                                 ")")))))
                   else r = Done signature
               end).
Proof.
  unfold sendAndConfirmRawTransaction. cbv zeta.
  eapply guarantees_andThen.
  - unfold connection_send.
    apply guarantees_perform
      with (Q := fun r l =>
                   l = [EvSendRawTransaction conn raw (sendOptions_of options)
                          (returned_value r)]).
    reflexivity.
  - intros f l H. cbv beta in H. subst l. left.
    split; [reflexivity | exists f; reflexivity].
  - intros signature l1 H. cbv beta in H. subst l1. simpl returned_value.
    eapply guarantees_andThen.
    + unfold confirmTransaction.
      apply guarantees_perform
        with (Q := fun r l =>
                     l = [EvConfirmTransaction conn signature
                            (commitment_of options) (returned_value r)]).
      reflexivity.
    + intros f l H. cbv beta in H. subst l. right.
      exists signature, None. split; [reflexivity | exists f; reflexivity].
    + intros status l2 H. cbv beta in H. subst l2. simpl returned_value.
      destruct (status_err C status) eqn:Herr.
      * apply guarantees_raise. right. exists signature, (Some status).
        split; [reflexivity |]. rewrite Herr. reflexivity.
      * apply guarantees_done. right. exists signature, (Some status).
        split; [reflexivity |]. rewrite Herr. reflexivity.
Qed.

Lemma with_logs_run (this : AnchorProvider C) (tx : Transaction C)
    (err : Failure (Alien C)) :
  guarantees (with_logs this tx err)
    (fun r added =>
       (added = [] /\ threw r)
       \/ exists message encoded returned,
            err = ConfirmError message
            /\ added = [EvGetTransaction (connection this) encoded "confirmed"
                          returned]
            /\ match returned with
               | None => threw r
               | Some failedTx => r = Raise (translated message failedTx)
               end).
Proof.
  destruct err as [message | message logs | e | x]; simpl;
    try (apply guarantees_raise; left; split;
         [reflexivity | eexists; reflexivity]).
  apply guarantees_read_then. intros signature.
  apply guarantees_pure_call_then.
  destruct (bs58_encode C signature) as [encoded | f].
  - eapply guarantees_andThen.
    + unfold getTransaction.
      apply guarantees_perform
        with (Q := fun r l =>
                     l = [EvGetTransaction (connection this) encoded "confirmed"
                            (returned_value r)]).
      reflexivity.
    + intros f l H. cbv beta in H. subst l. right.
      exists message, encoded, None.
      repeat split. exists f. reflexivity.
    + intros failedTx l1 H. cbv beta in H. subst l1. simpl returned_value.
      assert (Hcases :
                forall r : Outcome (Alien C) string,
                  r = Raise (translated message failedTx) ->
                  (([EvGetTransaction (connection this) encoded "confirmed"
                       (Some failedTx)] ++ [] = [] /\ threw r)
                   \/ exists message0 encoded0 returned,
                        @ConfirmError (Alien C) message = ConfirmError message0
                        /\ [EvGetTransaction (connection this) encoded
                              "confirmed" (Some failedTx)] ++ []
                           = [EvGetTransaction (connection this) encoded0
                                "confirmed" returned]
                        /\ match returned with
                           | None => threw r
                           | Some failedTx0 =>
                               r = Raise (translated message0 failedTx0)
                           end)).
      { intros r Hr. right. exists message, encoded, (Some failedTx).
        repeat split. exact Hr. }
      unfold translated, logs_of in Hcases.
      destruct failedTx as [response |].
      * destruct (match meta response with
                  | Some m => logMessages m
                  | None => None
                  end) as [logs |];
          apply guarantees_raise; apply Hcases; reflexivity.
      * apply guarantees_raise. apply Hcases. reflexivity.
  - left. split; [reflexivity | exists f; reflexivity].
Qed.

Lemma is_accepted_register (e : Event C) :
  is_accepted e = true -> is_register e = true.
Proof. destruct e; simpl; intros H; try discriminate H; reflexivity. Qed.

Lemma is_register_not (e : Event C) :
  is_register e = true ->
  is_send e = false /\ is_confirm e = false /\ is_lookup e = false.
Proof. destruct e; simpl; intros H; try discriminate H; repeat split. Qed.

Lemma filter_none_In {A} (p : A -> bool) (l : list A) (x : A) :
  filter p l = [] -> In x l -> p x = true -> False.
Proof.
  intros Hnone Hin Hp.
  assert (Hf : In x (filter p l)) by (apply filter_In; split; assumption).
  rewrite Hnone in Hf. exact Hf.
Qed.

Lemma confirmed_app_l (conn : Connection C) (c : option string) (s : string)
    (l l' : list (Event C)) :
  confirmed conn c s l -> confirmed conn c s (l ++ l').
Proof.
  intros [status [Hin Herr]]. exists status.
  split; [apply in_or_app; left; exact Hin | exact Herr].
Qed.

Lemma confirmed_app_r (conn : Connection C) (c : option string) (s : string)
    (l l' : list (Event C)) :
  confirmed conn c s l' -> confirmed conn c s (l ++ l').
Proof.
  intros [status [Hin Herr]]. exists status.
  split; [apply in_or_app; right; exact Hin | exact Herr].
Qed.

(** The loop of [registerAndSendAll] that registers the signatures. *)
Lemma register_loop_run (register : Register C)
    (signedTxs : list (Transaction C)) (ks : list nat) :
  guarantees
    (for_each_index ks
       (fun (_ : unit) j =>
          andThen (element signedTxs j) (fun st => registration register st))
       tt)
    (fun r added =>
       Forall (fun e => is_register e = true) added
       /\ (forall u, r = Done u ->
             Forall (fun e => is_accepted e = true) added)
       /\ (forall f, r = Raise f ->
           forall s, In (EvRegister s (Some false)) added ->
             f = Threw (Error "Signature registration failed"))).
Proof.
  eapply guarantees_weaken.
  - apply (guarantees_for_each_index
             (fun _ _ l => Forall (fun e => is_accepted e = true) l)
             (fun _ f l =>
                Forall (fun e => is_register e = true) l
                /\ forall s, In (EvRegister s (Some false)) l ->
                     f = Threw (Error "Signature registration failed")))
      with (i := 0) (l := []); [| constructor].
    intros i v k l HInv.
    assert (Hreg : Forall (fun e => is_register e = true) l).
    { eapply Forall_impl; [| exact HInv]. apply is_accepted_register. }
    apply guarantees_element_then.
    + intros st. eapply guarantees_weaken; [apply registration_run |].
      intros r l2 [signature [accepted [-> Hr]]].
      destruct accepted as [[|] |].
      * subst r. apply Forall_app. split; [exact HInv | repeat constructor].
      * subst r. split.
        -- apply Forall_app. split; [exact Hreg | repeat constructor].
        -- intros s Hin. reflexivity.
      * destruct Hr as [f ->]. split.
        -- apply Forall_app. split; [exact Hreg | repeat constructor].
        -- intros s Hin. apply in_app_or in Hin. destruct Hin as [Hin | Hin].
           ++ rewrite Forall_forall in HInv. specialize (HInv _ Hin).
              discriminate HInv.
           ++ destruct Hin as [Heq | []]. discriminate Heq.
    + rewrite app_nil_r. split; [exact Hreg |].
      intros s Hin. rewrite Forall_forall in HInv. specialize (HInv _ Hin).
      discriminate HInv.
  - intros r l. simpl. destruct r as [u | f].
    + intros HInv. split; [| split].
      * eapply Forall_impl; [| exact HInv]. apply is_accepted_register.
      * intros _ _. exact HInv.
      * intros f Heq. discriminate Heq.
    + intros [i' [_ [Hreg Hfalse]]]. split; [exact Hreg | split].
      * intros u Heq. discriminate Heq.
      * intros f' Heq. injection Heq as <-. exact Hfalse.
Qed.

(** One send, with or without confirmation. *)
Lemma send_step_run (conn : Connection C) (raw : RawTransaction C)
    (o : ConfirmOptions) (skip : bool) :
  guarantees
    (if skip then sendRawTransaction conn raw (Some o)
     else sendAndConfirmRawTransaction conn raw (Some o))
    (fun r added =>
       sends added = 1
       /\ filter is_register added = []
       /\ filter is_lookup added = []
       /\ (skip = true -> filter is_confirm added = [])
       /\ (sent_signatures added = [] -> threw r)
       /\ forall signature, r = Done signature ->
            sent_signatures added = [signature]
            /\ (skip = false -> confirmed conn (commitment o) signature added)).
Proof.
  destruct skip.
  - eapply guarantees_weaken; [apply sendRawTransaction_run |].
    intros r l [returned [-> Hr]].
    repeat split.
    + destruct returned as [s |]; simpl; intros H;
        [discriminate H | exact Hr].
    + destruct returned as [s |];
        [| destruct Hr as [f ->]; discriminate H].
      rewrite Hr in H. injection H as <-. reflexivity.
    + intros Hskip. discriminate Hskip.
  - eapply guarantees_weaken; [apply sendAndConfirmRawTransaction_run |].
    intros r l [[-> Hr] | [s [returned [-> Hr]]]].
    + repeat split.
      * intros _. exact Hr.
      * destruct Hr as [f ->]. discriminate H.
      * destruct Hr as [f ->]. discriminate H.
    + repeat split.
      * intros Hskip. discriminate Hskip.
      * simpl. intros H. discriminate H.
      * destruct returned as [status |];
          [| destruct Hr as [f ->]; discriminate H].
        destruct (status_err C status); rewrite Hr in H;
          [discriminate H | injection H as <-; reflexivity].
      * intros _. destruct returned as [status |];
          [| destruct Hr as [f ->]; discriminate H].
        destruct (status_err C status) eqn:Herr; rewrite Hr in H;
          [discriminate H | injection H as <-].
        exists status. split; [right; left; reflexivity | exact Herr].
Qed.

(** The loop of [sendAll] and [registerAndSendAll] that sends the
    transactions. *)
Lemma send_loop_run (this : AnchorProvider C)
    (signedTxs : list (Transaction C)) (o : ConfirmOptions) (skip : bool)
    (ks : list nat) :
  guarantees
    (for_each_index ks
       (fun sigs k =>
          andThen (element signedTxs k) (fun tx =>
          andThen (serialize tx) (fun rawTx =>
          andThen (if skip
                   then sendRawTransaction (connection this) rawTx (Some o)
                   else sendAndConfirmRawTransaction (connection this) rawTx
                          (Some o))
                  (fun sig => done (sigs ++ [sig])))))
       [])
    (fun r added =>
       filter is_register added = []
       /\ filter is_lookup added = []
       /\ (skip = true -> filter is_confirm added = [])
       /\ sends added <= length ks
       /\ sends added <= S (length (sent_signatures added))
       /\ forall sigs, r = Done sigs ->
            sigs = sent_signatures added
            /\ length sigs = length ks
            /\ (skip = false ->
                forall s, In s sigs ->
                  confirmed (connection this) (commitment o) s added)).
Proof.
  eapply guarantees_weaken.
  - apply (guarantees_for_each_index
             (fun i sigs l =>
                filter is_register l = []
                /\ filter is_lookup l = []
                /\ (skip = true -> filter is_confirm l = [])
                /\ sends l = i
                /\ sigs = sent_signatures l
                /\ length sigs = i
                /\ (skip = false ->
                    forall s, In s sigs ->
                      confirmed (connection this) (commitment o) s l))
             (fun i f l =>
                filter is_register l = []
                /\ filter is_lookup l = []
                /\ (skip = true -> filter is_confirm l = [])
                /\ sends l <= S i
                /\ i <= length (sent_signatures l)))
      with (i := 0) (l := []).
    + intros i sigs k l (Hreg & Hlook & Hconf & Hsends & Hsigs & Hlen & Hconfd).
      assert (Hsent : length (sent_signatures l) = i)
        by (rewrite <- Hsigs; exact Hlen).
      apply guarantees_element_then.
      * intros tx. eapply guarantees_andThen.
        -- unfold serialize.
           apply guarantees_perform with (Q := fun r l1 => l1 = [EvSerialize tx]).
           reflexivity.
        -- intros f l1 H. cbv beta in H. subst l1.
           rewrite !filter_app, sends_app, sent_signatures_app, length_app.
           rewrite Hreg, Hlook. unfold sends in *. simpl.
           repeat split; try lia.
           intros Hskip. rewrite (Hconf Hskip). reflexivity.
        -- intros rawTx l1 H. cbv beta in H. subst l1.
           eapply guarantees_andThen.
           ++ apply (send_step_run (connection this) rawTx o skip).
           ++ intros f ls (Hs1 & Hs2 & Hs3 & Hs4 & Hs5 & Hs6).
              pose proof (sent_signatures_sends ls) as Hle.
              rewrite !filter_app, !sends_app, !sent_signatures_app, !length_app.
              rewrite Hreg, Hlook, Hs2, Hs3. unfold sends in *. simpl.
              repeat split; try lia.
              intros Hskip. rewrite (Hconf Hskip), (Hs4 Hskip). reflexivity.
           ++ intros sig ls (Hs1 & Hs2 & Hs3 & Hs4 & Hs5 & Hs6).
              apply guarantees_done.
              destruct (Hs6 sig eq_refl) as [Hsig Hcd].
              rewrite app_nil_r.
              rewrite !filter_app, !sends_app, !sent_signatures_app.
              rewrite Hreg, Hlook, Hs2, Hs3, Hsig, Hs1. unfold sends in *. simpl.
              repeat split; try lia.
              ** intros Hskip. rewrite (Hconf Hskip), (Hs4 Hskip). reflexivity.
              ** rewrite Hsigs. reflexivity.
              ** rewrite length_app. simpl. lia.
              ** intros Hskip s Hin. apply in_app_or in Hin.
                 destruct Hin as [Hin | [<- | []]].
                 --- apply confirmed_app_l. apply (Hconfd Hskip s Hin).
                 --- apply confirmed_app_r.
                     apply (confirmed_app_r _ _ _ [EvSerialize tx] ls).
                     apply (Hcd Hskip).
      * rewrite app_nil_r. repeat split; try assumption; lia.
    + repeat split; try reflexivity. intros _ s [].
  - intros r l. simpl. destruct r as [sigs | f].
    + intros (Hreg & Hlook & Hconf & Hsends & Hsigs & Hlen & Hconfd).
      repeat split; try assumption; try lia.
      * rewrite <- Hsigs. lia.
      * injection H as <-. exact Hsigs.
      * injection H as <-. exact Hlen.
      * injection H as <-. exact Hconfd.
    + intros [i' [Hi' (Hreg & Hlook & Hconf & Hsends & Hsent)]].
      repeat split; try assumption; try lia.
      all: discriminate H.
Qed.

(** [serialize] and the [try] statement of [sendAndConfirm] and
    [registerSendAndConfirm]. *)
Lemma confirm_tail_run (this : AnchorProvider C) (tx : Transaction C)
    (o : ConfirmOptions) :
  guarantees
    (andThen (serialize tx) (fun rawTx =>
       tryCatch (sendAndConfirmRawTransaction (connection this) rawTx (Some o))
                (with_logs this tx)))
    (fun r added =>
       filter is_register added = []
       /\ sends added <= 1
       /\ (forall signature, r = Done signature ->
             sent_signatures added = [signature]
             /\ confirmed (connection this) (commitment o) signature added)
       /\ logs_fetched_last (connection this) r added).
Proof.
  eapply guarantees_andThen.
  - unfold serialize.
    apply guarantees_perform with (Q := fun r l1 => l1 = [EvSerialize tx]).
    reflexivity.
  - intros f l H. cbv beta in H. subst l.
    repeat split.
    + unfold sends. simpl. lia.
    + discriminate H.
    + discriminate H.
    + exists [EvSerialize tx], []. repeat split. left. reflexivity.
  - intros rawTx l0 H. cbv beta in H. subst l0.
    eapply guarantees_tryCatch.
    + apply sendAndConfirmRawTransaction_run.
    + intros signature l [[_ [f Hf]] | [s [returned [-> Hr]]]];
        [discriminate Hf |].
      destruct returned as [status |]; [| destruct Hr as [f Hf]; discriminate Hf].
      destruct (status_err C status) eqn:Herr; [discriminate Hr |].
      injection Hr as <-.
      repeat split.
      * unfold sends. simpl. lia.
      * injection H as <-. reflexivity.
      * injection H as <-. exists status.
        split; [right; right; left; reflexivity | exact Herr].
      * eexists. exists []. rewrite app_nil_r.
        repeat split. left. reflexivity.
    + intros f l1 Hl1.
      assert (Hfacts : filter is_register l1 = [] /\ filter is_lookup l1 = []
                       /\ sends l1 = 1).
      { destruct Hl1 as [[-> _] | [s [returned [-> _]]]]; repeat split. }
      destruct Hfacts as (Hreg1 & Hlook1 & Hsends1).
      eapply guarantees_weaken; [apply with_logs_run |].
      intros r l2 Hl2.
      assert (Hthrew : threw r).
      { destruct Hl2 as [[_ Ht] | (message & encoded & returned & _ & _ & Hr)];
          [exact Ht |].
        destruct returned as [failedTx |]; [eexists; exact Hr | exact Hr]. }
      assert (Hfacts : filter is_register l2 = [] /\ sends l2 = 0).
      { destruct Hl2 as [[-> _] | (message & encoded & returned & _ & -> & _)];
          repeat split. }
      destruct Hfacts as (Hreg2 & Hsends2).
      destruct Hthrew as [f' ->].
      rewrite !filter_app, !sends_app, Hreg1, Hreg2, Hsends1, Hsends2.
      repeat split.
      * unfold sends. simpl. lia.
      * discriminate H.
      * discriminate H.
      * exists ([EvSerialize tx] ++ l1), l2.
        split; [rewrite app_assoc; reflexivity |].
        split; [rewrite filter_app, Hlook1; reflexivity |].
        destruct Hl2 as [[-> _] | (message & encoded & returned & Hf & -> & Hr)];
          [left; reflexivity | right].
        exists encoded, returned, message. split; [reflexivity |].
        split; [rewrite sends_app, Hsends1; reflexivity |].
        split; [exact Hr |].
        intros l signature c status Hbefore. subst f.
        destruct Hl1 as [[-> _] | [s [ret [-> Hret]]]].
        -- apply app_inj_tail in Hbefore. destruct Hbefore as [_ Heq].
           discriminate Heq.
        -- apply (app_inj_tail
                    [EvSerialize tx;
                     EvSendRawTransaction (connection this) rawTx
                       (sendOptions_of (Some o)) (Some s)] l) in Hbefore.
           destruct Hbefore as [_ Heq]. injection Heq as -> _ ->.
           destruct (status_err C status); [| discriminate Hret].
           injection Hret as ->. split; reflexivity.
Qed.

(** [serialize] and the send of [registerAndSend]. *)
Lemma send_tail_run (this : AnchorProvider C) (tx : Transaction C)
    (o : ConfirmOptions) :
  guarantees
    (andThen (serialize tx) (fun rawTx =>
       sendRawTransaction (connection this) rawTx (Some o)))
    (fun r added =>
       filter is_register added = []
       /\ sends added <= 1
       /\ (forall signature, r = Done signature ->
             sent_signatures added = [signature])).
Proof.
  eapply guarantees_andThen.
  - unfold serialize.
    apply guarantees_perform with (Q := fun r l1 => l1 = [EvSerialize tx]).
    reflexivity.
  - intros f l H. cbv beta in H. subst l.
    repeat split; [unfold sends; simpl; lia | intros s H; discriminate H].
  - intros rawTx l0 H. cbv beta in H. subst l0.
    eapply guarantees_weaken; [apply sendRawTransaction_run |].
    intros r l [returned [-> Hr]].
    repeat split; [unfold sends; simpl; lia |].
    intros signature H.
    destruct returned as [s |]; [| destruct Hr as [f ->]; discriminate H].
    rewrite Hr in H. injection H as <-. reflexivity.
Qed.

Lemma logs_fetched_last_after {A} (conn : Connection C)
    (r : Outcome (Alien C) A) (q l : list (Event C)) :
  filter is_lookup q = [] -> sends q = 0 ->
  logs_fetched_last conn r l -> logs_fetched_last conn r (q ++ l).
Proof.
  intros Hlook Hsends (before & lookups & -> & Hb & Hcases).
  exists (q ++ before), lookups.
  split; [rewrite app_assoc; reflexivity |].
  split; [rewrite filter_app, Hlook, Hb; reflexivity |].
  destruct Hcases
    as [-> | (encoded & returned & message & -> & Hs & Hr & Hmsg)];
    [left; reflexivity | right].
  exists encoded, returned, message. split; [reflexivity |].
  split; [rewrite sends_app, Hsends, Hs; reflexivity |].
  split; [exact Hr |].
  intros l signature c status Heq.
  assert (Hne : before <> []).
  { intros ->. unfold sends in Hs. simpl in Hs. discriminate Hs. }
  destruct (exists_last Hne) as [b0 [last Hlast]].
  rewrite Hlast, app_assoc in Heq.
  apply app_inj_tail in Heq. destruct Heq as [_ Hev].
  apply (Hmsg b0 signature c status). rewrite Hlast, Hev. reflexivity.
Qed.

(** [prepare], then the registration, then the rest. *)
Lemma registered_then (this : AnchorProvider C) (tx : Transaction C)
    (register : Register C) (signers : option (list (Signer C)))
    (o : ConfirmOptions) (rest : Transaction C -> Prog C string) :
  (forall tx',
     guarantees (rest tx')
       (fun r l =>
          filter is_register l = []
          /\ sends l <= 1
          /\ (forall signature, r = Done signature ->
                sent_signatures l = [signature]))) ->
  guarantees
    (andThen (prepare this tx signers o) (fun tx' =>
       andThen (registration register tx') (fun _ => rest tx')))
    (fun r added =>
       registered_first r added
       /\ sends added <= 1
       /\ (forall signature, r = Done signature ->
             sent_signatures added = [signature])).
Proof.
  intros Hrest.
  eapply guarantees_andThen; [apply prepare_quiet | |].
  - intros f lp Hq. cbv beta in Hq. split; [| split].
    + exists lp, []. rewrite app_nil_r.
      split; [reflexivity |].
      split; [apply quiet_sends; exact Hq |].
      split; [reflexivity |].
      split; [left; reflexivity |].
      intros signature Hin. exfalso.
      apply (quiet_no_register lp signature (Some false) Hq Hin).
    + rewrite (quiet_sends lp Hq). lia.
    + intros signature Heq. discriminate Heq.
  - intros tx' lp Hq. cbv beta in Hq.
    eapply guarantees_andThen; [apply registration_run | |].
    + intros f l (s & a & -> & Ha). split; [| split].
      * exists (lp ++ [EvRegister s a]), []. rewrite app_nil_r.
        split; [reflexivity |].
        split; [rewrite sends_app, (quiet_sends lp Hq); reflexivity |].
        split; [reflexivity |].
        split; [left; reflexivity |].
        intros signature Hin. split; [| reflexivity].
        apply in_app_or in Hin. destruct Hin as [Hin | [Hin | []]].
        -- exfalso.
           apply (quiet_no_register lp signature (Some false) Hq Hin).
        -- injection Hin as -> ->. injection Ha as ->. reflexivity.
      * rewrite sends_app, (quiet_sends lp Hq). unfold sends. simpl. lia.
      * intros signature Heq. discriminate Heq.
    + intros u l (s & a & -> & Ha).
      destruct a as [[|] |];
        [| discriminate Ha | destruct Ha as [f Hf]; discriminate Hf].
      eapply guarantees_weaken; [apply (Hrest tx') |].
      intros r l (Hreg & Hsends & Hdone).
      split; [| split].
      * exists (lp ++ [EvRegister s (Some true)]), l.
        split; [rewrite app_assoc; reflexivity |].
        split; [rewrite sends_app, (quiet_sends lp Hq); reflexivity |].
        split; [exact Hreg |].
        split.
        -- right. exists s.
           rewrite filter_app, (quiet_registers lp Hq). reflexivity.
        -- intros signature Hin. exfalso.
           apply in_app_or in Hin. destruct Hin as [Hin | Hin].
           ++ apply (quiet_no_register lp signature (Some false) Hq Hin).
           ++ apply in_app_or in Hin. destruct Hin as [[Hin | []] | Hin].
              ** discriminate Hin.
              ** apply (filter_none_In is_register l _ Hreg Hin). reflexivity.
      * rewrite !sends_app, (quiet_sends lp Hq). unfold sends in *. simpl.
        exact Hsends.
      * intros signature Heq.
        rewrite !sent_signatures_app, (quiet_sent_signatures lp Hq). simpl.
        apply Hdone. exact Heq.
Qed.

Lemma registers_not_sent (l : list (Event C)) :
  Forall (fun e => is_register e = true) l ->
  sends l = 0 /\ filter is_confirm l = [] /\ filter is_lookup l = [].
Proof.
  intros H. unfold sends. rewrite !filter_none; [repeat split | | |];
    (eapply Forall_impl; [| exact H]); intros e He;
    apply (is_register_not e He).
Qed.

Lemma is_register_not_sign_all (e : Event C) :
  is_register e = true -> is_sign_all e = false.
Proof. destruct e; simpl; intros H; try discriminate H; reflexivity. Qed.

(** The sending loop never asks the wallet to sign. *)
Lemma send_loop_no_sign_all (this : AnchorProvider C)
    (signedTxs : list (Transaction C)) (o : ConfirmOptions) (skip : bool)
    (ks : list nat) :
  guarantees
    (for_each_index ks
       (fun sigs k =>
          andThen (element signedTxs k) (fun tx =>
          andThen (serialize tx) (fun rawTx =>
          andThen (if skip
                   then sendRawTransaction (connection this) rawTx (Some o)
                   else sendAndConfirmRawTransaction (connection this) rawTx
                          (Some o))
                  (fun sig => done (sigs ++ [sig])))))
       [])
    (fun _ added => filter is_sign_all added = []).
Proof.
  eapply guarantees_weaken.
  - apply (guarantees_for_each_index
             (fun _ _ l => filter is_sign_all l = [])
             (fun _ _ l => filter is_sign_all l = []))
      with (i := 0) (l := []); [| reflexivity].
    intros i sigs k l Hl.
    apply guarantees_element_then; [| rewrite app_nil_r; exact Hl].
    intros tx. eapply guarantees_andThen.
    + unfold serialize.
      apply guarantees_perform with (Q := fun r l1 => l1 = [EvSerialize tx]).
      reflexivity.
    + intros f l1 H. cbv beta in H. subst l1.
      rewrite filter_app, Hl. reflexivity.
    + intros rawTx l1 H. cbv beta in H. subst l1.
      assert (Hstep :
                guarantees
                  (if skip
                   then sendRawTransaction (connection this) rawTx (Some o)
                   else sendAndConfirmRawTransaction (connection this) rawTx
                          (Some o))
                  (fun _ ls => filter is_sign_all ls = [])).
      { destruct skip.
        - eapply guarantees_weaken; [apply sendRawTransaction_run |].
          intros r ls [returned [-> _]]. reflexivity.
        - eapply guarantees_weaken; [apply sendAndConfirmRawTransaction_run |].
          intros r ls [[-> _] | [s [returned [-> _]]]]; reflexivity. }
      eapply guarantees_andThen; [exact Hstep | |].
      * intros f ls Hls. cbv beta in Hls.
        rewrite !filter_app, Hl, Hls. reflexivity.
      * intros sig ls Hls. cbv beta in Hls. apply guarantees_done.
        rewrite app_nil_r, !filter_app, Hl, Hls. reflexivity.
  - intros r l. simpl. destruct r as [sigs | f].
    + intros H. exact H.
    + intros [i' [_ H]]. exact H.
Qed.

Lemma guarantees_conj {A} (m : Prog C A)
    (Q1 Q2 : Outcome (Alien C) A -> list (Event C) -> Prop) :
  guarantees m Q1 -> guarantees m Q2 ->
  guarantees m (fun r l => Q1 r l /\ Q2 r l).
Proof.
  intros H1 H2 st.
  destruct (H1 st) as [a1 [E1 P1]]. destruct (H2 st) as [a2 [E2 P2]].
  exists a1. split; [exact E1 |]. split; [exact P1 |].
  rewrite E1 in E2. apply app_inv_head in E2. rewrite E2. exact P2.
Qed.

Lemma guarantees_element_found_then {A B} (array : list A) (k : nat)
    (continue : A -> Prog C B)
    (Q : Outcome (Alien C) B -> list (Event C) -> Prop) :
  (forall x, nth_error array k = Some x -> guarantees (continue x) Q) ->
  Q (Raise (Threw (TypeError "Cannot read properties of undefined"))) [] ->
  guarantees (andThen (element array k) continue) Q.
Proof.
  intros Hk Hf st. unfold andThen, element.
  destruct (nth_error array k) as [x |]; simpl.
  - apply (Hk x eq_refl).
  - exists []. simpl. rewrite app_nil_r. split; [reflexivity | exact Hf].
Qed.

(** A loop over the indices from [start] on that sends at most once per
    turn, and only at an index below [bound], sends at most
    [bound - start] times. *)
Lemma for_each_index_sends {V} (body : V -> nat -> Prog C V) (bound : nat) :
  (forall v k,
     guarantees (body v k)
       (fun r l =>
          sends l <= 1
          /\ (sends l = 0 \/ k < bound)
          /\ forall v', r = Done v' -> k < bound)) ->
  forall n start v,
    guarantees (for_each_index (seq start n) body v)
      (fun _ added => sends added <= bound - start).
Proof.
  intros Hbody n. induction n as [| n IH]; intros start v;
    cbn [seq for_each_index].
  - apply guarantees_done. unfold sends. simpl. lia.
  - eapply guarantees_andThen; [apply (Hbody v start) | |].
    + intros f l (H1 & [H0 | Hlt] & _); lia.
    + intros v' l1 (H1 & _ & Hlt). specialize (Hlt v' eq_refl).
      eapply guarantees_weaken; [apply (IH (S start) v') |].
      intros r l2 H2. cbv beta in H2. rewrite sends_app. lia.
Qed.

(** The sending loop sends no more transactions than [signedTxs]
    has. *)
Lemma send_loop_bound (this : AnchorProvider C)
    (signedTxs : list (Transaction C)) (o : ConfirmOptions) (skip : bool)
    (n : nat) :
  guarantees
    (for_each_index (seq 0 n)
       (fun sigs k =>
          andThen (element signedTxs k) (fun tx =>
          andThen (serialize tx) (fun rawTx =>
          andThen (if skip
                   then sendRawTransaction (connection this) rawTx (Some o)
                   else sendAndConfirmRawTransaction (connection this) rawTx
                          (Some o))
                  (fun sig => done (sigs ++ [sig])))))
       [])
    (fun _ added => sends added <= length signedTxs).
Proof.
  eapply guarantees_weaken.
  - apply (for_each_index_sends
             (fun sigs k =>
                andThen (element signedTxs k) (fun tx =>
                andThen (serialize tx) (fun rawTx =>
                andThen (if skip
                         then sendRawTransaction (connection this) rawTx
                                (Some o)
                         else sendAndConfirmRawTransaction (connection this)
                                rawTx (Some o))
                        (fun sig => done (sigs ++ [sig])))))
             (length signedTxs)).
    intros sigs k. apply guarantees_element_found_then.
    + intros tx Hnth.
      assert (Hlt : k < length signedTxs).
      { apply nth_error_Some. rewrite Hnth. discriminate. }
      eapply guarantees_andThen.
      * unfold serialize.
        apply guarantees_perform with (Q := fun r l1 => l1 = [EvSerialize tx]).
        reflexivity.
      * intros f l1 H. cbv beta in H. subst l1.
        split; [unfold sends; simpl; lia |].
        split; [right; exact Hlt | intros v' Heq; discriminate Heq].
      * intros rawTx l1 H. cbv beta in H. subst l1.
        eapply guarantees_andThen;
          [apply (send_step_run (connection this) rawTx o skip) | |].
        -- intros f ls (Hs1 & _).
           split; [rewrite sends_app, Hs1; unfold sends; simpl; lia |].
           split; [right; exact Hlt | intros v' Heq; discriminate Heq].
        -- intros sig ls (Hs1 & _). apply guarantees_done.
           split; [rewrite !sends_app, Hs1; unfold sends; simpl; lia |].
           split; [right; exact Hlt | intros v' _; exact Hlt].
    + split; [unfold sends; simpl; lia |].
      split; [left; reflexivity | intros v' Heq; discriminate Heq].
  - intros r l H. cbv beta in H. lia.
Qed.

(** A registering loop that completes has made one registration per
    index. *)
Lemma register_loop_count (register : Register C)
    (array : list (Transaction C)) (ks : list nat) :
  guarantees
    (for_each_index ks
       (fun (_ : unit) j =>
          andThen (element array j) (fun st => registration register st))
       tt)
    (fun r added => forall u, r = Done u -> length added = length ks).
Proof.
  eapply guarantees_weaken.
  - apply (guarantees_for_each_index
             (fun i _ l => length l = i) (fun _ _ _ => True))
      with (i := 0) (l := []); [| reflexivity].
    intros i v k l Hl.
    apply guarantees_element_then; [| exact I].
    intros st. eapply guarantees_weaken; [apply registration_run |].
    intros r l2 [signature [accepted [-> _]]].
    destruct r as [u | f]; [| exact I].
    rewrite length_app, Hl. simpl. lia.
  - intros r l. simpl. destruct r as [u | f].
    + intros H u' _. exact H.
    + intros _ u' Heq. discriminate Heq.
Qed.

(** [registerAndSendAll] of the cjs build, in parts. *)
Lemma registerAndSendAll_run (this : AnchorProvider C)
    (txWithSigners : list (TxWithSigners C)) (register : Register C)
    (skipConfirm : option bool) (opts_ : option ConfirmOptions) :
  guarantees (registerAndSendAll this txWithSigners register skipConfirm opts_)
    (in_parts (connection this) (length txWithSigners) skipConfirm
       (commitment (default_opts this opts_))).
Proof.
  unfold registerAndSendAll. cbv zeta.
  eapply guarantees_andThen; [apply prepare_all_quiet | |].
  - intros f lp [Hq _]. exists lp, [], [], [].
    split; [rewrite app_nil_r; reflexivity |].
    split; [exact Hq |]. split; [constructor |]. split; [constructor |].
    left. split; [reflexivity |]. split; [exists f; reflexivity |].
    intros s [].
  - intros [txs signedTxs] lp [Hq Hlen].
    specialize (Hlen txs signedTxs eq_refl).
    eapply guarantees_andThen;
      [apply (guarantees_conj _ _ _
                (register_loop_run register signedTxs
                   (seq 0 (length signedTxs)))
                (register_loop_count register signedTxs
                   (seq 0 (length signedTxs)))) | |].
    + intros f lr [(Hreg & _ & Hfalse) _]. exists lp, lr, [], [].
      split; [rewrite app_nil_r; reflexivity |].
      split; [exact Hq |]. split; [exact Hreg |]. split; [constructor |].
      left. split; [reflexivity |]. split; [exists f; reflexivity |].
      intros s Hin. rewrite (Hfalse f eq_refl s Hin). reflexivity.
    + intros u lr [(Hreg & Hacc & _) Hcount].
      specialize (Hacc u eq_refl). specialize (Hcount u eq_refl).
      rewrite length_seq in Hcount.
      eapply guarantees_weaken.
      * apply (guarantees_conj _ _ _
                 (send_loop_run this signedTxs (default_opts this opts_)
                    (match skipConfirm with Some b => b | None => false end)
                    (seq 0 (length txs)))
                 (send_loop_bound this signedTxs (default_opts this opts_)
                    (match skipConfirm with Some b => b | None => false end)
                    (length txs))).
      * intros r ls [(H1 & H2 & H3 & H4 & _ & H6) Hbound].
        rewrite length_seq, Hlen in H4, H6.
        exists lp, lr, [], ls.
        split; [reflexivity |].
        split; [exact Hq |]. split; [exact Hreg |]. split; [constructor |].
        right. split; [exact Hacc |].
        split; [exact H1 |]. split; [exact H2 |].
        split; [intros ->; apply H3; reflexivity |].
        split; [exact H4 |].
        split; [rewrite Hcount; exact Hbound |].
        intros sigs Heq. destruct (H6 sigs Heq) as (Hs1 & Hs2 & Hs3).
        split; [exact Hs1 |]. split; [exact Hs2 |].
        intros Hskip. apply Hs3.
        destruct skipConfirm as [[|] |]; [| reflexivity | reflexivity].
        exfalso. apply Hskip. reflexivity.
Qed.

(** [registerAndSendAll] of the esm build, in parts. *)
Lemma registerAndSendAll_esm_run (this : AnchorProvider C)
    (txWithSigners : list (TxWithSigners C)) (register : Register C)
    (skipConfirm : option bool) (opts_ : option ConfirmOptions) :
  guarantees
    (registerAndSendAll_esm this txWithSigners register skipConfirm opts_)
    (in_parts (connection this) (length txWithSigners) skipConfirm
       (commitment (default_opts this opts_))).
Proof.
  unfold registerAndSendAll_esm. cbv zeta.
  eapply guarantees_andThen; [apply prepare_unsigned_run | |].
  - intros f lp [Hq _]. exists lp, [], [], [].
    split; [rewrite app_nil_r; reflexivity |].
    split; [eapply Forall_impl; [| exact Hq]; intros e [He _]; exact He |].
    split; [constructor |]. split; [constructor |].
    left. split; [reflexivity |]. split; [exists f; reflexivity |].
    intros s [].
  - intros txs lp [Hq' Hlen]. specialize (Hlen txs eq_refl).
    assert (Hq : Forall (fun e => is_quiet e = true) lp).
    { eapply Forall_impl; [| exact Hq']. intros e [He _]. exact He. }
    eapply guarantees_andThen;
      [apply (guarantees_conj _ _ _
                (register_loop_run register txs (seq 0 (length txs)))
                (register_loop_count register txs (seq 0 (length txs)))) | |].
    + intros f lr [(Hreg & _ & Hfalse) _]. exists lp, lr, [], [].
      split; [rewrite app_nil_r; reflexivity |].
      split; [exact Hq |]. split; [exact Hreg |]. split; [constructor |].
      left. split; [reflexivity |]. split; [exists f; reflexivity |].
      intros s Hin. rewrite (Hfalse f eq_refl s Hin). reflexivity.
    + intros u lr [(Hreg & Hacc & _) Hcount].
      specialize (Hacc u eq_refl). specialize (Hcount u eq_refl).
      rewrite length_seq in Hcount.
      eapply guarantees_andThen.
      * unfold signAllTransactions.
        apply guarantees_perform
          with (Q := fun r l => l = [EvSignAllTransactions (wallet this) txs]).
        reflexivity.
      * intros f lm H. cbv beta in H. subst lm.
        exists lp, lr, [EvSignAllTransactions (wallet this) txs], [].
        split; [rewrite app_nil_r; reflexivity |].
        split; [exact Hq |]. split; [exact Hreg |].
        split; [repeat constructor |].
        left. split; [reflexivity |]. split; [exists f; reflexivity |].
        intros s Hin. exfalso. rewrite Forall_forall in Hacc.
        specialize (Hacc _ Hin). discriminate Hacc.
      * intros signedTxs lm H. cbv beta in H. subst lm.
        eapply guarantees_weaken.
        -- apply (send_loop_run this signedTxs (default_opts this opts_)
                    (match skipConfirm with Some b => b | None => false end)
                    (seq 0 (length txs))).
        -- intros r ls (H1 & H2 & H3 & H4 & _ & H6).
           rewrite length_seq in H4, H6.
           exists lp, lr, [EvSignAllTransactions (wallet this) txs], ls.
           split; [reflexivity |].
           split; [exact Hq |]. split; [exact Hreg |].
           split; [repeat constructor |].
           right. split; [exact Hacc |].
           split; [exact H1 |]. split; [exact H2 |].
           split; [intros ->; apply H3; reflexivity |].
           split; [rewrite <- Hlen; exact H4 |].
           split; [rewrite Hcount; exact H4 |].
           rewrite Hlen in H6.
           intros sigs Heq. destruct (H6 sigs Heq) as (Hs1 & Hs2 & Hs3).
           split; [exact Hs1 |]. split; [exact Hs2 |].
           intros Hskip. apply Hs3.
           destruct skipConfirm as [[|] |]; [| reflexivity | reflexivity].
           exfalso. apply Hskip. reflexivity.
Qed.

Lemma in_parts_registers_first (conn : Connection C) (n : nat)
    (skipConfirm : option bool) (c : option string)
    (r : Outcome (Alien C) (list string)) (added : list (Event C)) :
  in_parts conn n skipConfirm c r added ->
  exists before after,
    added = before ++ after
    /\ sends before = 0
    /\ filter is_register after = []
    /\ sends after <= n
    /\ (after = []
        \/ (Forall (fun e => is_accepted e = true) (filter is_register before)
            /\ sends after <= length (filter is_register before)))
    /\ (forall signature,
          In (EvRegister signature (Some false)) added ->
          r = Raise (Threw (Error "Signature registration failed"))
          /\ after = [])
    /\ forall sigs, r = Done sigs ->
         sigs = sent_signatures after
         /\ length sigs = n
         /\ n <= length (filter is_register before).
Proof.
  intros (lp & lr & lm & ls & -> & Hq & Hreg & Hm & Hcases).
  destruct (registers_not_sent lr Hreg) as (Hsends & _ & _).
  assert (Hregs : filter is_register (lp ++ lr ++ lm) = lr).
  { rewrite !filter_app, (quiet_registers lp Hq), (quiet_registers lm Hm),
      app_nil_r. simpl.
    clear - Hreg. induction Hreg as [| e l He _ IH]; simpl; [reflexivity |].
    rewrite He, IH. reflexivity. }
  exists (lp ++ lr ++ lm), ls.
  split; [rewrite <- !app_assoc; reflexivity |].
  split; [rewrite !sends_app, (quiet_sends lp Hq), (quiet_sends lm Hm), Hsends;
          reflexivity |].
  rewrite Hregs.
  destruct Hcases
    as [(-> & [f ->] & Hfalse) | (Hacc & H1 & _ & _ & H4 & H5 & H6)].
  - split; [reflexivity |].
    split; [unfold sends; simpl; lia |].
    split; [left; reflexivity |].
    split.
    + intros signature Hin. split; [| reflexivity].
      apply in_app_or in Hin. destruct Hin as [Hin | Hin].
      * exfalso. apply (quiet_no_register lp signature (Some false) Hq Hin).
      * apply in_app_or in Hin. destruct Hin as [Hin | Hin].
        -- apply (Hfalse signature Hin).
        -- exfalso. rewrite app_nil_r in Hin.
           apply (quiet_no_register lm signature (Some false) Hm Hin).
    + intros sigs Heq. discriminate Heq.
  - split; [exact H1 |].
    split; [exact H4 |].
    split; [right; split; [exact Hacc | exact H5] |].
    split.
    + intros signature Hin. exfalso.
      apply in_app_or in Hin. destruct Hin as [Hin | Hin].
      * apply (quiet_no_register lp signature (Some false) Hq Hin).
      * apply in_app_or in Hin. destruct Hin as [Hin | Hin].
        -- rewrite Forall_forall in Hacc. specialize (Hacc _ Hin).
           discriminate Hacc.
        -- apply in_app_or in Hin. destruct Hin as [Hin | Hin].
           ++ apply (quiet_no_register lm signature (Some false) Hm Hin).
           ++ apply (filter_none_In is_register ls _ H1 Hin). reflexivity.
    + intros sigs Heq. destruct (H6 sigs Heq) as (Hs1 & Hs2 & _).
      split; [exact Hs1 |]. split; [exact Hs2 |].
      pose proof (sent_signatures_sends ls) as Hle.
      rewrite <- Hs1, Hs2 in Hle. lia.
Qed.

Lemma in_parts_confirmations (conn : Connection C) (n : nat)
    (skipConfirm : option bool) (c : option string)
    (r : Outcome (Alien C) (list string)) (added : list (Event C)) :
  in_parts conn n skipConfirm c r added ->
  filter is_lookup added = []
  /\ (skipConfirm = Some true -> filter is_confirm added = [])
  /\ (skipConfirm <> Some true ->
      forall sigs, r = Done sigs ->
      forall s, In s sigs -> confirmed conn c s added).
Proof.
  intros (lp & lr & lm & ls & -> & Hq & Hreg & Hm & Hcases).
  destruct (registers_not_sent lr Hreg) as (_ & Hconf & Hlook).
  rewrite !filter_app, (quiet_lookups lp Hq), (quiet_confirms lp Hq),
    (quiet_lookups lm Hm), (quiet_confirms lm Hm), Hconf, Hlook.
  destruct Hcases as [(-> & [f ->] & _) | (_ & _ & H2 & H3 & _ & _ & H6)].
  - split; [reflexivity |]. split; [reflexivity |].
    intros _ sigs Heq. discriminate Heq.
  - split; [exact H2 |]. split; [exact H3 |].
    intros Hskip sigs Heq s Hin.
    destruct (H6 sigs Heq) as (_ & _ & Hs3).
    apply confirmed_app_r. apply confirmed_app_r. apply confirmed_app_r.
    apply (Hs3 Hskip s Hin).
Qed.

(** ** The properties *)

(** X9. [sendAndConfirm] sends at most one transaction and registers
    nothing; when it returns a signature, that is the signature the node
    returned for the one send, and the node has confirmed it, at the
    commitment of the options, with a status without error. *)
Theorem sendAndConfirm_outcome (this : AnchorProvider C) (tx : Transaction C)
    (signers : option (list (Signer C))) (opts_ : option ConfirmOptions) :
  guarantees (sendAndConfirm this tx signers opts_)
    (fun r added =>
       sends added <= 1
       /\ filter is_register added = []
       /\ forall signature, r = Done signature ->
            sent_signatures added = [signature]
            /\ confirmed (connection this)
                 (commitment (default_opts this opts_)) signature added).
Proof.
  unfold sendAndConfirm. cbv zeta.
  eapply guarantees_andThen; [apply prepare_quiet | |].
  - intros f lp Hq. cbv beta in Hq.
    split; [rewrite (quiet_sends lp Hq); lia |].
    split; [apply quiet_registers; exact Hq |].
    intros signature Heq. discriminate Heq.
  - intros tx' lp Hq. cbv beta in Hq.
    eapply guarantees_weaken; [apply confirm_tail_run |].
    intros r l (Hreg & Hsends & Hdone & _).
    split; [rewrite sends_app, (quiet_sends lp Hq); exact Hsends |].
    split; [rewrite filter_app, (quiet_registers lp Hq), Hreg; reflexivity |].
    intros signature Heq. destruct (Hdone signature Heq) as [Hsig Hconf].
    split.
    + rewrite sent_signatures_app, (quiet_sent_signatures lp Hq). exact Hsig.
    + apply confirmed_app_r. exact Hconf.
Qed.

(** X10. In [sendAndConfirm] and in [registerSendAndConfirm] the lookup
    of the failed transaction, if there is one, is the last call; it is
    made on the connection of the provider at commitment ["confirmed"],
    after exactly one send; once it has returned, what is thrown is a
    [SendTransactionError] with the logs of the transaction if it has
    logs, and a [ConfirmError] if the transaction is not found or has no
    logs; and when the lookup follows a confirmation that returned a
    status, that status has an error and the message thrown is
    ["Raw transaction <signature> failed (<status as JSON>)"]. *)
Theorem confirm_error_logs (this : AnchorProvider C) (tx : Transaction C)
    (register : Register C) (signers : option (list (Signer C)))
    (opts_ : option ConfirmOptions) :
  guarantees (sendAndConfirm this tx signers opts_)
    (fun r added => logs_fetched_last (connection this) r added)
  /\ guarantees (registerSendAndConfirm this tx register signers opts_)
       (fun r added => logs_fetched_last (connection this) r added).
Proof.
  split.
  - unfold sendAndConfirm. cbv zeta.
    eapply guarantees_andThen; [apply prepare_quiet | |].
    + intros f lp Hq. cbv beta in Hq. exists lp, [].
      split; [rewrite app_nil_r; reflexivity |].
      split; [apply quiet_lookups; exact Hq | left; reflexivity].
    + intros tx' lp Hq. cbv beta in Hq.
      eapply guarantees_weaken; [apply confirm_tail_run |].
      intros r l (_ & _ & _ & Hlast).
      apply logs_fetched_last_after;
        [apply quiet_lookups; exact Hq | apply quiet_sends; exact Hq
        | exact Hlast].
  - unfold registerSendAndConfirm. cbv zeta.
    eapply guarantees_andThen; [apply prepare_quiet | |].
    + intros f lp Hq. cbv beta in Hq. exists lp, [].
      split; [rewrite app_nil_r; reflexivity |].
      split; [apply quiet_lookups; exact Hq | left; reflexivity].
    + intros tx' lp Hq. cbv beta in Hq.
      eapply guarantees_andThen; [apply registration_run | |].
      * intros f l (s & a & -> & _). exists (lp ++ [EvRegister s a]), [].
        split; [rewrite app_nil_r; reflexivity |].
        split; [| left; reflexivity].
        rewrite filter_app, (quiet_lookups lp Hq). reflexivity.
      * intros u l (s & a & -> & _).
        eapply guarantees_weaken; [apply confirm_tail_run |].
        intros r l (_ & _ & _ & Hlast).
        apply logs_fetched_last_after;
          [apply quiet_lookups; exact Hq | apply quiet_sends; exact Hq |].
        apply logs_fetched_last_after; [reflexivity | reflexivity | exact Hlast].
Qed.

(** X11. [registerSendAndConfirm] and [registerAndSend] register before
    they send: nothing is sent before the registration, at most one
    transaction is sent, and only after the one registration has
    returned [true]; if the registration returns [false] the error
    ["Signature registration failed"] is thrown and nothing is sent;
    a signature that is returned is the one the node returned for the
    send. *)
Theorem register_before_send (this : AnchorProvider C) (tx : Transaction C)
    (register : Register C) (signers : option (list (Signer C)))
    (opts_ : option ConfirmOptions) :
  guarantees (registerSendAndConfirm this tx register signers opts_)
    (fun r added =>
       registered_first r added
       /\ sends added <= 1
       /\ forall signature, r = Done signature ->
            sent_signatures added = [signature])
  /\ guarantees (registerAndSend this tx register signers opts_)
       (fun r added =>
          registered_first r added
          /\ sends added <= 1
          /\ forall signature, r = Done signature ->
               sent_signatures added = [signature]).
Proof.
  split.
  - unfold registerSendAndConfirm. cbv zeta.
    apply (registered_then this tx register signers (default_opts this opts_)
             (fun tx' =>
                andThen (serialize tx') (fun rawTx =>
                  tryCatch
                    (sendAndConfirmRawTransaction (connection this) rawTx
                       (Some (default_opts this opts_)))
                    (with_logs this tx')))).
    intros tx'. eapply guarantees_weaken; [apply confirm_tail_run |].
    intros r l (Hreg & Hsends & Hdone & _).
    split; [exact Hreg |]. split; [exact Hsends |].
    intros signature Heq. apply (Hdone signature Heq).
  - unfold registerAndSend. cbv zeta.
    apply (registered_then this tx register signers (default_opts this opts_)
             (fun tx' =>
                andThen (serialize tx') (fun rawTx =>
                  sendRawTransaction (connection this) rawTx
                    (Some (default_opts this opts_))))).
    intros tx'. apply send_tail_run.
Qed.

(** X12. [registerAndSendAll], in the cjs and in the esm build,
    registers before it sends: the log splits in two, nothing is sent
    in the first part, nothing is registered in the second, and the
    second part is empty unless every registration of the first part
    returned [true] and there are at least as many of them as there are
    sends; a registration that returned [false] makes it throw
    ["Signature registration failed"] with nothing sent; at most one
    transaction is sent per entry, and the signatures returned are those
    the node returned for the sends, in order, one per entry, no more
    than there were registrations. *)
Theorem registerAndSendAll_registers_first (this : AnchorProvider C)
    (txWithSigners : list (TxWithSigners C)) (register : Register C)
    (skipConfirm : option bool) (opts_ : option ConfirmOptions) :
  let registers_first r added :=
    exists before after,
      added = before ++ after
      /\ sends before = 0
      /\ filter is_register after = []
      /\ sends after <= length txWithSigners
      /\ (after = []
          \/ (Forall (fun e => is_accepted e = true)
                (filter is_register before)
              /\ sends after <= length (filter is_register before)))
      /\ (forall signature,
            In (EvRegister signature (Some false)) added ->
            r = Raise (Threw (Error "Signature registration failed"))
            /\ after = [])
      /\ forall sigs, r = Done sigs ->
           sigs = sent_signatures after
           /\ length sigs = length txWithSigners
           /\ length txWithSigners <= length (filter is_register before) in
  guarantees (registerAndSendAll this txWithSigners register skipConfirm opts_)
    registers_first
  /\ guarantees
       (registerAndSendAll_esm this txWithSigners register skipConfirm opts_)
       registers_first.
Proof.
  cbv zeta. split.
  - eapply guarantees_weaken; [apply registerAndSendAll_run |].
    intros r added. apply in_parts_registers_first.
  - eapply guarantees_weaken; [apply registerAndSendAll_esm_run |].
    intros r added. apply in_parts_registers_first.
Qed.

(** X13. [sendAll] registers nothing and looks no transaction up; it
    sends at most one transaction per entry, and at most one of its
    sends fails to return a signature; the signatures it returns are
    those the node returned for the sends, in order, one per entry, each
    confirmed by the node with a status without error. *)
Theorem sendAll_signatures (this : AnchorProvider C)
    (txWithSigners : list (TxWithSigners C)) (opts_ : option ConfirmOptions) :
  guarantees (sendAll this txWithSigners opts_)
    (fun r added =>
       filter is_register added = []
       /\ filter is_lookup added = []
       /\ sends added <= length txWithSigners
       /\ sends added <= S (length (sent_signatures added))
       /\ forall sigs, r = Done sigs ->
            sigs = sent_signatures added
            /\ length sigs = length txWithSigners
            /\ forall s, In s sigs ->
                 confirmed (connection this)
                   (commitment (default_opts this opts_)) s added).
Proof.
  unfold sendAll. cbv zeta.
  eapply guarantees_andThen; [apply prepare_all_quiet | |].
  - intros f lp [Hq _].
    split; [apply quiet_registers; exact Hq |].
    split; [apply quiet_lookups; exact Hq |].
    rewrite (quiet_sends lp Hq).
    split; [lia |]. split; [lia |].
    intros sigs Heq. discriminate Heq.
  - intros [txs signedTxs] lp [Hq Hlen].
    specialize (Hlen txs signedTxs eq_refl).
    eapply guarantees_weaken.
    + apply (send_loop_run this signedTxs (default_opts this opts_) false
               (seq 0 (length txs))).
    + intros r ls (H1 & H2 & _ & H4 & H5 & H6).
      rewrite length_seq, Hlen in H4, H6.
      rewrite !filter_app, sends_app, sent_signatures_app.
      rewrite (quiet_registers lp Hq), (quiet_lookups lp Hq),
        (quiet_sends lp Hq), (quiet_sent_signatures lp Hq).
      split; [exact H1 |]. split; [exact H2 |].
      split; [exact H4 |]. split; [exact H5 |].
      intros sigs Heq. destruct (H6 sigs Heq) as (Hs1 & Hs2 & Hs3).
      split; [exact Hs1 |]. split; [exact Hs2 |].
      intros s Hin. apply confirmed_app_r. apply (Hs3 eq_refl s Hin).
Qed.

(** X14. [registerAndSendAll], in the cjs and in the esm build, looks
    no transaction up; with [skipConfirm] true it asks for no
    confirmation at all, and otherwise (false, or left out) every
    signature it returns has been confirmed by the node with a status
    without error. *)
Theorem registerAndSendAll_skipConfirm (this : AnchorProvider C)
    (txWithSigners : list (TxWithSigners C)) (register : Register C)
    (skipConfirm : option bool) (opts_ : option ConfirmOptions) :
  let confirmations r added :=
    filter is_lookup added = []
    /\ (skipConfirm = Some true -> filter is_confirm added = [])
    /\ (skipConfirm <> Some true ->
        forall sigs, r = Done sigs ->
        forall s, In s sigs ->
          confirmed (connection this)
            (commitment (default_opts this opts_)) s added) in
  guarantees (registerAndSendAll this txWithSigners register skipConfirm opts_)
    confirmations
  /\ guarantees
       (registerAndSendAll_esm this txWithSigners register skipConfirm opts_)
       confirmations.
Proof.
  cbv zeta. split.
  - eapply guarantees_weaken; [apply registerAndSendAll_run |].
    intros r added. apply in_parts_confirmations.
  - eapply guarantees_weaken; [apply registerAndSendAll_esm_run |].
    intros r added. apply in_parts_confirmations.
Qed.

(** X15. The builds differ in [registerAndSendAll]: in the cjs build
    the wallet never signs after a registration (the log splits into a
    part without registrations and a part in which the wallet does not
    sign), in the esm build the wallet never signs before a registration
    (the log splits into a part in which the wallet does not sign and a
    part without registrations). *)
Theorem registerAndSendAll_builds (this : AnchorProvider C)
    (txWithSigners : list (TxWithSigners C)) (register : Register C)
    (skipConfirm : option bool) (opts_ : option ConfirmOptions) :
  guarantees (registerAndSendAll this txWithSigners register skipConfirm opts_)
    (fun r added =>
       exists before after,
         added = before ++ after
         /\ filter is_register before = []
         /\ filter is_sign_all after = [])
  /\ guarantees
       (registerAndSendAll_esm this txWithSigners register skipConfirm opts_)
       (fun r added =>
          exists before after,
            added = before ++ after
            /\ filter is_sign_all before = []
            /\ filter is_register after = []).
Proof.
  split.
  - unfold registerAndSendAll. cbv zeta.
    eapply guarantees_andThen; [apply prepare_all_quiet | |].
    + intros f lp [Hq _]. exists lp, [].
      split; [rewrite app_nil_r; reflexivity |].
      split; [apply quiet_registers; exact Hq | reflexivity].
    + intros [txs signedTxs] lp [Hq _].
      eapply guarantees_andThen; [apply register_loop_run | |].
      * intros f lr (Hreg & _ & _). exists lp, lr.
        split; [reflexivity |].
        split; [apply quiet_registers; exact Hq |].
        apply filter_none. eapply Forall_impl; [| exact Hreg].
        apply is_register_not_sign_all.
      * intros u lr (Hreg & _ & _).
        eapply guarantees_weaken; [apply send_loop_no_sign_all |].
        intros r ls Hls. exists lp, (lr ++ ls).
        split; [reflexivity |].
        split; [apply quiet_registers; exact Hq |].
        rewrite filter_app, Hls, app_nil_r.
        apply filter_none. eapply Forall_impl; [| exact Hreg].
        apply is_register_not_sign_all.
  - unfold registerAndSendAll_esm. cbv zeta.
    eapply guarantees_andThen; [apply prepare_unsigned_run | |].
    + intros f lp [Hq _]. exists lp, [].
      split; [rewrite app_nil_r; reflexivity |].
      split; [| reflexivity].
      apply filter_none. eapply Forall_impl; [| exact Hq].
      intros e [_ He]. exact He.
    + intros txs lp [Hq _].
      assert (Hlp : filter is_sign_all lp = []).
      { apply filter_none. eapply Forall_impl; [| exact Hq].
        intros e [_ He]. exact He. }
      eapply guarantees_andThen; [apply register_loop_run | |].
      * intros f lr (Hreg & _ & _). exists (lp ++ lr), [].
        split; [rewrite app_nil_r; reflexivity |].
        split; [| reflexivity].
        rewrite filter_app, Hlp. apply filter_none.
        eapply Forall_impl; [| exact Hreg]. apply is_register_not_sign_all.
      * intros u lr (Hreg & _ & _).
        assert (Hlr : filter is_sign_all (lp ++ lr) = []).
        { rewrite filter_app, Hlp. apply filter_none.
          eapply Forall_impl; [| exact Hreg].
          apply is_register_not_sign_all. }
        eapply guarantees_andThen.
        -- unfold signAllTransactions.
           apply guarantees_perform
             with (Q := fun r l =>
                          l = [EvSignAllTransactions (wallet this) txs]).
           reflexivity.
        -- intros f lm H. cbv beta in H. subst lm.
           exists (lp ++ lr), [EvSignAllTransactions (wallet this) txs].
           split; [rewrite app_assoc; reflexivity |].
           split; [exact Hlr | reflexivity].
        -- intros signedTxs lm H. cbv beta in H. subst lm.
           eapply guarantees_weaken.
           ++ apply (send_loop_run this signedTxs (default_opts this opts_)
                       (match skipConfirm with Some b => b | None => false end)
                       (seq 0 (length txs))).
           ++ intros r ls (H1 & _).
              exists (lp ++ lr),
                ([EvSignAllTransactions (wallet this) txs] ++ ls).
              split; [rewrite app_assoc; reflexivity |].
              split; [exact Hlr |].
              rewrite filter_app, H1. reflexivity.
Qed.

End ProviderProperties.

(** ** Runs in the world [mock] *)

Example sendAndConfirm_failed_transaction :
  fst (Provider.sendAndConfirm Provider.mock_provider 13 None None (0, []))
  = Provider.Raise
      (Provider.SendTransactionError "Raw transaction bad failed ({})"
         ["log"%string]).
Proof. reflexivity. Qed.

Example sendAll_two_transactions :
  fst (Provider.sendAll Provider.mock_provider
         (Provider.mock_entries [1; 2]) None (0, []))
  = Provider.Done ["ok"%string; "ok"%string].
Proof. reflexivity. Qed.

Example registerAndSendAll_refused :
  let run :=
    Provider.registerAndSendAll Provider.mock_provider
      (Provider.mock_entries [1; 2; 3]) (Provider.mock_register 2) None None
      (0, []) in
  fst run
  = Provider.Raise (Provider.Threw (Error "Signature registration failed"))
  /\ Provider.sends (snd (snd run)) = 0
  /\ fst (snd run) = 0.
Proof. repeat split. Qed.

Example registerAndSendAll_build_order :
  let trace (run : Provider.Prog Provider.mock (list string)) :=
    filter (fun e => Provider.is_register e || Provider.is_sign_all e)
      (snd (snd (run (0, [])))) in
  trace (Provider.registerAndSendAll Provider.mock_provider
           (Provider.mock_entries [1; 2]) (Provider.mock_register 0) None None)
  = [Provider.EvSignAllTransactions (C := Provider.mock) tt [1; 2];
     Provider.EvRegister (C := Provider.mock) (Some 1) (Some true);
     Provider.EvRegister (C := Provider.mock) (Some 2) (Some true)]
  /\ trace (Provider.registerAndSendAll_esm Provider.mock_provider
              (Provider.mock_entries [1; 2]) (Provider.mock_register 0)
              None None)
     = [Provider.EvRegister (C := Provider.mock) (Some 1) (Some true);
        Provider.EvRegister (C := Provider.mock) (Some 2) (Some true);
        Provider.EvSignAllTransactions (C := Provider.mock) tt [1; 2]].
Proof. split; reflexivity. Qed.
